(** * MapReduceFramework: a shallow embedding and its verified properties

    The development follows the layout of the C++ sources:

    - [JobStateManager]  : the packed 64-bit progress word
                           (src/src/JobStateManager.cpp);
    - [Framework]        : the job context, the map / sort / shuffle / reduce
                           phases of a worker and the job-handle API
                           (src/src/MapReduceFramework.cpp);
    - [Barrier]          : the reusable barrier (src/src/Barrier.cpp);
    - [CounterClient]    : the character-counting client of the example
                           (example/SampleClient.cpp).

    Machine integers are values of [Z] with their wrap-around written out,
    vectors are lists in index order ([back] is the last element), the
    atomic progress word is a [Z] and every successful compare-and-swap is
    the atomic read-modify-write it implements.  The workers of a job are
    interleaved by an explicit schedule: a list of worker ids, each entry
    letting that worker take its next atomic step; the barrier separates
    the map steps from the shuffle and the shuffle from the reduce steps.

    Part I holds the model and the notions used in the statements; the
    other parts hold the properties, from the progress word up to the
    whole job. *)

From Stdlib Require Import ZArith Lia Bool QArith Qminmax.
From stdpp Require Import base list sorting gmap.

Local Open Scope Z_scope.

(** * Part I: the model *)

(** ** Fixed-width unsigned integers *)

Definition wrap32 (x : Z) : Z := x mod 2 ^ 32.
Definition wrap64 (x : Z) : Z := x mod 2 ^ 64.

(** ** include/MapReduceFramework.h: [enum stage_t] *)

Inductive stage_t : Type :=
| UNDEFINED_STAGE
| MAP_STAGE
| SHUFFLE_STAGE
| REDUCE_STAGE.

Definition stage_to_Z (s : stage_t) : Z :=
  match s with
  | UNDEFINED_STAGE => 0
  | MAP_STAGE => 1
  | SHUFFLE_STAGE => 2
  | REDUCE_STAGE => 3
  end.

(** [static_cast<stage_t>(v)], used on values already masked to two bits. *)
Definition stage_of_Z (v : Z) : stage_t :=
  if v =? 1 then MAP_STAGE
  else if v =? 2 then SHUFFLE_STAGE
  else if v =? 3 then REDUCE_STAGE
  else UNDEFINED_STAGE.

Module JobStateManager.

Definition STAGE_MASK : Z := 0x3.
Definition STAGE_SHIFT : Z := 62.
Definition PROCESSED_SHIFT : Z := 31.
Definition MAX_31_BITS : Z := 0x7FFFFFFF.

(** [state] layout: [63..62]=stage | [61..31]=processed | [30..0]=total *)
Definition encodeState (stage : stage_t) (processed total : Z) : Z :=
  Z.lor
    (Z.lor
       (wrap64 (Z.shiftl (Z.land (stage_to_Z stage) STAGE_MASK) STAGE_SHIFT))
       (wrap64 (Z.shiftl (Z.land processed MAX_31_BITS) PROCESSED_SHIFT)))
    (Z.land total MAX_31_BITS).

Definition decodeStage (v : Z) : stage_t :=
  stage_of_Z (Z.land (Z.shiftr v STAGE_SHIFT) STAGE_MASK).

Definition decodeProcessed (v : Z) : Z :=
  wrap32 (Z.land (Z.shiftr v PROCESSED_SHIFT) MAX_31_BITS).

Definition decodeTotal (v : Z) : Z :=
  wrap32 (Z.land v MAX_31_BITS).

(** The constructor stores [(UNDEFINED_STAGE, 0, totalKeys)]. *)
Definition init (totalKeys : Z) : Z :=
  encodeState UNDEFINED_STAGE 0 totalKeys.

(** [updateState]: one release store of the encoded triple. *)
Definition updateState (stage : stage_t) (processed total : Z) (state : Z) : Z :=
  encodeState stage processed total.

(** [incrementProcessed]: the compare-and-swap succeeds only when the
    atomic still holds [oldVal]; the call therefore replaces the word it
    read by [newVal] in one atomic step.  [processed + 1] is computed on
    [uint32_t]. *)
Definition incrementProcessed (oldVal : Z) : Z :=
  let stage := decodeStage oldVal in
  let processed := decodeProcessed oldVal in
  let total := decodeTotal oldVal in
  encodeState stage (wrap32 (processed + 1)) total.

(** [setTotal]: keeps the stage, resets [processed], stores [newTotal]. *)
Definition setTotal (newTotal : Z) (oldVal : Z) : Z :=
  let stage := decodeStage oldVal in
  encodeState stage 0 newTotal.

(** [setStage]: keeps the total, resets [processed], stores [newStage]. *)
Definition setStage (newStage : stage_t) (oldVal : Z) : Z :=
  let total := decodeTotal oldVal in
  encodeState newStage 0 total.

(** [getState]: one acquire load [packed], then three pure decodes. *)
Definition getState (packed : Z) : stage_t * Z * Z :=
  (decodeStage packed, decodeProcessed packed, decodeTotal packed).

End JobStateManager.

(** ** src/src/MapReduceFramework.cpp *)

Definition THREAD_ZERO : nat := 0%nat.

(** [back()] and [pop_back()] of a [std::vector] kept in index order. *)
Definition back {A : Type} (vec : list A) : option A := last vec.
Definition pop_back {A : Type} (vec : list A) : list A := removelast vec.

Section Framework.

(** Key and value classes of include/MapReduceClient.h.  The framework only
    ever moves the pointers around and compares [K2] keys with
    [operator<]. *)
Context {K1 V1 K2 V2 K3 V3 : Type}.

(** The [typedef]s of include/MapReduceClient.h. *)
Local Abbreviation InputPair := (K1 * V1)%type.
Local Abbreviation IntermediatePair := (K2 * V2)%type.
Local Abbreviation OutputPair := (K3 * V3)%type.
Local Abbreviation InputVec := (list (K1 * V1)).
Local Abbreviation IntermediateVec := (list (K2 * V2)).
Local Abbreviation OutputVec := (list (K3 * V3)).

(** [K2::operator<]. *)
Variable lt2 : K2 -> K2 -> bool.

(** The client: [client_map p] is the sequence of [emit2] calls made by
    [client.map] on the input pair [p], and [client_reduce g] the sequence
    of [emit3] calls made by [client.reduce] on the group [g]. *)
Variable client_map : InputPair -> list IntermediatePair.
Variable client_reduce : IntermediateVec -> list OutputPair.

(** [std::sort] with the comparator of [sortPhase]; the library function is
    not part of the repository and is taken as a parameter. *)
Variable std_sort : IntermediateVec -> IntermediateVec.

(** [struct JobContext].  The thread objects and the synchronisation
    primitives carry no data; [joined] has one flag per worker thread. *)
Record JobContext : Type := mkJobContext {
  stateManager : Z;
  inputVec : InputVec;
  outputVec : OutputVec;
  joined : list bool;
  intermediateVecs : list IntermediateVec;
  shuffledData : list IntermediateVec;
  shuffleCounter : Z;
  nextInputIndex : Z;
  nextReduceIndex : Z
}.

Definition with_stateManager (f : Z -> Z) (c : JobContext) : JobContext :=
  mkJobContext (f (stateManager c)) (inputVec c) (outputVec c) (joined c)
    (intermediateVecs c) (shuffledData c) (shuffleCounter c)
    (nextInputIndex c) (nextReduceIndex c).

Definition with_outputVec (f : OutputVec -> OutputVec) (c : JobContext) : JobContext :=
  mkJobContext (stateManager c) (inputVec c) (f (outputVec c)) (joined c)
    (intermediateVecs c) (shuffledData c) (shuffleCounter c)
    (nextInputIndex c) (nextReduceIndex c).

Definition with_joined (f : list bool -> list bool) (c : JobContext) : JobContext :=
  mkJobContext (stateManager c) (inputVec c) (outputVec c) (f (joined c))
    (intermediateVecs c) (shuffledData c) (shuffleCounter c)
    (nextInputIndex c) (nextReduceIndex c).

Definition with_intermediateVecs
    (f : list IntermediateVec -> list IntermediateVec) (c : JobContext) : JobContext :=
  mkJobContext (stateManager c) (inputVec c) (outputVec c) (joined c)
    (f (intermediateVecs c)) (shuffledData c) (shuffleCounter c)
    (nextInputIndex c) (nextReduceIndex c).

Definition with_nextInputIndex (f : Z -> Z) (c : JobContext) : JobContext :=
  mkJobContext (stateManager c) (inputVec c) (outputVec c) (joined c)
    (intermediateVecs c) (shuffledData c) (shuffleCounter c)
    (f (nextInputIndex c)) (nextReduceIndex c).

Definition with_nextReduceIndex (f : Z -> Z) (c : JobContext) : JobContext :=
  mkJobContext (stateManager c) (inputVec c) (outputVec c) (joined c)
    (intermediateVecs c) (shuffledData c) (shuffleCounter c)
    (nextInputIndex c) (f (nextReduceIndex c)).

(** The constructor of [JobContext]: [stateManager(input.size())] narrows the
    size to [uint32_t]. *)
Definition newJobContext (input : InputVec) (output : OutputVec) (nThreads : nat)
  : JobContext :=
  mkJobContext
    (JobStateManager.init (wrap32 (Z.of_nat (length input))))
    input output
    (replicate nThreads false)
    (replicate nThreads [])
    []
    0 0 0.

(** *** [emit2] and [sortPhase] *)

(** [emit2]: append to the calling thread's own intermediate vector. *)
Definition emit2 (tid : nat) (c : JobContext) (kv : IntermediatePair) : JobContext :=
  with_intermediateVecs (alter (fun vec => vec ++ [kv]) tid) c.

Definition sortPhase (tid : nat) (c : JobContext) : JobContext :=
  with_intermediateVecs (alter std_sort tid) c.

(** What [std::sort] guarantees for its result ([std::is_sorted] with the
    comparator [*a.first < *b.first]): no element is smaller than its
    predecessor. *)
Fixpoint is_sorted (vec : IntermediateVec) : bool :=
  match vec with
  | [] => true
  | a :: rest =>
      match rest with
      | [] => true
      | b :: _ => negb (lt2 b.1 a.1) && is_sorted rest
      end
  end.

(** *** [mapPhase]

    A worker is at the entry of [mapPhase], inside its loop, or has left the
    loop (and sorted its vector, which only it can see before the barrier).
    One step of a worker in the loop is one iteration: the atomic
    [fetch_add], the bounds check, the call of [client.map] with its
    [emit2] calls into the worker's own vector, and [incrementProcessed]. *)
Inductive MapPc : Type :=
| MapEntry
| MapLoop
| MapExit.

Definition mapPhase_step (s : JobContext * list MapPc) (tid : nat)
  : JobContext * list MapPc :=
  let '(c, pcs) := s in
  match pcs !! tid with
  | Some MapEntry =>
      ((if decide (tid = THREAD_ZERO)
        then with_stateManager (JobStateManager.setStage MAP_STAGE) c
        else c),
       <[tid := MapLoop]> pcs)
  | Some MapLoop =>
      let oldValue := nextInputIndex c in
      let c1 := with_nextInputIndex (fun _ => wrap32 (oldValue + 1)) c in
      if Z.of_nat (length (inputVec c)) <=? oldValue
      then (sortPhase tid c1, <[tid := MapExit]> pcs)
      else
        match inputVec c !! Z.to_nat oldValue with
        | Some kv =>
            (with_stateManager JobStateManager.incrementProcessed
               (foldl (emit2 tid) c1 (client_map kv)),
             pcs)
        | None => (c1, pcs)
        end
  | _ => s
  end.

(** *** [shufflePhase] *)

(** Keys that the inner loop of [shufflePhase] treats as equal:
    [!(a < b) && !(b < a)]. *)
Definition equivalent (a b : K2) : bool := negb (lt2 a b) && negb (lt2 b a).

(** The first [for] loop: the greatest key found at the back of a non-empty
    vector. *)
Definition find_max_step (maxKey : option K2) (vec : IntermediateVec) : option K2 :=
  match back vec with
  | Some kv =>
      let candidate := kv.1 in
      match maxKey with
      | None => Some candidate
      | Some m => if lt2 m candidate then Some candidate else Some m
      end
  | None => maxKey
  end.

Definition find_max (vecs : list IntermediateVec) : option K2 :=
  foldl find_max_step None vecs.

(** The inner [while] loop on one vector.  Every iteration pops one element,
    so [length vec] iterations always reach the exit of the loop. *)
Fixpoint collect_loop (n : nat) (maxKey : K2) (vec group : IntermediateVec) (state : Z)
  : IntermediateVec * IntermediateVec * Z :=
  match n with
  | O => (vec, group, state)
  | S n' =>
      match back vec with
      | Some kv =>
          if negb (lt2 kv.1 maxKey) && negb (lt2 maxKey kv.1)
          then collect_loop n' maxKey (pop_back vec) (group ++ [kv])
                 (JobStateManager.incrementProcessed state)
          else (vec, group, state)
      | None => (vec, group, state)
      end
  end.

(** The second [for] loop: drain the back of every vector into
    [currentGroup]. *)
Fixpoint collect_all (maxKey : K2) (vecs : list IntermediateVec)
    (group : IntermediateVec) (state : Z)
  : list IntermediateVec * IntermediateVec * Z :=
  match vecs with
  | [] => ([], group, state)
  | vec :: rest =>
      let '(vec', group', state') :=
        collect_loop (length vec) maxKey vec group state in
      let '(rest', group'', state'') := collect_all maxKey rest group' state' in
      (vec' :: rest', group'', state'')
  end.

(** The outer [while (true)] loop; [None] when the fuel runs out before the
    loop breaks. *)
Fixpoint shuffle_loop (fuel : nat) (c : JobContext) : option JobContext :=
  match fuel with
  | O => None
  | S fuel' =>
      match find_max (intermediateVecs c) with
      | None => Some c
      | Some maxKey =>
          let '(vecs', currentGroup, state') :=
            collect_all maxKey (intermediateVecs c) [] (stateManager c) in
          shuffle_loop fuel'
            (mkJobContext state' (inputVec c) (outputVec c) (joined c)
               vecs' (shuffledData c ++ [currentGroup])
               (wrap64 (shuffleCounter c + 1))
               (nextInputIndex c) (nextReduceIndex c))
      end
  end.

(** [totalPairs] is a [size_t]; [setTotal] takes a [uint32_t]. *)
Definition totalPairs (vecs : list IntermediateVec) : Z :=
  foldl (fun total vec => wrap64 (total + Z.of_nat (length vec))) 0 vecs.

Definition shufflePhase (fuel : nat) (c : JobContext) : option JobContext :=
  let total := totalPairs (intermediateVecs c) in
  shuffle_loop fuel
    (with_stateManager (JobStateManager.setTotal (wrap32 total)) c).

(** *** [reducePhase]

    A worker is about to fetch an index, is inside [client.reduce] with some
    [emit3] calls still to make, or has left the loop.  [emit3] appends one
    pair to the output vector under [outMutex], so each pending pair is
    appended in a step of its own. *)
Inductive ReducePc : Type :=
| ReduceFetch
| ReduceEmit (pending : list OutputPair)
| ReduceExit.

(** [emit3]. *)
Definition emit3 (c : JobContext) (kv : OutputPair) : JobContext :=
  with_outputVec (fun out => out ++ [kv]) c.

(** The state of the reduce phase: the job context, the workers, and the
    indices on which [client.reduce] has been called so far. *)
Record ReduceState : Type := mkReduceState {
  rs_context : JobContext;
  rs_pcs : list ReducePc;
  rs_calls : list Z
}.

Definition reducePhase_step (s : ReduceState) (tid : nat) : ReduceState :=
  let c := rs_context s in
  match rs_pcs s !! tid with
  | Some ReduceFetch =>
      let oldValue := nextReduceIndex c in
      let c1 := with_nextReduceIndex (fun _ => wrap32 (oldValue + 1)) c in
      if shuffleCounter c <=? oldValue
      then mkReduceState c1 (<[tid := ReduceExit]> (rs_pcs s)) (rs_calls s)
      else
        let group := default [] (shuffledData c !! Z.to_nat oldValue) in
        mkReduceState c1
          (<[tid := ReduceEmit (client_reduce group)]> (rs_pcs s))
          (rs_calls s ++ [oldValue])
  | Some (ReduceEmit (kv :: pending)) =>
      mkReduceState (emit3 c kv) (<[tid := ReduceEmit pending]> (rs_pcs s))
        (rs_calls s)
  | Some (ReduceEmit []) =>
      mkReduceState (with_stateManager JobStateManager.incrementProcessed c)
        (<[tid := ReduceFetch]> (rs_pcs s)) (rs_calls s)
  | _ => s
  end.

(** *** [threadFunc]

    The barrier separates the phases: the map steps of all workers come
    first, in the order [map_schedule] of worker ids; worker 0 then enters
    the shuffle stage, shuffles and publishes the reduce stage; the reduce
    steps follow in the order [reduce_schedule]. *)
Record Schedule : Type := mkSchedule {
  map_schedule : list nat;
  reduce_schedule : list nat
}.

Definition mapPhase_run (sched : list nat) (c : JobContext) (nThreads : nat)
  : JobContext * list MapPc :=
  foldl mapPhase_step (c, MapEntry :: replicate (nThreads - 1) MapLoop) sched.

Definition map_finished (pcs : list MapPc) : bool :=
  forallb (fun pc => match pc with MapExit => true | _ => false end) pcs.

(** [context->stateManager.setStage(SHUFFLE_STAGE)], thread 0 only. *)
Definition enterShuffle (c : JobContext) : JobContext :=
  with_stateManager (JobStateManager.setStage SHUFFLE_STAGE) c.

(** The [updateState] call that follows [shufflePhase]; the 64-bit counter
    is narrowed to the [uint32_t] parameter. *)
Definition enterReduce (c : JobContext) : JobContext :=
  with_stateManager
    (JobStateManager.updateState REDUCE_STAGE 0 (wrap32 (shuffleCounter c))) c.

(** Thread 0 between the two barriers. *)
Definition coordinator (fuel : nat) (c : JobContext) : option JobContext :=
  match shufflePhase fuel (enterShuffle c) with
  | Some c' => Some (enterReduce c')
  | None => None
  end.

Definition reducePhase_run (sched : list nat) (c : JobContext) (nThreads : nat)
  : ReduceState :=
  foldl reducePhase_step (mkReduceState c (replicate nThreads ReduceFetch) []) sched.

Definition reduce_finished (pcs : list ReducePc) : bool :=
  forallb (fun pc => match pc with ReduceExit => true | _ => false end) pcs.

(** The fuel handed to the shuffle loop: one iteration per pair and one to
    find every vector empty. *)
Definition shuffle_fuel (c : JobContext) : nat :=
  S (length (concat (intermediateVecs c))).

(** All workers of a job, from thread creation to the return of every
    [threadFunc]; [None] when the schedule stops before a barrier opens or
    before every worker has left its reduce loop. *)
Definition run_threads (sched : Schedule) (c : JobContext) : option JobContext :=
  let nThreads := length (joined c) in
  let '(c1, pcs) := mapPhase_run (map_schedule sched) c nThreads in
  if map_finished pcs then
    match coordinator (shuffle_fuel c1) c1 with
    | Some c2 =>
        let s := reducePhase_run (reduce_schedule sched) c2 nThreads in
        if reduce_finished (rs_pcs s) then Some (rs_context s) else None
    | None => None
    end
  else None.

End Framework.

(** ** The job-handle API of src/src/MapReduceFramework.cpp *)

(** [JobState] of include/MapReduceFramework.h.  The percentage is a
    [float] in the source; the model computes it on rationals, so the
    rounding of the single-precision division is left out. *)
Record JobState : Type := mkJobState {
  stage : stage_t;
  percentage : Q
}.

Definition MAX_PERCENTAGE : Q := 100%Q.

(** [JobHandle] is a [void*]: [nullptr], or the address of a job context
    on the heap. *)
Definition JobHandle : Type := option nat.

Section JobHandleApi.

Context {K1 V1 K2 V2 K3 V3 : Type}.
Variable lt2 : K2 -> K2 -> bool.
Variable client_map : K1 * V1 -> list (K2 * V2).
Variable client_reduce : list (K2 * V2) -> list (K3 * V3).
Variable std_sort : list (K2 * V2) -> list (K2 * V2).

Local Abbreviation Context_ := (@JobContext K1 V1 K2 V2 K3 V3).

(** [new JobContext(...)] puts the context at an unused address; the
    worker threads it starts run [threadFunc] on it. *)
Definition startMapReduceJob (inputVec : list (K1 * V1)) (outputVec : list (K3 * V3))
    (multiThreadLevel : nat) (heap : gmap nat Context_)
  : JobHandle * gmap nat Context_ :=
  match inputVec with
  | [] => (None, heap)
  | _ :: _ =>
      let context := newJobContext inputVec outputVec multiThreadLevel in
      let address := fresh (dom heap) in
      (Some address, <[address := context]> heap)
  end.

(** [getJobState]; [None] stands for the use of a dangling handle. *)
Definition getJobState (job : JobHandle) (heap : gmap nat Context_)
  : option JobState :=
  match job with
  | None => Some (mkJobState REDUCE_STAGE MAX_PERCENTAGE)
  | Some address =>
      match heap !! address with
      | Some context =>
          let '(stage, numProcessed, numTotal) :=
            JobStateManager.getState (stateManager context) in
          Some (mkJobState stage
                  (if numTotal =? 0 then MAX_PERCENTAGE
                   else Qmin (inject_Z numProcessed / inject_Z numTotal * MAX_PERCENTAGE)
                          MAX_PERCENTAGE))
      | None => None
      end
  end.

(** One iteration of the loop of [waitForJob]. *)
Definition join_thread (context : Context_) (i : nat) : Context_ :=
  match joined context !! i with
  | Some false => with_joined (fun flags => <[i := true]> flags) context
  | _ => context
  end.

(** [waitForJob].  A [join] returns once the worker has returned from
    [threadFunc]; [sched] is the order in which the workers of the job took
    their steps.  When every flag of [joined] is already set the loop joins
    nothing. *)
Definition waitForJob (sched : Schedule) (job : JobHandle) (heap : gmap nat Context_)
  : option (gmap nat Context_) :=
  match job with
  | None => Some heap
  | Some address =>
      match heap !! address with
      | Some context =>
          if forallb (fun flag : bool => flag) (joined context) then Some heap
          else
            match run_threads lt2 client_map client_reduce std_sort sched context with
            | Some context' =>
                Some (<[address :=
                         foldl join_thread context' (seq 0 (length (joined context')))]>
                        heap)
            | None => None
            end
      | None => None
      end
  end.

(** [closeJobHandle]. *)
Definition closeJobHandle (sched : Schedule) (job : JobHandle) (heap : gmap nat Context_)
  : option (gmap nat Context_) :=
  match job with
  | None => Some heap
  | Some address =>
      match waitForJob sched job heap with
      | Some heap' => Some (delete address heap')
      | None => None
      end
  end.

End JobHandleApi.

(** ** Reference notions used in the statements *)

Section Notions.

Context {K2 V2 : Type}.
Variable lt2 : K2 -> K2 -> bool.

(** The number of equivalence classes met in a list of keys: a key is
    counted when no equivalent key follows it. *)
Fixpoint num_classes (keys : list K2) : nat :=
  match keys with
  | [] => O
  | k :: rest =>
      if existsb (equivalent lt2 k) rest then num_classes rest
      else S (num_classes rest)
  end.

(** [operator<] is a strict weak order (the requirement of [std::sort] on
    its comparator): irreflexive, transitive, and with a transitive
    incomparability. *)
Record StrictWeakOrder : Prop := mkStrictWeakOrder {
  swo_irrefl : forall a, lt2 a a = false;
  swo_trans : forall a b c, lt2 a b = true -> lt2 b c = true -> lt2 a c = true;
  swo_equiv_trans : forall a b c,
    equivalent lt2 a b = true -> equivalent lt2 b c = true -> equivalent lt2 a c = true
}.

(** Groups in strictly descending key order: every key of a group is
    greater than every key of a group built later. *)
Definition descending_groups (groups : list (list (K2 * V2))) : Prop :=
  forall (i j : nat) (g g' : list (K2 * V2)) (a b : K2 * V2),
    (i < j)%nat -> groups !! i = Some g -> groups !! j = Some g' ->
    a ∈ g -> b ∈ g' -> lt2 b.1 a.1 = true.

(** No two keys of the group can be told apart by [operator<]. *)
Definition indistinguishable (g : list (K2 * V2)) : Prop :=
  forall a b : K2 * V2, a ∈ g -> b ∈ g -> lt2 a.1 b.1 = false /\ lt2 b.1 a.1 = false.

End Notions.

(** ** Notions used to describe one run of the shuffle *)

Section ShuffleNotions.

Context {K1 V1 K2 V2 K3 V3 : Type}.
Variable lt2 : K2 -> K2 -> bool.

(** [a] may stand before [b] in a sorted vector. *)
Definition precedes (a b : K2 * V2) : Prop := lt2 b.1 a.1 = false.

(** [vec] was drained into [vec'] for the key [m]: the pairs [moved] were
    popped off its back one after the other, all of them are equivalent to
    [m], and the pair left at the back, if any, is not. *)
Definition drained (m : K2) (vec vec' moved : list (K2 * V2)) : Prop :=
  vec = vec' ++ reverse moved
  /\ Forall (fun kv => equivalent lt2 kv.1 m = true) moved
  /\ (forall kv, back vec' = Some kv -> equivalent lt2 kv.1 m = false).

(** A group of the shuffle: not empty, and made of pairs whose keys are all
    equivalent to one key. *)
Definition one_class (g : list (K2 * V2)) : Prop :=
  g <> [] /\ exists m, Forall (fun kv => equivalent lt2 kv.1 m = true) g.

(** What the loop of [shufflePhase] has done when it breaks: [gs] are the
    groups it appended. *)
Definition shuffled (c c' : @JobContext K1 V1 K2 V2 K3 V3)
    (gs : list (list (K2 * V2))) : Prop :=
  shuffledData c' = shuffledData c ++ gs
  /\ intermediateVecs c' = replicate (length (intermediateVecs c)) []
  /\ concat gs ≡ₚ concat (intermediateVecs c)
  /\ Forall one_class gs
  /\ shuffleCounter c' = Nat.iter (length gs) (fun n => wrap64 (n + 1)) (shuffleCounter c)
  /\ inputVec c' = inputVec c
  /\ outputVec c' = outputVec c
  /\ joined c' = joined c
  /\ nextInputIndex c' = nextInputIndex c
  /\ nextReduceIndex c' = nextReduceIndex c
  /\ (Forall (StronglySorted precedes) (intermediateVecs c) -> descending_groups lt2 gs).

End ShuffleNotions.

(** ** Bookkeeping on the workers of a phase *)

Section PhaseNotions.

Context {K1 V1 K2 V2 K3 V3 : Type}.
Variable client_reduce : list (K2 * V2) -> list (K3 * V3).

(** The [emit3] calls a worker still has to make. *)
Definition pending_of (pc : @ReducePc K3 V3) : list (K3 * V3) :=
  match pc with
  | ReduceEmit pending => pending
  | _ => []
  end.

Definition all_pending (pcs : list (@ReducePc K3 V3)) : list (K3 * V3) :=
  concat (pending_of <$> pcs).

Definition reduce_exited (pc : @ReducePc K3 V3) : nat :=
  match pc with
  | ReduceExit => 1
  | _ => 0
  end.

(** Steps a worker needs to come back to the head of its reduce loop. *)
Definition reduce_weight (pc : @ReducePc K3 V3) : nat :=
  match pc with
  | ReduceEmit pending => S (length pending)
  | _ => 0
  end.

(** Steps needed for the groups that no worker has fetched yet. *)
Definition remaining_cost (groups : list (list (K2 * V2))) : nat :=
  sum_list ((fun g => S (S (length (client_reduce g)))) <$> groups).

(** The state of the reduce phase after [k] fetches of [nextReduceIndex],
    for the job context [c0] at the second barrier and [nThreads] workers. *)
Definition reduce_inv (c0 : @JobContext K1 V1 K2 V2 K3 V3) (nThreads : nat)
    (k : nat) (s : @ReduceState K1 V1 K2 V2 K3 V3) : Prop :=
  let count := length (shuffledData c0) in
  let exited := sum_list (reduce_exited <$> rs_pcs s) in
  nextReduceIndex (rs_context s) = wrap32 (Z.of_nat k)
  /\ (if decide (exited = O) then (k <= count)%nat else k = (count + exited)%nat)
  /\ rs_calls s = Z.of_nat <$> seq 0 (k `min` count)
  /\ outputVec (rs_context s) ++ all_pending (rs_pcs s)
     ≡ₚ outputVec c0
        ++ concat (client_reduce <$> take (k `min` count) (shuffledData c0))
  /\ shuffledData (rs_context s) = shuffledData c0
  /\ shuffleCounter (rs_context s) = Z.of_nat count
  /\ length (rs_pcs s) = nThreads.

(** The number of steps the workers still have to take. *)
Definition reduce_measure (c0 : @JobContext K1 V1 K2 V2 K3 V3) (nThreads : nat)
    (k : nat) (s : @ReduceState K1 V1 K2 V2 K3 V3) : nat :=
  (remaining_cost (drop (k `min` length (shuffledData c0)) (shuffledData c0))
   + (nThreads - sum_list (reduce_exited <$> rs_pcs s))
   + sum_list (reduce_weight <$> rs_pcs s))%nat.

(** With [2^32] groups or more, a fetched index is always in range. *)
Definition never_out_of_range (s : @ReduceState K1 V1 K2 V2 K3 V3) : Prop :=
  2 ^ 32 <= shuffleCounter (rs_context s)
  /\ 0 <= nextReduceIndex (rs_context s) < 2 ^ 32
  /\ reduce_finished (rs_pcs s) = false.

Definition map_exited (pc : MapPc) : nat :=
  match pc with
  | MapExit => 1
  | _ => 0
  end.

Definition map_at_entry (pc : MapPc) : nat :=
  match pc with
  | MapEntry => 1
  | _ => 0
  end.

Variable lt2 : K2 -> K2 -> bool.
Variable client_map : K1 * V1 -> list (K2 * V2).

(** The state of the map phase after [k] fetches of [nextInputIndex], for
    the job context [c0] at thread creation and [nThreads] workers. *)
Definition map_inv (c0 : @JobContext K1 V1 K2 V2 K3 V3) (nThreads : nat)
    (k : nat) (s : @JobContext K1 V1 K2 V2 K3 V3 * list MapPc) : Prop :=
  let size := length (inputVec c0) in
  let exited := sum_list (map_exited <$> s.2) in
  nextInputIndex s.1 = wrap32 (Z.of_nat k)
  /\ (if decide (exited = O) then (k <= size)%nat else k = (size + exited)%nat)
  /\ concat (intermediateVecs s.1)
     ≡ₚ concat (client_map <$> take (k `min` size) (inputVec c0))
  /\ (forall tid vec, s.2 !! tid = Some MapExit ->
        intermediateVecs s.1 !! tid = Some vec -> is_sorted lt2 vec = true)
  /\ length (intermediateVecs s.1) = nThreads
  /\ length s.2 = nThreads
  /\ inputVec s.1 = inputVec c0
  /\ outputVec s.1 = outputVec c0
  /\ joined s.1 = joined c0
  /\ shuffledData s.1 = shuffledData c0
  /\ shuffleCounter s.1 = shuffleCounter c0
  /\ nextReduceIndex s.1 = nextReduceIndex c0.

Definition map_measure (c0 : @JobContext K1 V1 K2 V2 K3 V3) (nThreads : nat)
    (k : nat) (s : @JobContext K1 V1 K2 V2 K3 V3 * list MapPc) : nat :=
  ((length (inputVec c0) - k `min` length (inputVec c0))
   + (nThreads - sum_list (map_exited <$> s.2))
   + sum_list (map_at_entry <$> s.2))%nat.

(** What the framework relies on from [std::sort]. *)
Definition sorts (std_sort : list (K2 * V2) -> list (K2 * V2)) : Prop :=
  forall vec, std_sort vec ≡ₚ vec /\ is_sorted lt2 (std_sort vec) = true.

(** A reduce function whose emitted pairs do not depend, as a multiset, on
    the order of the pairs inside the group it is given. *)
Definition order_insensitive : Prop :=
  forall g g' : list (K2 * V2),
    one_class lt2 g -> g ≡ₚ g' -> client_reduce g ≡ₚ client_reduce g'.

End PhaseNotions.

(** ** A client used to instantiate the results *)

(** Insertion sort on intermediate pairs with integer keys, as one possible
    behaviour of [std::sort]. *)
Fixpoint insert_pair {V : Type} (kv : Z * V) (vec : list (Z * V)) : list (Z * V) :=
  match vec with
  | [] => [kv]
  | kv' :: rest =>
      if kv.1 <? kv'.1 then kv :: kv' :: rest else kv' :: insert_pair kv rest
  end.

Fixpoint insertion_sort {V : Type} (vec : list (Z * V)) : list (Z * V) :=
  match vec with
  | [] => []
  | kv :: rest => insert_pair kv (insertion_sort rest)
  end.

(** A map that emits its input key as a value under the single key [0], and
    a reduce that emits the first pair of its group. *)
Definition tag_map (p : Z * unit) : list (Z * Z) := [(0, p.1)].
Definition first_reduce (g : list (Z * Z)) : list (Z * Z) := take 1 g.

(** A reduce that emits the sum of the values of its group under the key of
    the group. *)
Definition sum_reduce (g : list (Z * Z)) : list (Z * Z) :=
  match g with
  | [] => []
  | kv :: _ => [(kv.1, foldr Z.add 0 g.*2)]
  end.

(** A map that emits the digits of its input key, counted once each. *)
Definition digits_map (p : Z * unit) : list (Z * Z) :=
  [(p.1 / 10, 1); (p.1 mod 10, 1)].

(** ** Job contexts used to instantiate the results *)

(** Two workers after their map and sort phases: keys 1 and 3 were emitted
    by both, key 2 by the second worker only. *)
Definition example_sorted_context : @JobContext unit unit Z Z Z Z :=
  mkJobContext (JobStateManager.setStage SHUFFLE_STAGE (JobStateManager.init 3))
    [(tt, tt); (tt, tt); (tt, tt)] [] [false; false]
    [[(1, 10); (3, 30)]; [(1, 11); (2, 20); (3, 31)]]
    [] 0 5 0.

(** One worker whose sorted vector holds the [2^32] keys [0 .. 2^32 - 1]. *)
Definition wide_vector : list (Z * unit) := (fun k => (k, tt)) <$> seqZ 0 (2 ^ 32).

Definition wide_context : @JobContext unit unit Z unit Z unit :=
  mkJobContext (JobStateManager.setStage SHUFFLE_STAGE (JobStateManager.init 1))
    [(tt, tt)] [] [false] [wide_vector] [] 0 2 0.

(** One worker that has mapped the single input pair [(12, tt)] with
    [digits_map] and has left the map loop. *)
Definition example_mapped_context : @JobContext Z unit Z Z Z Z :=
  (mapPhase_run digits_map insertion_sort [0; 0; 0]%nat
     (newJobContext [(12, tt)] [] 1) 1).1.

(** ** The progress word as thread 0 enters the shuffle stage *)

Section ShuffleEntry.

Context {K1 V1 K2 V2 K3 V3 : Type}.

(** The values stored in the progress word, one after the other, from the
    first barrier to the first iteration of the shuffle loop: by
    [setStage(SHUFFLE_STAGE)] in [threadFunc], then by
    [setTotal(totalPairs)] in [shufflePhase]. *)
Definition shuffle_entry_words (c : @JobContext K1 V1 K2 V2 K3 V3) : list Z :=
  let c1 := enterShuffle c in
  let total := totalPairs (intermediateVecs c1) in
  [stateManager c1;
   JobStateManager.setTotal (wrap32 total) (stateManager c1)].

End ShuffleEntry.

(** ** src/src/Barrier.cpp *)

Module Barrier.

(** The data members of [class Barrier]; the mutex and the condition
    variable carry no data.  The members are [int]s: the model does not go
    beyond their range, where the C++ arithmetic is undefined. *)
Record t : Type := mk {
  count : Z;
  generation : Z;
  numThreads : Z
}.

(** The constructor. *)
Definition new (numThreads : Z) : t := mk 0 0 numThreads.

(** One call of [Barrier::barrier], from taking the lock to the point where
    the caller either starts to wait or returns; the lock makes this one
    atomic step.  The result is the barrier after the step and, when the
    caller waits, the generation [gen] it read. *)
Definition barrier (b : t) : t * option Z :=
  let gen := generation b in
  let count' := count b + 1 in
  if count' <? numThreads b
  then (mk count' (generation b) (numThreads b), Some gen)
  else (mk 0 (generation b + 1) (numThreads b), None).

(** The predicate of [cv.wait]: a caller that read [gen] may return once
    [gen != generation]. *)
Definition released (b : t) (gen : Z) : bool := negb (gen =? generation b).

(** [n] calls of [barrier], one after the other, with what each caller
    does. *)
Fixpoint arrivals (n : nat) (b : t) : t * list (option Z) :=
  match n with
  | O => (b, [])
  | S n' =>
      let '(b1, waits) := arrivals n' b in
      let '(b2, wait) := barrier b1 in
      (b2, waits ++ [wait])
  end.

End Barrier.

(** ** Bookkeeping on the progress word during the reduce phase *)

Section ReduceProgress.

Context {K1 V1 K2 V2 K3 V3 : Type}.

(** Workers that are inside a call of [client.reduce]. *)
Definition reduce_in_call (pc : @ReducePc K3 V3) : nat :=
  match pc with
  | ReduceEmit _ => 1
  | _ => 0
  end.

(** The calls of [client.reduce] that have returned. *)
Definition reduce_returned (s : @ReduceState K1 V1 K2 V2 K3 V3) : nat :=
  (length (rs_calls s) - sum_list (reduce_in_call <$> rs_pcs s))%nat.

End ReduceProgress.

(** ** A job context at the second barrier *)

(** Two workers, three input pairs, and the three groups that the shuffle
    has built from [example_sorted_context]. *)
Definition example_shuffled_context : @JobContext unit unit Z Z Z Z :=
  mkJobContext (JobStateManager.updateState REDUCE_STAGE 0 3 0)
    [(tt, tt); (tt, tt); (tt, tt)] [] [false; false] [[]; []]
    [[(3, 31); (3, 30)]; [(2, 20)]; [(1, 11); (1, 10)]] 3 5 0.
(** ** example/SampleClient.cpp *)

From Stdlib Require String Ascii.

Module CounterClient.

(** The content of a [VString]: its characters, each as the value of
    [static_cast<unsigned char>(c)]. *)
Definition bytes (content : String.string) : list Z :=
  (fun a => Z.of_N (Ascii.N_of_ascii a)) <$> String.list_ascii_of_string content.

(** [counts[i]] after the first loop of [CounterClient::map].  The counters
    are [int]s: the model is exact for contents of fewer than [2^31]
    characters. *)
Definition counts (content : String.string) (i : Z) : Z :=
  Z.of_nat (length (filter (fun b => b = i) (bytes content))).

(** [static_cast<signed char>(i)], kept in the [char] member of a [KChar];
    [char] is a signed type here, as on x86-64. *)
Definition to_char (i : Z) : Z := if i <? 128 then i else i - 256.

(** [KChar::operator<]. *)
Definition KChar_lt (a b : Z) : bool := a <? b.

(** [CounterClient::map]: the second loop, [i = 0 .. 255], with its calls of
    [emit2].  The key of the input pair is a null pointer and is not used. *)
Definition map (p : unit * String.string) : list (Z * Z) :=
  concat ((fun i => if counts p.2 i =? 0 then [] else [(to_char i, counts p.2 i)])
            <$> seqZ 0 256).

(** [CounterClient::reduce]: the character of the first pair and the sum of
    the counts.  [pairs->at(0)] throws on an empty group, which the
    framework never passes; the model emits nothing then. *)
Definition reduce (pairs : list (Z * Z)) : list (Z * Z) :=
  match pairs with
  | [] => []
  | first :: _ => [(first.1, foldl (fun count kv => count + kv.2) 0 pairs)]
  end.

(** The input vector of [main]; the keys are null pointers. *)
Import String.

Definition FIRST_STRING : string := "This string is full of characters"%string.
Definition SECOND_STRING : string := "Multithreading is awesome"%string.
Definition THIRD_STRING : string := "race conditions are bad"%string.

Definition inputVec : list (unit * string) :=
  [(tt, FIRST_STRING); (tt, SECOND_STRING); (tt, THIRD_STRING)].

End CounterClient.

(** *** Reference notions for the sample client *)

(** The number of occurrences of the character [c] in the strings of an
    input vector. *)
Definition occurrences (input : list (unit * String.string)) (c : Z) : Z :=
  foldr Z.add 0 ((fun p => CounterClient.counts p.2 (c mod 256)) <$> input).

(** One pair for every character that occurs, with the number of its
    occurrences. *)
Definition character_counts (input : list (unit * String.string)) : list (Z * Z) :=
  concat ((fun c => if occurrences input c =? 0 then [] else [(c, occurrences input c)])
            <$> seqZ (-128) 256).

(** The pairs of [l] cut into one group per key of [keys] that occurs. *)
Definition groups_by_key (keys : list Z) (l : list (Z * Z)) : list (list (Z * Z)) :=
  concat ((fun c => match filter (fun kv : Z * Z => kv.1 = c) l with
                    | [] => []
                    | g => [g]
                    end) <$> keys).
(** * Part II: properties of the progress word *)

Section ProgressWord.
Import JobStateManager.

(** *** Arithmetic reading of the packing *)

Lemma land_max31 (x : Z) : Z.land x MAX_31_BITS = x mod 2 ^ 31.
Proof.
  unfold MAX_31_BITS. change 0x7FFFFFFF with (Z.ones 31).
  apply Z.land_ones. lia.
Qed.

Lemma land_mask2 (x : Z) : Z.land x STAGE_MASK = x mod 2 ^ 2.
Proof.
  unfold STAGE_MASK. change 0x3 with (Z.ones 2).
  apply Z.land_ones. lia.
Qed.

Lemma stage_to_Z_range (s : stage_t) : 0 <= stage_to_Z s < 4.
Proof. destruct s; simpl; lia. Qed.

Lemma stage_of_to_Z (s : stage_t) : stage_of_Z (stage_to_Z s) = s.
Proof. by destruct s. Qed.

(** Disjoint fields: the bitwise or of the three shifted fields is their sum. *)
Lemma lor_fields (s p t : Z) :
  0 <= s < 4 -> 0 <= p < 2 ^ 31 -> 0 <= t < 2 ^ 31 ->
  Z.lor (Z.lor (Z.shiftl s 62) (Z.shiftl p 31)) t = s * 2 ^ 62 + p * 2 ^ 31 + t.
Proof.
  intros Hs Hp Ht.
  rewrite !Z.shiftl_mul_pow2 by lia.
  assert (Hlow : Z.land (s * 2 ^ 62 + p * 2 ^ 31) t = 0).
  { apply Z.bits_inj'. intros n Hn.
    rewrite Z.land_spec, Z.bits_0.
    destruct (Z_lt_ge_dec n 31) as [Hlt | Hge].
    - replace (s * 2 ^ 62 + p * 2 ^ 31) with ((s * 2 ^ 31 + p) * 2 ^ 31) by lia.
      rewrite Z.mul_pow2_bits_low by lia. done.
    - rewrite (Z.bits_above_log2 t n); [by rewrite andb_false_r | lia |].
      destruct (Z.eq_dec t 0) as [-> | Hne]; [simpl; lia |].
      apply Z.log2_lt_pow2; [lia |].
      eapply Z.lt_le_trans; [apply Ht |]. apply Z.pow_le_mono_r; lia. }
  assert (Hmid : Z.land (s * 2 ^ 62) (p * 2 ^ 31) = 0).
  { apply Z.bits_inj'. intros n Hn.
    rewrite Z.land_spec, Z.bits_0.
    destruct (Z_lt_ge_dec n 62) as [Hlt | Hge].
    - rewrite Z.mul_pow2_bits_low by lia. done.
    - rewrite (Z.bits_above_log2 (p * 2 ^ 31) n); [by rewrite andb_false_r | lia |].
      destruct (Z.eq_dec p 0) as [-> | Hne]; [simpl; lia |].
      apply Z.log2_lt_pow2; [lia |].
      assert (p * 2 ^ 31 < 2 ^ 31 * 2 ^ 31) by nia.
      eapply Z.lt_le_trans; [eassumption |].
      rewrite <- Z.pow_add_r by lia. apply Z.pow_le_mono_r; lia. }
  assert (Hsum : Z.lor (s * 2 ^ 62) (p * 2 ^ 31) = s * 2 ^ 62 + p * 2 ^ 31).
  { rewrite <- Z.lxor_lor by exact Hmid. symmetry. by apply Z.add_nocarry_lxor. }
  rewrite Hsum.
  rewrite <- Z.lxor_lor by exact Hlow. symmetry. by apply Z.add_nocarry_lxor.
Qed.

(** The word built by [encodeState], as a number. *)
Lemma encodeState_value (stage : stage_t) (processed total : Z) :
  encodeState stage processed total
  = stage_to_Z stage * 2 ^ 62 + (processed mod 2 ^ 31) * 2 ^ 31 + total mod 2 ^ 31.
Proof.
  unfold encodeState, wrap64, STAGE_SHIFT, PROCESSED_SHIFT.
  rewrite !land_max31, land_mask2.
  pose proof (stage_to_Z_range stage) as Hs.
  pose proof (Z.mod_pos_bound processed (2 ^ 31) ltac:(lia)) as Hp.
  pose proof (Z.mod_pos_bound total (2 ^ 31) ltac:(lia)) as Ht.
  change (2 ^ 2) with 4. rewrite (Z.mod_small (stage_to_Z stage) 4) by lia.
  assert (Hhi : (Z.shiftl (stage_to_Z stage) 62) mod 2 ^ 64
                = Z.shiftl (stage_to_Z stage) 62).
  { rewrite Z.shiftl_mul_pow2 by lia. apply Z.mod_small. lia. }
  assert (Hmid : (Z.shiftl (processed mod 2 ^ 31) 31) mod 2 ^ 64
                 = Z.shiftl (processed mod 2 ^ 31) 31).
  { rewrite Z.shiftl_mul_pow2 by lia. apply Z.mod_small. lia. }
  rewrite Hhi, Hmid.
  by apply lor_fields.
Qed.

Lemma encodeState_range (stage : stage_t) (processed total : Z) :
  0 <= encodeState stage processed total < 2 ^ 64.
Proof.
  rewrite encodeState_value.
  pose proof (stage_to_Z_range stage).
  pose proof (Z.mod_pos_bound processed (2 ^ 31) ltac:(lia)).
  pose proof (Z.mod_pos_bound total (2 ^ 31) ltac:(lia)).
  lia.
Qed.

Lemma decodeTotal_value (v : Z) : decodeTotal v = v mod 2 ^ 31.
Proof.
  unfold decodeTotal, wrap32. rewrite land_max31.
  pose proof (Z.mod_pos_bound v (2 ^ 31) ltac:(lia)).
  apply Z.mod_small. lia.
Qed.

Lemma decodeProcessed_value (v : Z) : decodeProcessed v = (v / 2 ^ 31) mod 2 ^ 31.
Proof.
  unfold decodeProcessed, wrap32, PROCESSED_SHIFT.
  rewrite land_max31, Z.shiftr_div_pow2 by lia.
  pose proof (Z.mod_pos_bound (v / 2 ^ 31) (2 ^ 31) ltac:(lia)).
  apply Z.mod_small. lia.
Qed.

Lemma decodeStage_value (v : Z) : decodeStage v = stage_of_Z ((v / 2 ^ 62) mod 4).
Proof.
  unfold decodeStage, STAGE_SHIFT.
  by rewrite land_mask2, Z.shiftr_div_pow2 by lia.
Qed.

Lemma decodeTotal_encodeState (s : stage_t) (p t : Z) :
  decodeTotal (encodeState s p t) = t mod 2 ^ 31.
Proof.
  rewrite decodeTotal_value, encodeState_value.
  pose proof (Z.mod_pos_bound t (2 ^ 31) ltac:(lia)).
  replace (stage_to_Z s * 2 ^ 62 + p mod 2 ^ 31 * 2 ^ 31 + t mod 2 ^ 31)
    with (t mod 2 ^ 31 + (stage_to_Z s * 2 ^ 31 + p mod 2 ^ 31) * 2 ^ 31) by lia.
  rewrite Z.mod_add by lia. apply Z.mod_small. lia.
Qed.

Lemma decodeProcessed_encodeState (s : stage_t) (p t : Z) :
  decodeProcessed (encodeState s p t) = p mod 2 ^ 31.
Proof.
  rewrite decodeProcessed_value, encodeState_value.
  pose proof (Z.mod_pos_bound t (2 ^ 31) ltac:(lia)).
  pose proof (Z.mod_pos_bound p (2 ^ 31) ltac:(lia)).
  replace (stage_to_Z s * 2 ^ 62 + p mod 2 ^ 31 * 2 ^ 31 + t mod 2 ^ 31)
    with (t mod 2 ^ 31 + (stage_to_Z s * 2 ^ 31 + p mod 2 ^ 31) * 2 ^ 31) by lia.
  rewrite Z.div_add by lia.
  rewrite (Z.div_small (t mod 2 ^ 31)) by lia.
  replace (0 + (stage_to_Z s * 2 ^ 31 + p mod 2 ^ 31))
    with (p mod 2 ^ 31 + stage_to_Z s * 2 ^ 31) by lia.
  rewrite Z.mod_add by lia. apply Z.mod_small. lia.
Qed.

Lemma decodeStage_encodeState (s : stage_t) (p t : Z) :
  decodeStage (encodeState s p t) = s.
Proof.
  rewrite decodeStage_value, encodeState_value.
  pose proof (Z.mod_pos_bound t (2 ^ 31) ltac:(lia)).
  pose proof (Z.mod_pos_bound p (2 ^ 31) ltac:(lia)).
  pose proof (stage_to_Z_range s).
  replace (stage_to_Z s * 2 ^ 62 + p mod 2 ^ 31 * 2 ^ 31 + t mod 2 ^ 31)
    with ((p mod 2 ^ 31 * 2 ^ 31 + t mod 2 ^ 31) + stage_to_Z s * 2 ^ 62) by lia.
  rewrite Z.div_add by lia.
  rewrite (Z.div_small (p mod 2 ^ 31 * 2 ^ 31 + t mod 2 ^ 31)) by lia.
  rewrite Z.add_0_l, Z.mod_small by lia.
  apply stage_of_to_Z.
Qed.

Lemma decodeProcessed_range (v : Z) : 0 <= decodeProcessed v <= 2 ^ 31 - 1.
Proof.
  rewrite decodeProcessed_value.
  pose proof (Z.mod_pos_bound (v / 2 ^ 31) (2 ^ 31) ltac:(lia)). lia.
Qed.

Lemma decodeTotal_range (v : Z) : 0 <= decodeTotal v <= 2 ^ 31 - 1.
Proof.
  rewrite decodeTotal_value.
  pose proof (Z.mod_pos_bound v (2 ^ 31) ltac:(lia)). lia.
Qed.

Lemma getState_encodeState (s : stage_t) (p t : Z) :
  getState (encodeState s p t) = (s, p mod 2 ^ 31, t mod 2 ^ 31).
Proof.
  unfold getState.
  by rewrite decodeStage_encodeState, decodeProcessed_encodeState,
    decodeTotal_encodeState.
Qed.

Lemma getState_incrementProcessed (w : Z) :
  getState (incrementProcessed w)
  = (decodeStage w, (decodeProcessed w + 1) mod 2 ^ 31, decodeTotal w).
Proof.
  unfold incrementProcessed. rewrite getState_encodeState.
  pose proof (decodeProcessed_range w) as Hp.
  pose proof (decodeTotal_range w) as Ht.
  unfold wrap32.
  rewrite (Z.mod_small (decodeProcessed w + 1) (2 ^ 32)) by lia.
  by rewrite (Z.mod_small (decodeTotal w)) by lia.
Qed.

Lemma getState_setStage (s : stage_t) (w : Z) :
  getState (setStage s w) = (s, 0, decodeTotal w).
Proof.
  unfold setStage. rewrite getState_encodeState.
  pose proof (decodeTotal_range w).
  by rewrite (Z.mod_small (decodeTotal w)) by lia.
Qed.

Lemma getState_setTotal (t : Z) (w : Z) :
  getState (setTotal t w) = (decodeStage w, 0, t mod 2 ^ 31).
Proof. unfold setTotal. by rewrite getState_encodeState. Qed.

(** C6.  For every stage [s] and all [p], [t] that fit in 31 bits, decoding
    the word built by [encodeState s p t] gives back [s], [p] and [t]; the
    triple returned by [getState] from one load of that word is [(s, p, t)]. *)
Theorem encode_decode_roundtrip (s : stage_t) (p t : Z) :
  0 <= p <= 2 ^ 31 - 1 ->
  0 <= t <= 2 ^ 31 - 1 ->
  decodeStage (encodeState s p t) = s
  /\ decodeProcessed (encodeState s p t) = p
  /\ decodeTotal (encodeState s p t) = t
  /\ getState (encodeState s p t) = (s, p, t).
Proof.
  intros Hp Ht.
  pose proof (getState_encodeState s p t) as Hget.
  rewrite (Z.mod_small p), (Z.mod_small t) in Hget by lia.
  unfold getState in Hget. injection Hget as Hs Hp' Ht'.
  repeat split; try assumption.
  unfold getState. by rewrite Hs, Hp', Ht'.
Qed.

Lemma encode_decode_roundtrip_witness :
  getState (encodeState SHUFFLE_STAGE 5 (2 ^ 31 - 1)) = (SHUFFLE_STAGE, 5, 2 ^ 31 - 1).
Proof.
  apply (encode_decode_roundtrip SHUFFLE_STAGE 5 (2 ^ 31 - 1)); lia.
Defined.

(** C7.  One call of [incrementProcessed] takes the decoded processed count
    [p] to [(p + 1) mod 2^31], and after any number of calls, from any
    word, the decoded processed count is at most [2^31 - 1]. *)
Theorem incrementProcessed_stays_in_31_bits (w : Z) :
  decodeProcessed (incrementProcessed w) = (decodeProcessed w + 1) mod 2 ^ 31
  /\ forall n : nat,
       0 <= decodeProcessed (Nat.iter n incrementProcessed w) <= 2 ^ 31 - 1.
Proof.
  split.
  - pose proof (getState_incrementProcessed w) as Hget.
    unfold getState in Hget. by injection Hget.
  - intros n. apply decodeProcessed_range.
Qed.

(** C10.  [incrementProcessed] leaves the decoded stage and the decoded
    total of the progress word as they were. *)
Theorem incrementProcessed_frame (w : Z) :
  decodeStage (incrementProcessed w) = decodeStage w
  /\ decodeTotal (incrementProcessed w) = decodeTotal w.
Proof.
  pose proof (getState_incrementProcessed w) as Hget.
  unfold getState in Hget. by injection Hget.
Qed.

End ProgressWord.

(** * Part III: the shuffle *)

Section OrderFacts.

Context {K2 : Type}.
Variable lt2 : K2 -> K2 -> bool.
Hypothesis Hswo : StrictWeakOrder lt2.

Local Abbreviation eqv := (equivalent lt2).

Lemma equivalent_spec (a b : K2) :
  eqv a b = true <-> lt2 a b = false /\ lt2 b a = false.
Proof.
  unfold equivalent. rewrite andb_true_iff, !negb_true_iff. tauto.
Qed.

Lemma equivalent_refl (a : K2) : eqv a a = true.
Proof. apply equivalent_spec. split; apply (swo_irrefl lt2 Hswo). Qed.

Lemma equivalent_sym (a b : K2) : eqv a b = eqv b a.
Proof. unfold equivalent. apply andb_comm. Qed.

Lemma lt2_asym (a b : K2) : lt2 a b = true -> lt2 b a = false.
Proof.
  intros Hab. destruct (lt2 b a) eqn:Hba; [| done].
  pose proof (swo_trans lt2 Hswo a b a Hab Hba) as Haa.
  rewrite (swo_irrefl lt2 Hswo) in Haa. done.
Qed.

(** Transitivity of "not less than". *)
Lemma not_lt2_trans (a b c : K2) :
  lt2 a b = false -> lt2 b c = false -> lt2 a c = false.
Proof.
  intros Hab Hbc. destruct (lt2 a c) eqn:Hac; [| done].
  destruct (lt2 b a) eqn:Hba.
  { pose proof (swo_trans lt2 Hswo b a c Hba Hac). congruence. }
  destruct (lt2 c b) eqn:Hcb.
  { pose proof (swo_trans lt2 Hswo a c b Hac Hcb). congruence. }
  assert (Heq : eqv a c = true).
  { apply (swo_equiv_trans lt2 Hswo a b c); by apply equivalent_spec. }
  apply equivalent_spec in Heq. destruct Heq. congruence.
Qed.

Lemma lt2_not_lt2_trans (a b c : K2) :
  lt2 a b = true -> lt2 c b = false -> lt2 a c = true.
Proof.
  intros Hab Hcb. destruct (lt2 a c) eqn:Hac; [done |].
  pose proof (not_lt2_trans a c b Hac Hcb). congruence.
Qed.

Lemma not_lt2_lt2_trans (a b c : K2) :
  lt2 b a = false -> lt2 b c = true -> lt2 a c = true.
Proof.
  intros Hba Hbc. destruct (lt2 a c) eqn:Hac; [done |].
  pose proof (not_lt2_trans b a c Hba Hac). congruence.
Qed.

Lemma lt2_equivalent_r (a b c : K2) :
  lt2 a b = true -> eqv b c = true -> lt2 a c = true.
Proof.
  intros Hab Hbc. apply equivalent_spec in Hbc as [_ Hcb].
  by apply (lt2_not_lt2_trans a b c).
Qed.

Lemma lt2_equivalent_l (a b c : K2) :
  eqv a b = true -> lt2 b c = true -> lt2 a c = true.
Proof.
  intros Hab Hbc. apply equivalent_spec in Hab as [_ Hba].
  by apply (not_lt2_lt2_trans a b c).
Qed.

Lemma lt2_not_equivalent (a b : K2) : lt2 a b = true -> eqv a b = false.
Proof. intros Hab. unfold equivalent. by rewrite Hab. Qed.

Lemma lt2_not_equivalent' (a b : K2) : lt2 a b = true -> eqv b a = false.
Proof. intros Hab. rewrite equivalent_sym. by apply lt2_not_equivalent. Qed.

Lemma equivalent_trans (a b c : K2) :
  eqv a b = true -> eqv b c = true -> eqv a c = true.
Proof. apply (swo_equiv_trans lt2 Hswo). Qed.

(** Equivalent keys are equivalent to the same keys. *)
Lemma equivalent_congr (a b c : K2) : eqv a b = true -> eqv a c = eqv b c.
Proof.
  intros Hab.
  destruct (eqv a c) eqn:Hac, (eqv b c) eqn:Hbc; try done.
  - rewrite equivalent_sym in Hab.
    pose proof (equivalent_trans b a c Hab Hac). congruence.
  - pose proof (equivalent_trans a b c Hab Hbc). congruence.
Qed.

End OrderFacts.

Section NumClasses.

Context {K2 : Type}.
Variable lt2 : K2 -> K2 -> bool.
Hypothesis Hswo : StrictWeakOrder lt2.

Local Abbreviation eqv := (equivalent lt2).

Lemma existsb_Permutation {A : Type} (f : A -> bool) (l l' : list A) :
  l ≡ₚ l' -> existsb f l = existsb f l'.
Proof.
  induction 1 as [| x l l' _ IH | x y l | l l' l'' _ IH1 _ IH2]; simpl.
  - done.
  - by rewrite IH.
  - destruct (f x), (f y); done.
  - by rewrite IH1.
Qed.

Lemma existsb_equivalent_congr (a b : K2) (l : list K2) :
  eqv a b = true -> existsb (eqv a) l = existsb (eqv b) l.
Proof.
  intros Hab. induction l as [| c l IH]; simpl; [done |].
  by rewrite IH, (equivalent_congr lt2 Hswo a b c Hab).
Qed.

(** The count does not depend on the order of the keys. *)
Lemma num_classes_Permutation (l l' : list K2) :
  l ≡ₚ l' -> num_classes lt2 l = num_classes lt2 l'.
Proof.
  induction 1 as [| x l l' Hp IH | x y l | l l' l'' _ IH1 _ IH2]; simpl.
  - done.
  - by rewrite IH, (existsb_Permutation _ _ _ Hp).
  - destruct (eqv y x) eqn:Hyx.
    + assert (Hxy : eqv x y = true) by (by rewrite (equivalent_sym lt2)).
      rewrite Hxy. simpl.
      by rewrite (existsb_equivalent_congr x y l Hxy).
    + assert (Hxy : eqv x y = false) by (by rewrite (equivalent_sym lt2)).
      rewrite Hxy. simpl.
      destruct (existsb (eqv y) l), (existsb (eqv x) l); done.
  - by rewrite IH1.
Qed.

(** A non-empty block of mutually equivalent keys in front of keys of other
    classes adds one class. *)
Lemma num_classes_block (m : K2) (block rest : list K2) :
  block <> [] ->
  Forall (fun k => eqv k m = true) block ->
  Forall (fun k => eqv k m = false) rest ->
  num_classes lt2 (block ++ rest) = S (num_classes lt2 rest).
Proof.
  intros Hne Hblock Hrest.
  induction block as [| k block IH]; [done |].
  apply Forall_cons in Hblock as [Hk Hblock].
  simpl. rewrite existsb_app.
  assert (Hout : existsb (eqv k) rest = false).
  { clear -Hswo Hrest Hk. induction Hrest as [| r rest Hr _ IH]; simpl; [done |].
    rewrite IH, orb_false_r.
    rewrite (equivalent_congr lt2 Hswo k m r Hk).
    by rewrite (equivalent_sym lt2). }
  rewrite Hout, orb_false_r.
  destruct block as [| k' block].
  - done.
  - assert (Hin : existsb (eqv k) (k' :: block) = true).
    { simpl. apply Forall_cons in Hblock as [Hk' _].
      rewrite (equivalent_congr lt2 Hswo k m k' Hk).
      rewrite (equivalent_sym lt2), Hk'. done. }
    rewrite Hin. by apply IH.
Qed.

(** Keys that are pairwise in different classes are counted one by one. *)
Lemma num_classes_distinct (l : list K2) :
  (forall i j a b, (i < j)%nat -> l !! i = Some a -> l !! j = Some b -> eqv a b = false) ->
  num_classes lt2 l = length l.
Proof.
  induction l as [| k l IH]; intros Hdist; simpl; [done |].
  assert (Hnone : existsb (eqv k) l = false).
  { apply not_true_is_false. intros Hex.
    apply existsb_exists in Hex as (b & Hin & Hb).
    apply list_elem_of_In, list_elem_of_lookup in Hin as [j Hj].
    pose proof (Hdist 0%nat (S j) k b ltac:(lia) eq_refl Hj). congruence. }
  rewrite Hnone. f_equal. apply IH.
  intros i j a b Hij Ha Hb. apply (Hdist (S i) (S j)); [lia | done | done].
Qed.

End NumClasses.

Section ShuffleFacts.

Context {K1 V1 K2 V2 K3 V3 : Type}.
Variable lt2 : K2 -> K2 -> bool.
Hypothesis Hswo : StrictWeakOrder lt2.

Local Abbreviation eqv := (equivalent lt2).
Local Abbreviation Vec := (list (K2 * V2)).
Local Abbreviation Ctx := (@JobContext K1 V1 K2 V2 K3 V3).

(** *** Sorted vectors *)

Local Abbreviation precedes := (@precedes K2 V2 lt2).

#[local] Instance precedes_trans : Transitive precedes.
Proof.
  intros a b c Hab Hbc. unfold precedes in *.
  by apply (not_lt2_trans lt2 Hswo c.1 b.1 a.1).
Qed.

Lemma is_sorted_Sorted (vec : Vec) :
  is_sorted lt2 vec = true -> Sorted precedes vec.
Proof.
  induction vec as [| a [| b rest] IH]; intros Hs.
  - constructor.
  - constructor; constructor.
  - simpl in Hs. apply andb_true_iff in Hs as [Hab Hrest].
    constructor; [by apply IH |].
    constructor. unfold precedes. by apply negb_true_iff.
Qed.

Lemma is_sorted_StronglySorted (vec : Vec) :
  is_sorted lt2 vec = true -> StronglySorted precedes vec.
Proof.
  intros Hs. apply (Sorted_StronglySorted precedes). by apply is_sorted_Sorted.
Qed.

Lemma Forall_is_sorted_StronglySorted (vecs : list Vec) :
  Forall (fun vec => is_sorted lt2 vec = true) vecs ->
  Forall (StronglySorted precedes) vecs.
Proof.
  intros Hall. eapply Forall_impl; [exact Hall |].
  intros vec. apply is_sorted_StronglySorted.
Qed.

Lemma elem_of_concat {A : Type} (x : A) (ls : list (list A)) :
  x ∈ concat ls <-> exists l, x ∈ l /\ l ∈ ls.
Proof.
  induction ls as [| l ls IH]; simpl.
  - split; [by intros ?%elem_of_nil | by intros (l & _ & ?%elem_of_nil)].
  - rewrite elem_of_app, IH. split.
    + intros [Hx | (l' & Hx & Hl')].
      * exists l. split; [done | apply list_elem_of_here].
      * exists l'. split; [done | by apply list_elem_of_further].
    + intros (l' & Hx & Hl'). apply elem_of_cons in Hl' as [-> | Hl'].
      * by left.
      * right. by exists l'.
Qed.

(** *** The scan for the greatest back key *)

Lemma back_snoc {A : Type} (l : list A) (x : A) : back (l ++ [x]) = Some x.
Proof. apply last_snoc. Qed.

Lemma pop_back_snoc {A : Type} (l : list A) (x : A) : pop_back (l ++ [x]) = l.
Proof. apply removelast_last. Qed.

Lemma back_None {A : Type} (l : list A) : back l = None <-> l = [].
Proof. apply last_None. Qed.

Lemma back_Some {A : Type} (l : list A) (x : A) :
  back l = Some x <-> exists l', l = l' ++ [x].
Proof. apply last_Some. Qed.

(** The key kept by the scan is the key at the back of one of the vectors
    (or the one it started with), and no back key is greater. *)
Lemma find_max_fold (vecs : list Vec) (acc : option K2) (m : K2) :
  foldl (find_max_step lt2) acc vecs = Some m ->
  (acc = Some m \/ exists vec kv, vec ∈ vecs /\ back vec = Some kv /\ kv.1 = m)
  /\ (forall a, acc = Some a -> lt2 m a = false)
  /\ (forall vec kv, vec ∈ vecs -> back vec = Some kv -> lt2 m kv.1 = false).
Proof.
  revert acc. induction vecs as [| vec vecs IH]; intros acc Hfold; simpl in Hfold.
  - subst acc. split; [by left |]. split.
    + intros a [= <-]. apply (swo_irrefl lt2 Hswo).
    + intros vec kv Hin. by apply elem_of_nil in Hin.
  - destruct (IH _ Hfold) as (Hwhere & Hacc & Hbacks). clear IH.
    unfold find_max_step in Hwhere, Hacc.
    destruct (back vec) as [kv |] eqn:Hback; cbv zeta in Hwhere, Hacc.
    + assert (Hkv : lt2 m kv.1 = false).
      { destruct acc as [a |]; [| by apply Hacc].
        destruct (lt2 a kv.1) eqn:Ha; [by apply Hacc |].
        apply (not_lt2_trans lt2 Hswo m a kv.1); [by apply Hacc | done]. }
      split; [| split].
      * destruct Hwhere as [Hhere | (vec' & kv' & Hin & Hb & Hk)].
        -- destruct acc as [a |].
           ++ destruct (lt2 a kv.1) eqn:Ha.
              ** right. exists vec, kv. split; [apply list_elem_of_here |].
                 split; [done | congruence].
              ** by left.
           ++ right. exists vec, kv. split; [apply list_elem_of_here |].
              split; [done | congruence].
        -- right. exists vec', kv'. split; [by apply list_elem_of_further | done].
      * intros a ->. destruct (lt2 a kv.1) eqn:Ha; [| by apply Hacc].
        destruct (lt2 m a) eqn:Hma; [| done].
        pose proof (swo_trans lt2 Hswo m a kv.1 Hma Ha). congruence.
      * intros vec' kv' Hin Hb. apply elem_of_cons in Hin as [-> | Hin].
        -- congruence.
        -- by apply (Hbacks vec').
    + split; [| split].
      * destruct Hwhere as [Hhere | (vec' & kv' & Hin & Hb & Hk)]; [by left |].
        right. exists vec', kv'. split; [by apply list_elem_of_further | done].
      * done.
      * intros vec' kv' Hin Hb. apply elem_of_cons in Hin as [-> | Hin].
        -- congruence.
        -- by apply (Hbacks vec').
Qed.

Lemma find_max_is_back (vecs : list Vec) (m : K2) :
  find_max lt2 vecs = Some m ->
  exists vec kv, vec ∈ vecs /\ back vec = Some kv /\ kv.1 = m.
Proof.
  intros Hmax. destruct (find_max_fold vecs None m Hmax) as ([? | ?] & _); done.
Qed.

Lemma find_max_None (vecs : list Vec) :
  find_max lt2 vecs = None <-> Forall (fun vec => vec = []) vecs.
Proof.
  unfold find_max.
  assert (Hgen : forall acc, foldl (find_max_step lt2) acc vecs = None
                             <-> acc = None /\ Forall (fun vec => vec = []) vecs).
  { induction vecs as [| vec vecs IH]; intros acc; simpl.
    - split; [intros ->; by split | by intros [-> _]].
    - rewrite IH, Forall_cons. unfold find_max_step.
      destruct (back vec) as [kv |] eqn:Hback.
      + split.
        * intros [Hnone _]. destruct acc as [a |]; [destruct (lt2 a kv.1) |]; done.
        * intros [_ [-> _]]. done.
      + apply back_None in Hback. tauto. }
  rewrite Hgen. tauto.
Qed.

(** In sorted vectors no key at all is greater than the key kept by the scan. *)
Lemma find_max_greatest (vecs : list Vec) (m : K2) :
  Forall (StronglySorted precedes) vecs ->
  find_max lt2 vecs = Some m ->
  forall kv, kv ∈ concat vecs -> lt2 m kv.1 = false.
Proof.
  intros Hsorted Hmax kv Hin.
  destruct (find_max_fold vecs None m Hmax) as (_ & _ & Hbacks).
  apply elem_of_concat in Hin as (vec & Hkv & Hvec).
  destruct (back vec) as [b |] eqn:Hback.
  - pose proof (Hbacks vec b Hvec Hback) as Hb.
    apply back_Some in Hback as [pre ->].
    apply elem_of_app in Hkv as [Hpre | Hlast].
    + rewrite Forall_forall in Hsorted.
      pose proof (StronglySorted_app_1_elem_of precedes pre [b] kv b
                    (Hsorted _ Hvec) Hpre ltac:(apply list_elem_of_here)) as Hord.
      by apply (not_lt2_trans lt2 Hswo m b.1 kv.1).
    + apply list_elem_of_singleton in Hlast as ->. done.
  - apply back_None in Hback as ->. by apply elem_of_nil in Hkv.
Qed.


End ShuffleFacts.
Section CollectFacts.

Context {K2 V2 : Type}.
Variable lt2 : K2 -> K2 -> bool.
Hypothesis Hswo : StrictWeakOrder lt2.

Local Abbreviation eqv := (equivalent lt2).
Local Abbreviation Vec := (list (K2 * V2)).
Local Abbreviation sorted := (StronglySorted (@precedes K2 V2 lt2)).

(** *** One pass of the collecting loops *)

Local Abbreviation drained := (@drained K2 V2 lt2).

Lemma collect_loop_drained (n : nat) (m : K2) (vec group : Vec) (state : Z) :
  (length vec <= n)%nat ->
  exists vec' moved state',
    collect_loop lt2 n m vec group state = (vec', group ++ moved, state')
    /\ drained m vec vec' moved.
Proof.
  revert vec group state.
  induction n as [| n IH]; intros vec group state Hlen.
  - destruct vec; [| simpl in Hlen; lia].
    exists [], [], state. simpl. rewrite app_nil_r.
    split; [done |]. split; [done |]. split; [constructor | done].
  - simpl. destruct (back vec) as [kv |] eqn:Hback.
    + apply back_Some in Hback as Hvec. destruct Hvec as [pre ->].
      fold (eqv kv.1 m).
      destruct (eqv kv.1 m) eqn:Hkv.
      * rewrite pop_back_snoc.
        destruct (IH pre (group ++ [kv]) (JobStateManager.incrementProcessed state))
          as (vec' & moved & state' & Hrun & Hpre & Hall & Hstop).
        { rewrite length_app in Hlen. simpl in Hlen. lia. }
        exists vec', (kv :: moved), state'.
        split; [by rewrite Hrun, <- app_assoc |].
        split; [| split; [by constructor | done]].
        rewrite reverse_cons, app_assoc. by rewrite <- Hpre.
      * exists (pre ++ [kv]), [], state. rewrite app_nil_r.
        split; [done |]. split; [by rewrite app_nil_r |].
        split; [constructor |].
        intros kv' Hb. rewrite back_snoc in Hb. congruence.
    + apply back_None in Hback as ->.
      exists [], [], state. rewrite app_nil_r.
      split; [done |]. split; [done |]. split; [constructor | done].
Qed.

Lemma collect_all_drained (m : K2) (vecs : list Vec) (group : Vec) (state : Z) :
  exists vecs' moveds state',
    collect_all lt2 m vecs group state = (vecs', group ++ concat moveds, state')
    /\ Forall3 (drained m) vecs vecs' moveds.
Proof.
  revert group state. induction vecs as [| vec vecs IH]; intros group state.
  - exists [], [], state. simpl. rewrite app_nil_r. split; [done | constructor].
  - simpl.
    destruct (collect_loop_drained (length vec) m vec group state (le_n _))
      as (vec' & moved & state1 & -> & Hvec).
    destruct (IH (group ++ moved) state1) as (vecs' & moveds & state2 & -> & Hrest).
    exists (vec' :: vecs'), (moved :: moveds), state2.
    split; [by rewrite <- app_assoc | by constructor].
Qed.

(** Nothing is lost or invented by a pass. *)
Lemma drained_Permutation (m : K2) (vecs vecs' moveds : list Vec) :
  Forall3 (drained m) vecs vecs' moveds ->
  concat vecs ≡ₚ concat moveds ++ concat vecs'.
Proof.
  induction 1 as [| vec vec' moved vecs vecs' moveds (-> & _ & _) _ IH]; simpl.
  - done.
  - rewrite IH, reverse_Permutation.
    rewrite <- !app_assoc. rewrite (app_assoc vec' moved).
    rewrite (Permutation_app_comm vec' moved).
    rewrite <- !app_assoc. apply Permutation_app_head.
    rewrite !app_assoc. apply Permutation_app_tail.
    apply Permutation_app_comm.
Qed.

(** Every pair moved by the pass is equivalent to the key searched for. *)
Lemma drained_equivalent (m : K2) (vecs vecs' moveds : list Vec) :
  Forall3 (drained m) vecs vecs' moveds ->
  Forall (fun kv => eqv kv.1 m = true) (concat moveds).
Proof.
  induction 1 as [| vec vec' moved vecs vecs' moveds (_ & Hall & _) _ IH]; simpl.
  - constructor.
  - apply Forall_app. by split.
Qed.

(** The vector whose back key is the key searched for gives up a pair. *)
Lemma drained_nonempty (m : K2) (vecs vecs' moveds : list Vec) :
  Forall3 (drained m) vecs vecs' moveds ->
  (exists vec kv, vec ∈ vecs /\ back vec = Some kv /\ kv.1 = m) ->
  concat moveds <> [].
Proof.
  induction 1 as [| vec vec' moved vecs vecs' moveds (Hvec & _ & Hstop) _ IH];
    intros (v & kv & Hin & Hback & Hkey).
  - by apply elem_of_nil in Hin.
  - simpl. apply elem_of_cons in Hin as [-> | Hin].
    + destruct moved as [| kv' moved]; [| done].
      rewrite reverse_nil, app_nil_r in Hvec. subst vec'.
      pose proof (Hstop kv Hback) as Hne.
      rewrite Hkey, (equivalent_refl lt2 Hswo) in Hne. done.
    + intros Hnil. apply app_eq_nil in Hnil as [_ Hnil].
      apply IH; [| done]. by exists v, kv.
Qed.

(** What a pass leaves of a sorted vector is sorted. *)
Lemma drained_sorted (m : K2) (vecs vecs' moveds : list Vec) :
  Forall3 (drained m) vecs vecs' moveds ->
  Forall sorted vecs -> Forall sorted vecs'.
Proof.
  induction 1 as [| vec vec' moved vecs vecs' moveds (-> & _ & _) _ IH];
    intros Hsorted.
  - constructor.
  - apply Forall_cons in Hsorted as [Hvec Hrest].
    constructor; [| by apply IH].
    by apply StronglySorted_app_1_l in Hvec.
Qed.

(** When no key is greater than [m], a pass over sorted vectors leaves only
    keys smaller than [m]. *)
Lemma drained_smaller (m : K2) (vecs vecs' moveds : list Vec) :
  Forall3 (drained m) vecs vecs' moveds ->
  Forall sorted vecs ->
  (forall kv, kv ∈ concat vecs -> lt2 m kv.1 = false) ->
  forall kv, kv ∈ concat vecs' -> lt2 kv.1 m = true.
Proof.
  induction 1 as [| vec vec' moved vecs vecs' moveds (Hvec & _ & Hstop) _ IH];
    intros Hsorted Hmax kv Hin.
  - by apply elem_of_nil in Hin.
  - apply Forall_cons in Hsorted as [Hs Hrest].
    simpl in Hin. apply elem_of_app in Hin as [Hin | Hin].
    + assert (Hle : forall x, x ∈ vec' -> lt2 m x.1 = false).
      { intros x Hx. apply Hmax. simpl. rewrite Hvec.
        apply elem_of_app. left. apply elem_of_app. by left. }
      destruct (back vec') as [b |] eqn:Hback.
      * pose proof (Hstop b eq_refl) as Hb.
        apply back_Some in Hback as [pre Hpre].
        assert (Hbm : lt2 b.1 m = true).
        { pose proof (Hle b) as Hmb.
          rewrite Hpre in Hmb. specialize (Hmb ltac:(apply elem_of_app; right;
                                                     apply list_elem_of_here)).
          unfold equivalent in Hb. rewrite Hmb in Hb. simpl in Hb.
          rewrite andb_true_r in Hb. by apply negb_false_iff in Hb. }
        rewrite Hpre in Hin. apply elem_of_app in Hin as [Hin | Hin].
        -- rewrite Hvec, Hpre in Hs.
           apply StronglySorted_app_1_l in Hs.
           pose proof (StronglySorted_app_1_elem_of _ pre [b] kv b Hs Hin
                         ltac:(apply list_elem_of_here)) as Hord.
           unfold precedes in Hord.
           by apply (not_lt2_lt2_trans lt2 Hswo kv.1 b.1 m).
        -- apply list_elem_of_singleton in Hin as ->. done.
      * apply back_None in Hback as ->. by apply elem_of_nil in Hin.
    + apply IH; [done | | done].
      intros x Hx. apply Hmax. simpl. apply elem_of_app. by right.
Qed.

End CollectFacts.
Section ShuffleLoop.

Context {K1 V1 K2 V2 K3 V3 : Type}.
Variable lt2 : K2 -> K2 -> bool.
Hypothesis Hswo : StrictWeakOrder lt2.

Local Abbreviation eqv := (equivalent lt2).
Local Abbreviation Vec := (list (K2 * V2)).
Local Abbreviation Ctx := (@JobContext K1 V1 K2 V2 K3 V3).
Local Abbreviation sorted := (StronglySorted (@precedes K2 V2 lt2)).

(** *** The outer loop *)

Lemma concat_all_nil {A : Type} (ls : list (list A)) :
  Forall (fun l => l = []) ls -> concat ls = [].
Proof. induction 1 as [| l ls -> _ IH]; simpl; done. Qed.

Lemma descending_groups_nil : descending_groups lt2 ([] : list Vec).
Proof. intros i j g g' a b _ Hi. by rewrite lookup_nil in Hi. Qed.

Lemma descending_groups_cons (g : Vec) (gs : list Vec) :
  (forall a b, a ∈ g -> b ∈ concat gs -> lt2 b.1 a.1 = true) ->
  descending_groups lt2 gs ->
  descending_groups lt2 (g :: gs).
Proof.
  intros Hfirst Hrest i j g1 g2 a b Hij Hi Hj Ha Hb.
  destruct j as [| j]; [lia |]. simpl in Hj.
  destruct i as [| i]; simpl in Hi.
  - injection Hi as <-. apply Hfirst; [done |].
    apply elem_of_concat. exists g2. split; [done |].
    by apply list_elem_of_lookup_2 in Hj.
  - apply (Hrest i j g1 g2); [lia | done..].
Qed.

Lemma descending_groups_cons_inv (g : Vec) (gs : list Vec) :
  descending_groups lt2 (g :: gs) ->
  (forall a b, a ∈ g -> b ∈ concat gs -> lt2 b.1 a.1 = true)
  /\ descending_groups lt2 gs.
Proof.
  intros Hdesc. split.
  - intros a b Ha Hb. apply elem_of_concat in Hb as (g' & Hb & Hg').
    apply list_elem_of_lookup in Hg' as [j Hj].
    apply (Hdesc 0%nat (S j) g g'); [lia | done..].
  - intros i j g1 g2 a b Hij Hi Hj.
    apply (Hdesc (S i) (S j) g1 g2); [lia | done..].
Qed.

Local Abbreviation one_class := (@one_class K2 V2 lt2).

Lemma one_class_indistinguishable (g : Vec) :
  one_class g -> indistinguishable lt2 g.
Proof.
  intros (_ & m & Hall) a b Ha Hb.
  rewrite Forall_forall in Hall.
  pose proof (Hall a Ha) as Ham. pose proof (Hall b Hb) as Hbm.
  rewrite (equivalent_sym lt2) in Hbm.
  pose proof (equivalent_trans lt2 Hswo _ _ _ Ham Hbm) as Hab.
  by apply equivalent_spec in Hab.
Qed.

Local Abbreviation shuffled := (@shuffled K1 V1 K2 V2 K3 V3 lt2).

Lemma all_nil_replicate {A : Type} (ls : list (list A)) :
  Forall (fun l => l = []) ls -> ls = replicate (length ls) [].
Proof. induction 1 as [| l ls -> _ IH]; simpl; [done | by rewrite <- IH]. Qed.

(** With more fuel than pairs the loop reaches its [break]. *)
Lemma shuffle_loop_shuffled (fuel : nat) (c : Ctx) :
  (length (concat (intermediateVecs c)) < fuel)%nat ->
  exists c' gs, shuffle_loop lt2 fuel c = Some c' /\ shuffled c c' gs.
Proof.
  revert c. induction fuel as [| fuel IH]; intros c Hfuel; [lia |].
  simpl. destruct (find_max lt2 (intermediateVecs c)) as [m |] eqn:Hmax.
  - destruct (collect_all_drained lt2 m (intermediateVecs c) [] (stateManager c))
      as (vecs' & moveds & state' & Hrun & Hdr).
    rewrite Hrun. simpl.
    pose proof (drained_Permutation lt2 m _ _ _ Hdr) as Hperm.
    pose proof (drained_equivalent lt2 m _ _ _ Hdr) as Hequiv.
    pose proof (drained_nonempty lt2 Hswo m _ _ _ Hdr
                  (find_max_is_back lt2 Hswo _ _ Hmax)) as Hne.
    match goal with |- context [shuffle_loop lt2 fuel ?c1] => set (c1' := c1) end.
    destruct (IH c1') as (c' & gs & Hloop & Hsh).
    { subst c1'. simpl.
      apply Permutation_length in Hperm. rewrite length_app in Hperm.
      destruct (concat moveds); [done | simpl in Hperm; lia]. }
    destruct Hsh as (Hdata & Hvecs & Hperm' & Hclasses & Hcount & Hin & Hout & Hj
                     & Hni & Hnr & Hdesc).
    subst c1'. simpl in *.
    exists c', (concat moveds :: gs). split; [done |].
    split; [by rewrite Hdata, <- app_assoc |].
    split.
    { rewrite Hvecs. f_equal.
      by rewrite <- (Forall3_length_lm _ _ _ _ Hdr). }
    split; [simpl; by rewrite Hperm, Hperm' |].
    split.
    { constructor; [| done]. split; [done |]. by exists m. }
    split.
    { rewrite Hcount. symmetry.
      apply (Nat.iter_succ_r (length gs) (fun n => wrap64 (n + 1))). }
    do 5 (split; [done |]).
    intros Hsorted.
    apply descending_groups_cons.
    + intros a b Ha Hb.
      rewrite Forall_forall in Hequiv.
      pose proof (Hequiv a Ha) as Ham.
      assert (Hbm : lt2 b.1 m = true).
      { apply (drained_smaller lt2 Hswo m _ _ _ Hdr Hsorted).
        - apply (find_max_greatest lt2 Hswo _ _ Hsorted Hmax).
        - by rewrite <- Hperm'. }
      apply (lt2_equivalent_r lt2 Hswo b.1 m a.1 Hbm).
      by rewrite (equivalent_sym lt2).
    + apply Hdesc. by apply (drained_sorted lt2 m _ _ _ Hdr).
  - exists c, []. split; [done |].
    apply find_max_None in Hmax.
    split; [by rewrite app_nil_r |].
    split; [by apply all_nil_replicate |].
    split; [by rewrite (concat_all_nil _ Hmax) |].
    split; [constructor |].
    do 6 (split; [done |]).
    intros _. apply descending_groups_nil.
Qed.

(** The groups found for sorted vectors are as many as the classes of keys. *)
Lemma groups_count_classes (gs : list Vec) :
  Forall one_class gs ->
  descending_groups lt2 gs ->
  length gs = num_classes lt2 (concat gs).*1.
Proof.
  induction gs as [| g gs IH]; intros Hclasses Hdesc; [done |].
  apply Forall_cons in Hclasses as [(Hne & m & Hall) Hclasses].
  apply descending_groups_cons_inv in Hdesc as [Hfirst Hdesc].
  simpl. rewrite fmap_app.
  rewrite (num_classes_block lt2 Hswo m).
  - f_equal. by apply IH.
  - by destruct g.
  - apply Forall_fmap. eapply Forall_impl; [exact Hall |]. done.
  - apply Forall_fmap, Forall_forall. intros b Hb. simpl.
    destruct g as [| a g]; [done |].
    apply Forall_cons in Hall as [Ham _].
    pose proof (Hfirst a b ltac:(apply list_elem_of_here) Hb) as Hba.
    rewrite (equivalent_sym lt2).
    rewrite <- (equivalent_congr lt2 Hswo a.1 m b.1 Ham).
    by apply (lt2_not_equivalent' lt2).
Qed.

End ShuffleLoop.
(** *** A concrete client order and job, used to instantiate the results *)

Lemma Z_ltb_swo : StrictWeakOrder Z.ltb.
Proof.
  split.
  - intros a. apply Z.ltb_irrefl.
  - intros a b c Hab Hbc. apply Z.ltb_lt in Hab, Hbc. apply Z.ltb_lt. lia.
  - intros a b c Hab Hbc. unfold equivalent in *.
    apply andb_true_iff in Hab as [H1 H2], Hbc as [H3 H4].
    apply negb_true_iff, Z.ltb_ge in H1, H2, H3, H4.
    apply andb_true_iff. split; apply negb_true_iff, Z.ltb_ge; lia.
Qed.

Section ShufflePhase.

Context {K1 V1 K2 V2 K3 V3 : Type}.
Variable lt2 : K2 -> K2 -> bool.
Hypothesis Hswo : StrictWeakOrder lt2.

Local Abbreviation Vec := (list (K2 * V2)).
Local Abbreviation Ctx := (@JobContext K1 V1 K2 V2 K3 V3).

Lemma shufflePhase_shuffled (fuel : nat) (c : Ctx) :
  (length (concat (intermediateVecs c)) < fuel)%nat ->
  exists c' gs, shufflePhase lt2 fuel c = Some c' /\ shuffled lt2 c c' gs.
Proof.
  intros Hfuel. unfold shufflePhase.
  destruct (shuffle_loop_shuffled lt2 Hswo fuel
              (with_stateManager
                 (JobStateManager.setTotal (wrap32 (totalPairs (intermediateVecs c)))) c)
              Hfuel) as (c' & gs & Hrun & Hsh).
  exists c', gs. split; [exact Hrun | exact Hsh].
Qed.

(** C1.  Given more fuel than there are intermediate pairs, [shufflePhase]
    returns; the groups it appends to the shuffled data hold, as a
    multiset, exactly the pairs of all the per-worker vectors, which it
    leaves empty.  Sortedness of the vectors is not needed for this. *)
Theorem shuffle_keeps_every_pair (fuel : nat) (c : Ctx) :
  (length (concat (intermediateVecs c)) < fuel)%nat ->
  exists c' gs,
    shufflePhase lt2 fuel c = Some c'
    /\ shuffledData c' = shuffledData c ++ gs
    /\ concat gs ≡ₚ concat (intermediateVecs c)
    /\ concat (intermediateVecs c') = [].
Proof.
  intros Hfuel.
  destruct (shufflePhase_shuffled fuel c Hfuel)
    as (c' & gs & Hrun & Hdata & Hvecs & Hperm & _).
  exists c', gs. do 3 (split; [done |]).
  rewrite Hvecs. clear. induction (length (intermediateVecs c)); simpl; done.
Qed.

(** C2.  For vectors sorted in ascending key order, the groups appended by
    [shufflePhase] are in strictly descending key order: every key of a
    group is greater than every key of any group built after it. *)
Theorem shuffle_groups_descend (fuel : nat) (c : Ctx) :
  Forall (fun vec => is_sorted lt2 vec = true) (intermediateVecs c) ->
  (length (concat (intermediateVecs c)) < fuel)%nat ->
  exists c' gs,
    shufflePhase lt2 fuel c = Some c'
    /\ shuffledData c' = shuffledData c ++ gs
    /\ descending_groups lt2 gs.
Proof.
  intros Hsorted Hfuel.
  destruct (shufflePhase_shuffled fuel c Hfuel)
    as (c' & gs & Hrun & Hdata & _ & _ & _ & _ & _ & _ & _ & _ & _ & Hdesc).
  exists c', gs. do 2 (split; [done |]).
  apply Hdesc. by apply Forall_is_sorted_StronglySorted.
Qed.

(** C3.  Inside each group appended by [shufflePhase] no two keys can be
    told apart: for pairs [a] and [b] of one group neither [a < b] nor
    [b < a].  Sortedness of the vectors is not needed for this. *)
Theorem shuffle_groups_indistinguishable (fuel : nat) (c : Ctx) :
  (length (concat (intermediateVecs c)) < fuel)%nat ->
  exists c' gs,
    shufflePhase lt2 fuel c = Some c'
    /\ shuffledData c' = shuffledData c ++ gs
    /\ Forall (indistinguishable lt2) gs.
Proof.
  intros Hfuel.
  destruct (shufflePhase_shuffled fuel c Hfuel)
    as (c' & gs & Hrun & Hdata & _ & _ & Hclasses & _).
  exists c', gs. do 2 (split; [done |]).
  eapply Forall_impl; [exact Hclasses |].
  intros g. by apply one_class_indistinguishable.
Qed.

End ShufflePhase.

Lemma shuffle_keeps_every_pair_witness :
  exists c' gs,
    shufflePhase Z.ltb 6 example_sorted_context = Some c'
    /\ shuffledData c' = shuffledData example_sorted_context ++ gs
    /\ concat gs ≡ₚ concat (intermediateVecs example_sorted_context)
    /\ concat (intermediateVecs c') = [].
Proof.
  apply (shuffle_keeps_every_pair Z.ltb Z_ltb_swo 6 example_sorted_context).
  simpl. lia.
Defined.

Lemma shuffle_groups_descend_witness :
  exists c' gs,
    shufflePhase Z.ltb 6 example_sorted_context = Some c'
    /\ shuffledData c' = shuffledData example_sorted_context ++ gs
    /\ descending_groups Z.ltb gs.
Proof.
  apply (shuffle_groups_descend Z.ltb Z_ltb_swo 6 example_sorted_context).
  - repeat constructor.
  - simpl. lia.
Defined.

Lemma shuffle_groups_indistinguishable_witness :
  exists c' gs,
    shufflePhase Z.ltb 6 example_sorted_context = Some c'
    /\ shuffledData c' = shuffledData example_sorted_context ++ gs
    /\ Forall (indistinguishable Z.ltb) gs.
Proof.
  apply (shuffle_groups_indistinguishable Z.ltb Z_ltb_swo 6 example_sorted_context).
  simpl. lia.
Defined.

(** The run of [shufflePhase] on the example, evaluated. *)
Example example_shuffle :
  shuffledData <$> shufflePhase Z.ltb 6 example_sorted_context
  = Some [[(3, 30); (3, 31)]; [(2, 20)]; [(1, 10); (1, 11)]].
Proof. vm_compute. reflexivity. Qed.
(** * Part IV: the dispatch loops *)

Section SumFacts.

Context {A : Type}.

(** Replacing one element of a list moves a sum over it by the difference. *)
Lemma sum_list_fmap_insert (f : A -> nat) (l : list A) (i : nat) (x y : A) :
  l !! i = Some x ->
  (sum_list (f <$> <[i := y]> l) + f x = sum_list (f <$> l) + f y)%nat.
Proof.
  revert i. induction l as [| a l IH]; intros i Hi; [done |].
  destruct i as [| i].
  - injection Hi as ->. csimpl. lia.
  - specialize (IH i Hi). csimpl in *. lia.
Qed.

Lemma sum_list_fmap_le (f : A -> nat) (l : list A) :
  (forall x, f x <= 1)%nat -> (sum_list (f <$> l) <= length l)%nat.
Proof.
  intros Hf. induction l as [| a l IH]; csimpl; [done |].
  specialize (Hf a). lia.
Qed.

Lemma sum_list_fmap_lt (f : A -> nat) (l : list A) (i : nat) (x : A) :
  (forall x, f x <= 1)%nat -> l !! i = Some x -> f x = O ->
  (sum_list (f <$> l) < length l)%nat.
Proof.
  intros Hf. revert i. induction l as [| a l IH]; intros i Hi Hx; [done |].
  destruct i as [| i].
  - injection Hi as ->. pose proof (sum_list_fmap_le f l Hf). csimpl in *. lia.
  - specialize (IH i Hi Hx). specialize (Hf a). csimpl in *. lia.
Qed.

Lemma sum_list_fmap_replicate (f : A -> nat) (n : nat) (x : A) :
  sum_list (f <$> replicate n x) = (n * f x)%nat.
Proof. induction n as [| n IH]; csimpl; [done | by rewrite IH]. Qed.

End SumFacts.

Section PendingFacts.

Context {K3 V3 : Type}.

Local Abbreviation Pc := (@ReducePc K3 V3).

(** The pending pairs of the workers, with those of worker [tid] in front. *)
Lemma all_pending_insert (pcs : list Pc) (tid : nat) (pc : Pc) :
  pcs !! tid = Some pc ->
  exists others,
    all_pending pcs ≡ₚ pending_of pc ++ others
    /\ forall pc', all_pending (<[tid := pc']> pcs) ≡ₚ pending_of pc' ++ others.
Proof.
  revert tid. induction pcs as [| a pcs IH]; intros tid Htid; [done |].
  destruct tid as [| tid]; simpl in *.
  - injection Htid as ->. exists (all_pending pcs). split; [done |]. done.
  - destruct (IH tid Htid) as (others & Hold & Hnew).
    exists (pending_of a ++ others). unfold all_pending in *. simpl. split.
    + rewrite Hold. rewrite !app_assoc. apply Permutation_app_tail.
      apply Permutation_app_comm.
    + intros pc'. rewrite (Hnew pc'). rewrite !app_assoc.
      apply Permutation_app_tail. apply Permutation_app_comm.
Qed.

Lemma reduce_exited_le (pc : Pc) : (reduce_exited pc <= 1)%nat.
Proof. destruct pc; simpl; lia. Qed.

Lemma reduce_finished_exited (pcs : list Pc) :
  reduce_finished pcs = true ->
  sum_list (reduce_exited <$> pcs) = length pcs /\ all_pending pcs = []
  /\ sum_list (reduce_weight <$> pcs) = O.
Proof.
  induction pcs as [| pc pcs IH]; csimpl; [done |].
  destruct pc; try done. intros Hrest.
  destruct (IH Hrest) as (-> & Hp & ->). unfold all_pending in *. csimpl.
  by rewrite Hp.
Qed.

Lemma reduce_not_finished (pcs : list Pc) :
  reduce_finished pcs = false ->
  exists tid pc, pcs !! tid = Some pc /\ reduce_exited pc = O.
Proof.
  induction pcs as [| pc pcs IH]; csimpl; [done |].
  destruct pc.
  - intros _. by exists O, ReduceFetch.
  - intros _. by exists O, (ReduceEmit pending).
  - intros Hrest. destruct (IH Hrest) as (tid & pc & Hpc & Hex).
    by exists (S tid), pc.
Qed.

End PendingFacts.
(** Projections of rebuilt contexts, without touching the data. *)
Ltac ctx_simpl :=
  cbn [rs_context rs_pcs rs_calls stateManager inputVec outputVec joined
       intermediateVecs shuffledData shuffleCounter nextInputIndex nextReduceIndex
       with_stateManager with_outputVec with_joined with_intermediateVecs
       with_nextInputIndex with_nextReduceIndex emit3 fst snd].

Section ReducePhase.

Context {K1 V1 K2 V2 K3 V3 : Type}.
Variable client_reduce : list (K2 * V2) -> list (K3 * V3).

Local Abbreviation Ctx := (@JobContext K1 V1 K2 V2 K3 V3).
Local Abbreviation RState := (@ReduceState K1 V1 K2 V2 K3 V3).
Local Abbreviation step := (reducePhase_step client_reduce).

(** The job context at the second barrier and the number of workers; the
    indices handed out by [nextReduceIndex] stay below [2^32]. *)
Variable c0 : Ctx.
Variable nThreads : nat.
Hypothesis Hfits : Z.of_nat (length (shuffledData c0)) + Z.of_nat nThreads <= 2 ^ 32.

Local Abbreviation inv := (reduce_inv client_reduce c0 nThreads).
Local Abbreviation measure := (reduce_measure client_reduce c0 nThreads).
Local Abbreviation count := (length (shuffledData c0)).

(** Every step keeps the invariant, and a step of a worker that has not
    left its loop uses up one unit of the measure. *)
Lemma reducePhase_step_inv (k : nat) (s : RState) (tid : nat) :
  inv k s ->
  exists k',
    inv k' (step s tid)
    /\ (forall pc, rs_pcs s !! tid = Some pc -> reduce_exited pc = O ->
        S (measure k' (step s tid)) = measure k s).
Proof.
  intros (Hnext & Hk & Hcalls & Hout & Hdata & Hcnt & Hlen).
  destruct s as [c pcs calls]. simpl in *.
  unfold reducePhase_step. simpl.
  destruct (pcs !! tid) as [pc |] eqn:Hpc.
  2: { exists k. split; [by repeat split | done]. }
  destruct (all_pending_insert pcs tid pc Hpc) as (others & Hold & Hnew).
  pose proof (sum_list_fmap_insert reduce_exited pcs tid pc) as Hexi.
  pose proof (sum_list_fmap_insert reduce_weight pcs tid pc) as Hwei.
  pose proof (sum_list_fmap_le reduce_exited pcs reduce_exited_le) as Hle.
  destruct pc as [| [| kv pending] |].
  - (* fetch *)
    pose proof (sum_list_fmap_lt reduce_exited pcs tid ReduceFetch
                  reduce_exited_le Hpc eq_refl) as Hlt.
    assert (Hsmall : 0 <= Z.of_nat k < 2 ^ 32).
    { destruct (decide (sum_list (reduce_exited <$> pcs) = O)); lia. }
    assert (Hwrap : wrap32 (Z.of_nat k) = Z.of_nat k) by (by apply Z.mod_small).
    rewrite Hnext, Hcnt, !Hwrap.
    destruct (Z.leb_spec (Z.of_nat count) (Z.of_nat k)) as [Hge | Hin].
    + (* out of range: the worker leaves the loop *)
      specialize (Hexi ReduceExit Hpc). specialize (Hwei ReduceExit Hpc).
      specialize (Hnew ReduceExit). simpl in Hexi, Hwei, Hnew, Hold.
      exists (S k). split.
      * unfold reduce_inv. cbv zeta.
        replace (S k `min` count)%nat with (k `min` count)%nat by lia. simpl.
        split; [by rewrite Nat2Z.inj_succ |].
        split.
        { destruct (decide (sum_list (reduce_exited <$> pcs) = O));
            destruct (decide (sum_list (reduce_exited <$> <[tid:=ReduceExit]> pcs) = O));
            lia. }
        split; [done |].
        split; [by rewrite Hnew, <- Hold |].
        split; [done |]. split; [done |]. by rewrite length_insert.
      * intros _ _ _. unfold reduce_measure.
        replace (S k `min` count)%nat with (k `min` count)%nat by lia.
        cbn [rs_pcs rs_context]. lia.
    + (* in range: [client.reduce] is called on the group *)
      assert (Hzero : sum_list (reduce_exited <$> pcs) = O).
      { destruct (decide (sum_list (reduce_exited <$> pcs) = O)); lia. }
      rewrite Nat2Z.id.
      destruct (lookup_lt_is_Some_2 (shuffledData c0) k ltac:(lia))
        as [g Hg].
      rewrite Hdata, Hg. simpl.
      specialize (Hexi (ReduceEmit (client_reduce g)) Hpc).
      specialize (Hwei (ReduceEmit (client_reduce g)) Hpc).
      specialize (Hnew (ReduceEmit (client_reduce g))).
      simpl in Hexi, Hwei, Hnew, Hold.
      exists (S k). split.
      * replace (k `min` count)%nat with k in * by lia.
        unfold reduce_inv. cbv zeta.
        replace (S k `min` count)%nat with (S k) by lia. ctx_simpl.
        split; [by rewrite Nat2Z.inj_succ |].
        split.
        { destruct (decide (sum_list (reduce_exited
                      <$> <[tid:=ReduceEmit (client_reduce g)]> pcs) = O)); lia. }
        split; [by rewrite Hcalls, seq_S, fmap_app |].
        split.
        { rewrite (take_S_r _ _ _ Hg), fmap_app, concat_app. simpl.
          rewrite app_nil_r, Hnew. rewrite (app_assoc (outputVec c0)).
          rewrite <- Hout, Hold.
          rewrite <- !app_assoc. apply Permutation_app_head.
          apply Permutation_app_comm. }
        split; [done |]. split; [done |]. by rewrite length_insert.
      * intros _ _ _. unfold reduce_measure.
        replace (S k `min` count)%nat with (S k) by lia.
        replace (k `min` count)%nat with k in * by lia.
        rewrite (drop_S _ _ _ Hg). unfold remaining_cost.
        cbn [rs_pcs rs_context]. rewrite fmap_cons. cbn [sum_list].
        change (id (S (S (length (client_reduce g)))))
          with (S (S (length (client_reduce g)))).
        lia.
  - (* [client.reduce] has returned *)
    specialize (Hexi ReduceFetch Hpc). specialize (Hwei ReduceFetch Hpc).
    specialize (Hnew ReduceFetch). simpl in Hexi, Hwei, Hnew, Hold.
    exists k. split.
    + unfold reduce_inv. simpl.
      split; [done |].
      split.
      { destruct (decide (sum_list (reduce_exited <$> pcs) = O));
          destruct (decide (sum_list (reduce_exited <$> <[tid:=ReduceFetch]> pcs) = O));
          lia. }
      split; [done |].
      split; [by rewrite Hnew, <- Hold |].
      split; [done |]. split; [done |]. by rewrite length_insert.
    + intros _ _ _. unfold reduce_measure. cbn [rs_pcs rs_context]. lia.
  - (* one [emit3] *)
    specialize (Hexi (ReduceEmit pending) Hpc).
    specialize (Hwei (ReduceEmit pending) Hpc).
    specialize (Hnew (ReduceEmit pending)). simpl in Hexi, Hwei, Hnew, Hold.
    exists k. split.
    + unfold reduce_inv. simpl.
      split; [done |].
      split.
      { destruct (decide (sum_list (reduce_exited <$> pcs) = O));
          destruct (decide (sum_list (reduce_exited
                      <$> <[tid:=ReduceEmit pending]> pcs) = O));
          lia. }
      split; [done |].
      split.
      { rewrite Hnew, <- Hout, Hold.
        rewrite <- !app_assoc. apply Permutation_app_head. simpl. reflexivity. }
      split; [done |]. split; [done |]. by rewrite length_insert.
    + intros _ _ _. unfold reduce_measure. cbn [rs_pcs rs_context]. lia.
  - (* the worker has left the loop *)
    exists k. split; [by repeat split |].
    intros pc [= <-] Hex. simpl in Hex. lia.
Qed.

Lemma reducePhase_steps_inv (sched : list nat) (k : nat) (s : RState) :
  inv k s -> exists k', inv k' (foldl step s sched).
Proof.
  revert k s. induction sched as [| tid sched IH]; intros k s Hinv; simpl.
  - by exists k.
  - destruct (reducePhase_step_inv k s tid Hinv) as (k' & Hinv' & _).
    by apply (IH k').
Qed.

Lemma reduce_inv_init :
  nextReduceIndex c0 = 0 ->
  shuffleCounter c0 = Z.of_nat count ->
  inv O (mkReduceState c0 (replicate nThreads ReduceFetch) []).
Proof.
  intros Hnext Hcnt. unfold reduce_inv. simpl.
  rewrite sum_list_fmap_replicate. simpl. rewrite Nat.mul_0_r.
  split; [done |]. split; [simpl; lia |]. split; [done |].
  split.
  { unfold all_pending. rewrite app_nil_r.
    replace (concat (pending_of <$> replicate nThreads ReduceFetch))
      with ([] : list (K3 * V3)); [by rewrite app_nil_r |].
    clear. induction nThreads; simpl; done. }
  split; [done |]. split; [done |]. apply length_replicate.
Qed.

(** Once every worker has left its loop, [client.reduce] has been called on
    the indices [0, 1, ...] below the number of groups, each once, and the
    output vector has received exactly what these calls emitted. *)
Lemma reduce_inv_finished (k : nat) (s : RState) :
  (1 <= nThreads)%nat ->
  inv k s ->
  reduce_finished (rs_pcs s) = true ->
  rs_calls s = Z.of_nat <$> seq 0 count
  /\ outputVec (rs_context s)
     ≡ₚ outputVec c0 ++ concat (client_reduce <$> shuffledData c0).
Proof.
  intros Hpos (Hnext & Hk & Hcalls & Hout & Hdata & Hcnt & Hlen) Hfin.
  destruct (reduce_finished_exited _ Hfin) as (Hex & Hpend & _).
  rewrite Hex, Hlen in Hk. rewrite Hpend, app_nil_r in Hout.
  destruct (decide (nThreads = O)); [lia |].
  replace (k `min` count)%nat with count in * by lia.
  split; [done |]. by rewrite firstn_all in Hout.
Qed.

(** Whatever the state, the workers can be scheduled so that all of them
    leave their loops. *)
Lemma reduce_progress (n : nat) (k : nat) (s : RState) :
  inv k s -> (measure k s <= n)%nat ->
  exists sched, reduce_finished (rs_pcs (foldl step s sched)) = true.
Proof.
  revert k s. induction n as [| n IH]; intros k s Hinv Hm.
  - destruct (reduce_finished (rs_pcs s)) eqn:Hfin; [by exists [] |].
    destruct (reduce_not_finished _ Hfin) as (tid & pc & Hpc & Hex).
    destruct (reducePhase_step_inv k s tid Hinv) as (k' & _ & Hdec).
    specialize (Hdec pc Hpc Hex). lia.
  - destruct (reduce_finished (rs_pcs s)) eqn:Hfin; [by exists [] |].
    destruct (reduce_not_finished _ Hfin) as (tid & pc & Hpc & Hex).
    destruct (reducePhase_step_inv k s tid Hinv) as (k' & Hinv' & Hdec).
    specialize (Hdec pc Hpc Hex).
    destruct (IH k' (step s tid) Hinv' ltac:(lia)) as [sched Hsched].
    by exists (tid :: sched).
Qed.

(** The reduce phase, from the second barrier on. *)
Lemma reducePhase_run_spec :
  (1 <= nThreads)%nat ->
  nextReduceIndex c0 = 0 ->
  shuffleCounter c0 = Z.of_nat count ->
  (exists sched,
     reduce_finished (rs_pcs (reducePhase_run client_reduce sched c0 nThreads)) = true)
  /\ forall sched,
       let s := reducePhase_run client_reduce sched c0 nThreads in
       reduce_finished (rs_pcs s) = true ->
       rs_calls s = Z.of_nat <$> seq 0 count
       /\ outputVec (rs_context s)
          ≡ₚ outputVec c0 ++ concat (client_reduce <$> shuffledData c0).
Proof.
  intros Hpos Hnext Hcnt.
  pose proof (reduce_inv_init Hnext Hcnt) as Hinit.
  split.
  - by apply (reduce_progress _ O _ Hinit (le_n _)).
  - intros sched s Hfin. subst s. unfold reducePhase_run in *.
    destruct (reducePhase_steps_inv sched O _ Hinit) as (k & Hinv).
    by apply (reduce_inv_finished k).
Qed.

End ReducePhase.
(** * Part V: the shuffle counter and the reduce loop *)

Section CounterFacts.

Lemma shuffleCounter_iter (n : nat) (x : Z) :
  0 <= x -> x + Z.of_nat n < 2 ^ 64 ->
  Nat.iter n (fun i => wrap64 (i + 1)) x = x + Z.of_nat n.
Proof.
  intros Hx. induction n as [| n IH]; intros Hn.
  - simpl. lia.
  - rewrite Nat2Z.inj_succ in Hn. rewrite Nat.iter_succ.
    rewrite IH by lia. unfold wrap64. rewrite Z.mod_small; lia.
Qed.

(** [n] increments of the 64-bit counter, from 0. *)
Lemma shuffleCounter_wrap (n : nat) :
  Nat.iter n (fun i => wrap64 (i + 1)) 0 = wrap64 (Z.of_nat n).
Proof.
  induction n as [| n IH]; [done |].
  rewrite Nat.iter_succ, IH, Nat2Z.inj_succ. unfold wrap64.
  by rewrite Z.add_mod_idemp_l by lia.
Qed.

Lemma is_sorted_seqZ (m : Z) (n : nat) :
  is_sorted Z.ltb ((fun k => (k, tt)) <$> ((fun i => Z.of_nat i + m) <$> seq 0 n)) = true.
Proof.
  change O with (0 + 0)%nat at 1. generalize (0 + 0)%nat as a.
  induction n as [| n IH]; intros a; [done |].
  destruct n as [| n]; [done |].
  specialize (IH (S a)).
  cbn [seq fmap list_fmap is_sorted fst] in *.
  rewrite IH, andb_true_r. apply negb_true_iff, Z.ltb_ge. lia.
Qed.

Lemma wide_vector_sorted : is_sorted Z.ltb wide_vector = true.
Proof. apply is_sorted_seqZ. Qed.

Lemma wide_vector_keys : wide_vector.*1 = seqZ 0 (2 ^ 32).
Proof.
  unfold wide_vector. rewrite <- list_fmap_compose.
  apply (list_fmap_id (seqZ 0 (2 ^ 32))).
Qed.

Lemma num_classes_seqZ (m n : Z) :
  num_classes Z.ltb (seqZ m n) = length (seqZ m n).
Proof.
  apply (num_classes_distinct Z.ltb).
  intros i j a b Hij Ha Hb.
  apply lookup_seqZ in Ha as [-> _], Hb as [-> _].
  unfold equivalent.
  replace (m + Z.of_nat i <? m + Z.of_nat j) with true; [done |].
  symmetry. apply Z.ltb_lt. lia.
Qed.

End CounterFacts.

Section ReduceNeverEnds.

Context {K1 V1 K2 V2 K3 V3 : Type}.
Variable client_reduce : list (K2 * V2) -> list (K3 * V3).

Local Abbreviation RState := (@ReduceState K1 V1 K2 V2 K3 V3).

Local Abbreviation never_out_of_range :=
  (@never_out_of_range K1 V1 K2 V2 K3 V3).

Lemma reduce_finished_insert (pcs : list (@ReducePc K3 V3)) (tid : nat)
    (pc pc' : @ReducePc K3 V3) :
  pcs !! tid = Some pc -> reduce_exited pc = O -> reduce_exited pc' = O ->
  reduce_finished (<[tid := pc']> pcs) = false.
Proof.
  revert tid. induction pcs as [| a pcs IH]; intros tid Hpc Hex Hex'; [done |].
  destruct tid as [| tid]; simpl in *.
  - destruct pc'; done.
  - rewrite (IH tid Hpc Hex Hex'). apply andb_false_r.
Qed.

Lemma never_out_of_range_step (s : RState) (tid : nat) :
  never_out_of_range s -> never_out_of_range (reducePhase_step client_reduce s tid).
Proof.
  intros (Hcount & Hnext & Hfin). destruct s as [c pcs calls]. simpl in *.
  unfold reducePhase_step, never_out_of_range. simpl.
  assert (Hwrap : forall x, 0 <= wrap32 x < 2 ^ 32).
  { intros x. unfold wrap32. apply Z.mod_pos_bound. lia. }
  destruct (pcs !! tid) as [[| [| kv pending] |] |] eqn:Hpc; simpl.
  - destruct (Z.leb_spec (shuffleCounter c) (nextReduceIndex c)); [lia |]. simpl.
    split; [done |]. split; [apply Hwrap |].
    by apply (reduce_finished_insert pcs tid ReduceFetch).
  - split; [done |]. split; [done |].
    by apply (reduce_finished_insert pcs tid (ReduceEmit [])).
  - split; [done |]. split; [done |].
    by apply (reduce_finished_insert pcs tid (ReduceEmit (kv :: pending))).
  - done.
  - done.
Qed.

Lemma never_out_of_range_run (sched : list nat) (s : RState) :
  never_out_of_range s ->
  never_out_of_range (foldl (reducePhase_step client_reduce) s sched).
Proof.
  revert s. induction sched as [| tid sched IH]; intros s Hs; simpl; [done |].
  by apply IH, never_out_of_range_step.
Qed.

End ReduceNeverEnds.

Section CounterClaim.

Context {K1 V1 K2 V2 K3 V3 : Type}.
Variable lt2 : K2 -> K2 -> bool.
Hypothesis Hswo : StrictWeakOrder lt2.
Variable client_reduce : list (K2 * V2) -> list (K3 * V3).

Local Abbreviation Ctx := (@JobContext K1 V1 K2 V2 K3 V3).

(** The groups appended by the shuffle of sorted vectors are as many as the
    classes of the keys in the vectors. *)
Lemma shuffled_count_classes (c c' : Ctx) (gs : list (list (K2 * V2))) :
  Forall (fun vec => is_sorted lt2 vec = true) (intermediateVecs c) ->
  shuffled lt2 c c' gs ->
  length gs = num_classes lt2 (concat (intermediateVecs c)).*1.
Proof.
  intros Hsorted (_ & _ & Hperm & Hclasses & _ & _ & _ & _ & _ & _ & Hdesc).
  rewrite (groups_count_classes lt2 Hswo gs Hclasses).
  - apply (num_classes_Permutation lt2 Hswo). by rewrite Hperm.
  - apply Hdesc. by apply Forall_is_sorted_StronglySorted.
Qed.

(** C4, with the reduce part within the range of the 32-bit reduce index.
    For sorted vectors and a job whose shuffle data and counters are still
    at their initial values, whatever the number of classes and of workers,
    [shufflePhase] returns with as many groups as there are equivalence
    classes of the keys, and with [shuffleCounter] equal to that number as a
    [uint64_t]: modulo [2^64], hence the number itself when it is below
    [2^64].  For every number of workers [nThreads >= 1] such that the
    number of classes plus [nThreads] is at most [2^32], the workers can be
    scheduled so that all leave the reduce loop, and whenever they all have,
    [client.reduce] has been called on the indices
    [0, 1, ..., classes - 1], once each. *)
Theorem shuffle_counter_bounds_reduce (fuel : nat) (c : Ctx) :
  Forall (fun vec => is_sorted lt2 vec = true) (intermediateVecs c) ->
  shuffledData c = [] ->
  shuffleCounter c = 0 ->
  nextReduceIndex c = 0 ->
  (length (concat (intermediateVecs c)) < fuel)%nat ->
  exists c',
    shufflePhase lt2 fuel c = Some c'
    /\ length (shuffledData c') = num_classes lt2 (concat (intermediateVecs c)).*1
    /\ shuffleCounter c' = wrap64 (Z.of_nat (length (shuffledData c')))
    /\ (Z.of_nat (num_classes lt2 (concat (intermediateVecs c)).*1) < 2 ^ 64 ->
        shuffleCounter c' = Z.of_nat (length (shuffledData c')))
    /\ forall nThreads : nat,
         (1 <= nThreads)%nat ->
         Z.of_nat (num_classes lt2 (concat (intermediateVecs c)).*1)
         + Z.of_nat nThreads <= 2 ^ 32 ->
         (exists sched,
            reduce_finished
              (rs_pcs (reducePhase_run client_reduce sched (enterReduce c') nThreads))
            = true)
         /\ forall sched,
              reduce_finished
                (rs_pcs (reducePhase_run client_reduce sched (enterReduce c')
                           nThreads))
              = true ->
              rs_calls (reducePhase_run client_reduce sched (enterReduce c') nThreads)
              = Z.of_nat <$> seq 0 (num_classes lt2 (concat (intermediateVecs c)).*1).
Proof.
  intros Hsorted Hdata0 Hcount0 Hnext0 Hfuel.
  destruct (shufflePhase_shuffled lt2 Hswo fuel c Hfuel) as (c' & gs & Hrun & Hsh).
  pose proof (shuffled_count_classes c c' gs Hsorted Hsh) as Hlen.
  destruct Hsh as (Hdata & _ & _ & _ & Hcount & _ & _ & _ & _ & Hnext & _).
  rewrite Hdata0 in Hdata. simpl in Hdata.
  rewrite Hcount0, shuffleCounter_wrap in Hcount.
  assert (Hsmall : Z.of_nat (num_classes lt2 (concat (intermediateVecs c)).*1) < 2 ^ 64 ->
                   shuffleCounter c' = Z.of_nat (length (shuffledData c'))).
  { intros Hlt. rewrite Hcount, Hdata. unfold wrap64. apply Z.mod_small. lia. }
  exists c'. split; [done |].
  split; [by rewrite Hdata |].
  split; [by rewrite Hcount, Hdata |].
  split; [exact Hsmall |].
  intros nThreads Hpos Hfits.
  destruct (reducePhase_run_spec client_reduce (enterReduce c') nThreads)
    as [Hex Hall].
  - simpl. rewrite Hdata. lia.
  - done.
  - simpl. congruence.
  - simpl. rewrite Hsmall by lia. done.
  - split; [exact Hex |].
    intros sched Hfin. destruct (Hall sched Hfin) as [Hcalls _].
    rewrite Hcalls. simpl. by rewrite Hdata, Hlen.
Qed.

End CounterClaim.

Lemma shuffle_counter_bounds_reduce_witness :
  exists c',
    shufflePhase Z.ltb 6 example_sorted_context = Some c'
    /\ shuffleCounter c' = Z.of_nat (length (shuffledData c'))
    /\ length (shuffledData c') = 3%nat
    /\ (exists sched,
          reduce_finished
            (rs_pcs (reducePhase_run (fun g => take 1 g) sched (enterReduce c') 2))
          = true)
    /\ forall sched,
         reduce_finished
           (rs_pcs (reducePhase_run (fun g => take 1 g) sched (enterReduce c') 2))
         = true ->
         rs_calls (reducePhase_run (fun g => take 1 g) sched (enterReduce c') 2)
         = [0; 1; 2].
Proof.
  destruct (shuffle_counter_bounds_reduce Z.ltb Z_ltb_swo (fun g => take 1 g) 6
              example_sorted_context)
    as (c' & Hrun & Hlen & _ & Hsmall & Hreduce).
  - repeat constructor.
  - reflexivity.
  - reflexivity.
  - reflexivity.
  - simpl. lia.
  - exists c'. split; [exact Hrun |].
    split; [apply Hsmall; vm_compute; reflexivity |].
    split; [exact Hlen |].
    apply (Hreduce 2%nat).
    + lia.
    + vm_compute. discriminate.
Defined.

Section ReduceWraps.

Context {K1 V1 K2 V2 K3 V3 : Type}.

Local Abbreviation RState := (@ReduceState K1 V1 K2 V2 K3 V3).
Local Abbreviation silent := (fun _ : list (K2 * V2) => [] : list (K3 * V3)).

(** A single worker and a reduce that emits nothing: two steps per group,
    the fetch and the return from [client.reduce]. *)
Lemma reduce_round (c : @JobContext K1 V1 K2 V2 K3 V3) (calls : list Z) :
  0 <= nextReduceIndex c < 2 ^ 32 ->
  2 ^ 32 <= shuffleCounter c ->
  exists c',
    foldl (reducePhase_step silent) (mkReduceState c [ReduceFetch] calls) [0; 0]%nat
    = mkReduceState c' [ReduceFetch] (calls ++ [nextReduceIndex c])
    /\ nextReduceIndex c' = wrap32 (nextReduceIndex c + 1)
    /\ shuffleCounter c' = shuffleCounter c.
Proof.
  intros Hnext Hcount.
  cbn [foldl]. unfold reducePhase_step at 2.
  cbn [rs_pcs rs_context rs_calls lookup list_lookup].
  destruct (Z.leb_spec (shuffleCounter c) (nextReduceIndex c)) as [Hle | _]; [lia |].
  unfold reducePhase_step.
  cbn [rs_pcs rs_context rs_calls lookup list_lookup insert list_insert].
  eexists. split; [reflexivity |]. split; reflexivity.
Qed.

(** After [n] rounds the worker has called [client.reduce] on the indices
    [0, 1, ..., n - 1] taken modulo [2^32]. *)
Lemma reduce_rounds (c : @JobContext K1 V1 K2 V2 K3 V3) (n : nat) :
  nextReduceIndex c = 0 ->
  2 ^ 32 <= shuffleCounter c ->
  exists c',
    foldl (reducePhase_step silent) (mkReduceState c [ReduceFetch] [])
      (concat (replicate n [0; 0]%nat))
    = mkReduceState c' [ReduceFetch] ((fun i => wrap32 (Z.of_nat i)) <$> seq 0 n)
    /\ nextReduceIndex c' = wrap32 (Z.of_nat n)
    /\ shuffleCounter c' = shuffleCounter c.
Proof.
  intros Hnext Hcount. induction n as [| n (c' & Hrun & Hnext' & Hcount')].
  - exists c. split; [reflexivity |]. split; [exact Hnext | reflexivity].
  - rewrite replicate_S_end, concat_app, foldl_app, Hrun.
    cbn [concat]. rewrite app_nil_r.
    destruct (reduce_round c' ((fun i => wrap32 (Z.of_nat i)) <$> seq 0 n))
      as (c'' & Hround & Hnext'' & Hcount'').
    { rewrite Hnext'. unfold wrap32. apply Z.mod_pos_bound. lia. }
    { by rewrite Hcount'. }
    exists c''. split; [| split].
    + rewrite Hround, Hnext', seq_S, fmap_app. reflexivity.
    + rewrite Hnext'', Hnext', Nat2Z.inj_succ. unfold wrap32.
      rewrite Zplus_mod_idemp_l. reflexivity.
    + by rewrite Hcount'', Hcount'.
Qed.

(** With [2^32] groups or more, the index handed out after the first [2^32]
    is [0] again. *)
Lemma reduce_rounds_repeat (c : @JobContext K1 V1 K2 V2 K3 V3) :
  nextReduceIndex c = 0 ->
  2 ^ 32 <= shuffleCounter c ->
  exists sched,
    rs_calls (reducePhase_run silent sched c 1) !! O = Some 0
    /\ rs_calls (reducePhase_run silent sched c 1) !! Z.to_nat (2 ^ 32) = Some 0.
Proof.
  intros Hnext Hcount.
  destruct (reduce_rounds c (S (Z.to_nat (2 ^ 32))) Hnext Hcount) as (c' & Hrun & _).
  exists (concat (replicate (S (Z.to_nat (2 ^ 32))) [0; 0]%nat)).
  unfold reducePhase_run.
  change (replicate 1 (@ReduceFetch K3 V3)) with [@ReduceFetch K3 V3].
  rewrite Hrun. cbn [rs_calls].
  rewrite !list_lookup_fmap, !lookup_seq_lt by lia.
  cbn [fmap option_fmap option_map Nat.add]. rewrite Z2Nat.id by lia.
  split; reflexivity.
Qed.

End ReduceWraps.

(** With [2^32] classes the 32-bit reduce index wraps around before it can
    reach [shuffleCounter]: the shuffle of [wide_context] returns with
    [shuffleCounter = 2^32], the number of classes, and from then on no
    schedule of its worker ever leaves the reduce loop; the worker goes on
    to call [client.reduce] on group [0] a second time. *)
Lemma reduce_loop_overflow_counterexample :
  Forall (fun vec => is_sorted Z.ltb vec = true) (intermediateVecs wide_context)
  /\ Z.of_nat (num_classes Z.ltb (concat (intermediateVecs wide_context)).*1) = 2 ^ 32
  /\ exists c',
       shufflePhase Z.ltb (shuffle_fuel wide_context) wide_context = Some c'
       /\ shuffleCounter c' = 2 ^ 32
       /\ (forall (client_reduce : list (Z * unit) -> list (Z * unit)) sched,
             reduce_finished
               (rs_pcs (reducePhase_run client_reduce sched (enterReduce c') 1))
             = false)
       /\ exists sched,
            let s := reducePhase_run (fun _ => [] : list (Z * unit)) sched
                       (enterReduce c') 1 in
            rs_calls s !! O = Some 0 /\ rs_calls s !! Z.to_nat (2 ^ 32) = Some 0.
Proof.
  assert (Hsorted : Forall (fun vec => is_sorted Z.ltb vec = true)
                      (intermediateVecs wide_context)).
  { unfold wide_context. cbn [intermediateVecs].
    constructor; [apply wide_vector_sorted | constructor]. }
  assert (Hclasses : Z.of_nat (num_classes Z.ltb
                                 (concat (intermediateVecs wide_context)).*1) = 2 ^ 32).
  { unfold wide_context. cbn [intermediateVecs concat].
    rewrite app_nil_r, wide_vector_keys, num_classes_seqZ, length_seqZ.
    rewrite Z2Nat.id; lia. }
  split; [exact Hsorted |]. split; [exact Hclasses |].
  destruct (shufflePhase_shuffled Z.ltb Z_ltb_swo (shuffle_fuel wide_context)
              wide_context) as (c' & gs & Hrun & Hsh).
  { unfold shuffle_fuel. lia. }
  pose proof (shuffled_count_classes Z.ltb Z_ltb_swo wide_context c' gs Hsorted Hsh)
    as Hlen.
  destruct Hsh as (_ & _ & _ & _ & Hcount & _ & _ & _ & _ & Hnext & _).
  change (shuffleCounter wide_context) with 0 in Hcount.
  change (nextReduceIndex wide_context) with 0 in Hnext.
  rewrite shuffleCounter_iter in Hcount by lia.
  exists c'. split; [exact Hrun |]. split; [lia |]. split.
  - intros client_reduce sched.
    apply (never_out_of_range_run client_reduce sched).
    unfold never_out_of_range. cbn [rs_context rs_pcs enterReduce with_stateManager
      shuffleCounter nextReduceIndex replicate].
    split; [lia |]. split; [lia |]. reflexivity.
  - apply (reduce_rounds_repeat (enterReduce c')).
    + cbn [enterReduce with_stateManager nextReduceIndex]. lia.
    + cbn [enterReduce with_stateManager shuffleCounter]. lia.
Qed.
(** * Part VI: the map phase *)

Section AlterFacts.

Context {A : Type}.

Lemma concat_alter_Permutation (f : list A -> list A) (i : nat) (ls : list (list A)) :
  (forall l, f l ≡ₚ l) -> concat (alter f i ls) ≡ₚ concat ls.
Proof.
  intros Hf. revert i. induction ls as [| l ls IH]; intros i; [done |].
  destruct i as [| i]; csimpl.
  - by rewrite Hf.
  - by rewrite IH.
Qed.

Lemma concat_alter_app (extra : list A) (i : nat) (ls : list (list A)) :
  (i < length ls)%nat ->
  concat (alter (fun l => l ++ extra) i ls) ≡ₚ concat ls ++ extra.
Proof.
  revert i. induction ls as [| l ls IH]; intros i Hi; [simpl in Hi; lia |].
  destruct i as [| i]; csimpl.
  - rewrite <- !app_assoc. apply Permutation_app_head, Permutation_app_comm.
  - simpl in Hi. rewrite IH by lia. by rewrite app_assoc.
Qed.

Lemma alter_alter (f g : A -> A) (i : nat) (l : list A) :
  alter f i (alter g i l) = alter (fun x => f (g x)) i l.
Proof.
  revert i. induction l as [| a l IH]; intros [| i]; csimpl; try done.
  by rewrite IH.
Qed.

End AlterFacts.

Section MapPhase.

Context {K1 V1 K2 V2 K3 V3 : Type}.
Variable lt2 : K2 -> K2 -> bool.
Variable client_map : K1 * V1 -> list (K2 * V2).
Variable std_sort : list (K2 * V2) -> list (K2 * V2).
Hypothesis Hsort : sorts lt2 std_sort.

Local Abbreviation Ctx := (@JobContext K1 V1 K2 V2 K3 V3).
Local Abbreviation step := (mapPhase_step client_map std_sort).

Variable c0 : Ctx.
Variable nThreads : nat.
Hypothesis Hfits : Z.of_nat (length (inputVec c0)) + Z.of_nat nThreads <= 2 ^ 32.

Local Abbreviation inv := (map_inv lt2 client_map c0 nThreads).
Local Abbreviation measure := (@map_measure K1 V1 K2 V2 K3 V3 c0 nThreads).
Local Abbreviation size := (length (inputVec c0)).

Lemma emit2_foldl (tid : nat) (c : Ctx) (emitted : list (K2 * V2)) :
  foldl (emit2 tid) c emitted
  = with_intermediateVecs (alter (fun vec => vec ++ emitted) tid) c.
Proof.
  revert c. induction emitted as [| kv emitted IH]; intros c.
  - destruct c. unfold with_intermediateVecs. simpl. f_equal.
    symmetry. apply list_alter_id. intros vec. apply app_nil_r.
  - simpl. rewrite IH. destruct c. unfold emit2, with_intermediateVecs. simpl.
    f_equal. rewrite alter_alter. apply list_alter_ext; [| done].
    intros vec _. by rewrite <- app_assoc.
Qed.

Lemma map_exited_le (pc : MapPc) : (map_exited pc <= 1)%nat.
Proof. destruct pc; simpl; lia. Qed.

Lemma map_finished_exited (pcs : list MapPc) :
  map_finished pcs = true ->
  sum_list (map_exited <$> pcs) = length pcs
  /\ forall tid, (tid < length pcs)%nat -> pcs !! tid = Some MapExit.
Proof.
  induction pcs as [| pc pcs IH]; csimpl.
  - split; [done |]. intros tid Htid. lia.
  - destruct pc; try done. intros Hrest.
    destruct (IH Hrest) as (-> & Hall). split; [done |].
    intros [| tid] Htid; [done |]. apply Hall. simpl in Htid. lia.
Qed.

Lemma map_not_finished (pcs : list MapPc) :
  map_finished pcs = false ->
  exists tid pc, pcs !! tid = Some pc /\ map_exited pc = O.
Proof.
  induction pcs as [| pc pcs IH]; simpl; [done |].
  destruct pc.
  - intros _. by exists O, MapEntry.
  - intros _. by exists O, MapLoop.
  - intros Hrest. destruct (IH Hrest) as (tid & pc & Hpc & Hex).
    by exists (S tid), pc.
Qed.

(** Every step keeps the invariant, and a step of a worker that has not
    left its loop uses up one unit of the measure. *)
Lemma mapPhase_step_inv (k : nat) (s : Ctx * list MapPc) (tid : nat) :
  inv k s ->
  exists k',
    inv k' (step s tid)
    /\ (forall pc, s.2 !! tid = Some pc -> map_exited pc = O ->
        S (measure k' (step s tid)) = measure k s).
Proof.
  intros (Hnext & Hk & Hperm & Hsorted & Hlv & Hlp & Hin & Hout & Hj & Hsd & Hsc & Hnr).
  destruct s as [c pcs]. simpl in *.
  unfold mapPhase_step.
  destruct (pcs !! tid) as [pc |] eqn:Hpc.
  2: { exists k. split; [by repeat split | done]. }
  pose proof (sum_list_fmap_insert map_exited pcs tid pc) as Hexi.
  pose proof (sum_list_fmap_insert map_at_entry pcs tid pc) as Hent.
  pose proof (sum_list_fmap_le map_exited pcs map_exited_le) as Hle.
  pose proof (lookup_lt_Some _ _ _ Hpc) as Htid.
  destruct pc.
  - (* entry of [mapPhase] *)
    specialize (Hexi MapLoop Hpc). specialize (Hent MapLoop Hpc).
    simpl in Hexi, Hent.
    exists k. split.
    + unfold map_inv. cbn [fst snd].
      destruct (decide (tid = THREAD_ZERO)); ctx_simpl.
      all: split; [done |].
      all: split;
        [ destruct (decide (sum_list (map_exited <$> pcs) = O));
          destruct (decide (sum_list (map_exited <$> <[tid:=MapLoop]> pcs) = O)); lia |].
      all: split; [done |].
      all: split;
        [ intros tid' vec Hex Hvec; apply (Hsorted tid' vec); [| done];
          destruct (decide (tid = tid')) as [<- | Hne];
          [ rewrite list_lookup_insert_eq in Hex by done; done
          | by rewrite list_lookup_insert_ne in Hex by done ] |].
      all: split; [done |].
      all: split; [by rewrite length_insert |].
      all: by repeat split.
    + intros _ _ _. unfold map_measure. cbn [fst snd]. lia.
  - (* one iteration of the loop *)
    pose proof (sum_list_fmap_lt map_exited pcs tid MapLoop
                  map_exited_le Hpc eq_refl) as Hlt.
    assert (Hsmall : 0 <= Z.of_nat k < 2 ^ 32).
    { destruct (decide (sum_list (map_exited <$> pcs) = O)); lia. }
    assert (Hwrap : wrap32 (Z.of_nat k) = Z.of_nat k) by (by apply Z.mod_small).
    cbv zeta. rewrite Hnext, Hin, !Hwrap.
    destruct (Z.leb_spec (Z.of_nat size) (Z.of_nat k)) as [Hge | Hlow].
    + (* out of range: sort and leave *)
      specialize (Hexi MapExit Hpc). specialize (Hent MapExit Hpc).
      simpl in Hexi, Hent.
      exists (S k). split.
      * unfold map_inv. cbv zeta.
        replace (S k `min` size)%nat with (k `min` size)%nat by lia.
        unfold sortPhase. ctx_simpl.
        split; [by rewrite Nat2Z.inj_succ |].
        split.
        { destruct (decide (sum_list (map_exited <$> pcs) = O));
            destruct (decide (sum_list (map_exited <$> <[tid:=MapExit]> pcs) = O));
            lia. }
        split.
        { rewrite concat_alter_Permutation; [done |]. intros l. apply Hsort. }
        split.
        { intros tid' vec Hex Hvec.
          destruct (decide (tid = tid')) as [<- | Hne].
          - rewrite list_lookup_alter_eq in Hvec.
            destruct (intermediateVecs c !! tid) as [vec0 |]; [| done].
            injection Hvec as <-. apply Hsort.
          - rewrite list_lookup_alter_ne in Hvec by done.
            rewrite list_lookup_insert_ne in Hex by done.
            by apply (Hsorted tid' vec). }
        split; [by rewrite length_alter |].
        split; [by rewrite length_insert |].
        by repeat split.
      * intros _ _ _. unfold map_measure.
        replace (S k `min` size)%nat with (k `min` size)%nat by lia.
        cbn [fst snd]. lia.
    + (* in range: [client.map] is called on the input pair *)
      assert (Hzero : sum_list (map_exited <$> pcs) = O).
      { destruct (decide (sum_list (map_exited <$> pcs) = O)); lia. }
      rewrite Nat2Z.id.
      destruct (lookup_lt_is_Some_2 (inputVec c0) k ltac:(lia)) as [p Hp].
      rewrite Hp. rewrite emit2_foldl.
      exists (S k). split.
      * replace (k `min` size)%nat with k in * by lia.
        unfold map_inv. cbv zeta.
        replace (S k `min` size)%nat with (S k) by lia.
        ctx_simpl.
        split; [by rewrite Nat2Z.inj_succ |].
        split; [rewrite Hzero; simpl; lia |].
        split.
        { rewrite (take_S_r _ _ _ Hp), fmap_app, concat_app. simpl.
          rewrite app_nil_r, <- Hperm. apply concat_alter_app. lia. }
        split.
        { intros tid' vec Hex Hvec.
          destruct (decide (tid = tid')) as [<- | Hne]; [congruence |].
          rewrite list_lookup_alter_ne in Hvec by done.
          by apply (Hsorted tid' vec). }
        split; [by rewrite length_alter |].
        by repeat split.
      * intros _ _ _. unfold map_measure.
        replace (S k `min` size)%nat with (S k) by lia.
        replace (k `min` size)%nat with k in * by lia.
        cbn [fst snd]. lia.
  - (* the worker has left the loop *)
    exists k. split; [by repeat split |].
    intros pc [= <-] Hex. simpl in Hex. lia.
Qed.

Lemma mapPhase_steps_inv (sched : list nat) (k : nat) (s : Ctx * list MapPc) :
  inv k s -> exists k', inv k' (foldl step s sched).
Proof.
  revert k s. induction sched as [| tid sched IH]; intros k s Hinv; simpl.
  - by exists k.
  - destruct (mapPhase_step_inv k s tid Hinv) as (k' & Hinv' & _).
    by apply (IH k').
Qed.

Lemma map_inv_init :
  (1 <= nThreads)%nat ->
  nextInputIndex c0 = 0 ->
  intermediateVecs c0 = replicate nThreads [] ->
  inv O (c0, MapEntry :: replicate (nThreads - 1) MapLoop).
Proof.
  intros Hpos Hnext Hvecs. unfold map_inv. cbn [fst snd].
  assert (Hsum : sum_list (map_exited <$> (MapEntry :: replicate (nThreads - 1) MapLoop))
                 = O).
  { csimpl. rewrite sum_list_fmap_replicate. simpl. lia. }
  rewrite Hsum, Hvecs, length_replicate.
  cbn [length]. rewrite length_replicate.
  split; [done |]. split; [simpl; lia |].
  split.
  { simpl. clear. induction nThreads; simpl; done. }
  split.
  { intros [| tid] vec Hex; [done |].
    simpl in Hex. apply lookup_replicate in Hex as [? _]. done. }
  split; [done |]. split; [lia |]. by repeat split.
Qed.

(** At the first barrier: every input pair has been mapped exactly once
    into some worker's vector, and every vector is sorted. *)
Lemma map_inv_finished (k : nat) (s : Ctx * list MapPc) :
  (1 <= nThreads)%nat ->
  inv k s ->
  map_finished s.2 = true ->
  concat (intermediateVecs s.1) ≡ₚ concat (client_map <$> inputVec c0)
  /\ Forall (fun vec => is_sorted lt2 vec = true) (intermediateVecs s.1)
  /\ length (joined s.1) = length (joined c0)
  /\ outputVec s.1 = outputVec c0
  /\ shuffledData s.1 = shuffledData c0
  /\ shuffleCounter s.1 = shuffleCounter c0
  /\ nextReduceIndex s.1 = nextReduceIndex c0.
Proof.
  intros Hpos (Hnext & Hk & Hperm & Hsorted & Hlv & Hlp & Hin & Hout & Hj & Hsd
               & Hsc & Hnr) Hfin.
  destruct (map_finished_exited _ Hfin) as (Hex & Hall).
  rewrite Hex, Hlp in Hk.
  destruct (decide (nThreads = O)); [lia |].
  replace (k `min` size)%nat with size in * by lia.
  rewrite firstn_all in Hperm.
  split; [done |]. split.
  { apply Forall_lookup. intros tid vec Hvec.
    apply (Hsorted tid vec); [| done].
    apply Hall. apply lookup_lt_Some in Hvec. lia. }
  by rewrite Hj.
Qed.

Lemma map_progress (n : nat) (k : nat) (s : Ctx * list MapPc) :
  inv k s -> (measure k s <= n)%nat ->
  exists sched, map_finished (foldl step s sched).2 = true.
Proof.
  revert k s. induction n as [| n IH]; intros k s Hinv Hm.
  - destruct (map_finished s.2) eqn:Hfin; [by exists [] |].
    destruct (map_not_finished _ Hfin) as (tid & pc & Hpc & Hex).
    destruct (mapPhase_step_inv k s tid Hinv) as (k' & _ & Hdec).
    specialize (Hdec pc Hpc Hex). lia.
  - destruct (map_finished s.2) eqn:Hfin; [by exists [] |].
    destruct (map_not_finished _ Hfin) as (tid & pc & Hpc & Hex).
    destruct (mapPhase_step_inv k s tid Hinv) as (k' & Hinv' & Hdec).
    specialize (Hdec pc Hpc Hex).
    destruct (IH k' (step s tid) Hinv' ltac:(lia)) as [sched Hsched].
    by exists (tid :: sched).
Qed.

(** The map phase, from thread creation to the first barrier. *)
Lemma mapPhase_run_spec :
  (1 <= nThreads)%nat ->
  nextInputIndex c0 = 0 ->
  intermediateVecs c0 = replicate nThreads [] ->
  (exists sched,
     map_finished (mapPhase_run client_map std_sort sched c0 nThreads).2 = true)
  /\ forall sched,
       let s := mapPhase_run client_map std_sort sched c0 nThreads in
       map_finished s.2 = true ->
       concat (intermediateVecs s.1) ≡ₚ concat (client_map <$> inputVec c0)
       /\ Forall (fun vec => is_sorted lt2 vec = true) (intermediateVecs s.1)
       /\ length (joined s.1) = length (joined c0)
       /\ outputVec s.1 = outputVec c0
       /\ shuffledData s.1 = shuffledData c0
       /\ shuffleCounter s.1 = shuffleCounter c0
       /\ nextReduceIndex s.1 = nextReduceIndex c0.
Proof.
  intros Hpos Hnext Hvecs.
  pose proof (map_inv_init Hpos Hnext Hvecs) as Hinit.
  split.
  - by apply (map_progress _ O _ Hinit (le_n _)).
  - intros sched s Hfin. subst s. unfold mapPhase_run in *.
    destruct (mapPhase_steps_inv sched O _ Hinit) as (k & Hinv).
    by apply (map_inv_finished k).
Qed.

End MapPhase.
(** * Part VII: the whole job *)

Section GroupingUnique.

Context {K2 V2 : Type}.
Variable lt2 : K2 -> K2 -> bool.
Hypothesis Hswo : StrictWeakOrder lt2.

Local Abbreviation Vec := (list (K2 * V2)).
Local Abbreviation eqv := (equivalent lt2).

Lemma filter_all (P : K2 * V2 -> Prop) `{forall x, Decision (P x)} (l : Vec) :
  Forall P l -> filter P l = l.
Proof.
  induction 1 as [| x l Hx _ IH]; [done |].
  by rewrite filter_cons_True, IH.
Qed.

Lemma filter_none (P : K2 * V2 -> Prop) `{forall x, Decision (P x)} (l : Vec) :
  Forall (fun x => ~ P x) l -> filter P l = [].
Proof.
  induction 1 as [| x l Hx _ IH]; [done |].
  by rewrite filter_cons_False, IH.
Qed.

(** The first of a sequence of descending one-class groups is made of the
    pairs of the whole sequence that are equivalent to any of its keys. *)
Lemma first_group_filter (a : K2 * V2) (g : Vec) (gs : list Vec) :
  a ∈ g ->
  one_class lt2 g ->
  descending_groups lt2 (g :: gs) ->
  filter (fun x => eqv x.1 a.1 = true) (concat (g :: gs)) = g.
Proof.
  intros Ha Hclass Hdesc.
  pose proof (one_class_indistinguishable lt2 Hswo g Hclass) as Hind.
  apply (descending_groups_cons_inv lt2) in Hdesc as [Hfirst _].
  simpl. rewrite filter_app, filter_all, filter_none; [apply app_nil_r | |].
  - apply Forall_forall. intros b Hb.
    rewrite (lt2_not_equivalent lt2 b.1 a.1 (Hfirst a b Ha Hb)). done.
  - apply Forall_forall. intros b Hb.
    apply (equivalent_spec lt2). apply (Hind b a Hb Ha).
Qed.

(** Two ways of cutting the same multiset of pairs into descending
    one-class groups agree group by group, up to the order inside a group. *)
Lemma grouping_unique (gs gs' : list Vec) :
  Forall (one_class lt2) gs -> Forall (one_class lt2) gs' ->
  descending_groups lt2 gs -> descending_groups lt2 gs' ->
  concat gs ≡ₚ concat gs' ->
  Forall2 (≡ₚ) gs gs'.
Proof.
  revert gs'. induction gs as [| g gs IH]; intros gs' Hc Hc' Hd Hd' Hperm.
  - destruct gs' as [| g' gs']; [constructor |].
    apply Forall_cons in Hc' as [[Hne _] _].
    simpl in Hperm. symmetry in Hperm. apply Permutation_nil_r in Hperm.
    by apply app_eq_nil in Hperm as [-> _].
  - apply Forall_cons in Hc as [Hg Hc].
    destruct gs' as [| g' gs'].
    { destruct Hg as [Hne _]. simpl in Hperm.
      apply Permutation_nil_r in Hperm. by apply app_eq_nil in Hperm as [-> _]. }
    apply Forall_cons in Hc' as [Hg' Hc'].
    destruct g as [| a g0] eqn:Eg; [by destruct Hg |]. rewrite <- Eg in *.
    destruct g' as [| a' g0'] eqn:Eg'; [by destruct Hg' |]. rewrite <- Eg' in *.
    assert (Ha : a ∈ g) by (rewrite Eg; apply list_elem_of_here).
    assert (Ha' : a' ∈ g') by (rewrite Eg'; apply list_elem_of_here).
    pose proof (descending_groups_cons_inv lt2 _ _ Hd) as [Hfirst Htail].
    pose proof (descending_groups_cons_inv lt2 _ _ Hd') as [Hfirst' Htail'].
    assert (Haa : eqv a'.1 a.1 = true).
    { assert (Hin : a ∈ concat (g' :: gs')).
      { rewrite <- Hperm. simpl. apply elem_of_app. by left. }
      assert (Hin' : a' ∈ concat (g :: gs)).
      { rewrite Hperm. simpl. apply elem_of_app. by left. }
      simpl in Hin, Hin'.
      apply elem_of_app in Hin as [Hin | Hin].
      - apply (equivalent_spec lt2).
        apply (one_class_indistinguishable lt2 Hswo g' Hg' a' a Ha' Hin).
      - apply elem_of_app in Hin' as [Hin' | Hin'].
        + apply (equivalent_spec lt2).
          apply (one_class_indistinguishable lt2 Hswo g Hg a' a Hin' Ha).
        + pose proof (Hfirst a a' Ha Hin') as H1.
          pose proof (Hfirst' a' a Ha' Hin) as H2.
          pose proof (lt2_asym lt2 Hswo _ _ H1). congruence. }
    assert (Hgg : g ≡ₚ g').
    { rewrite <- (first_group_filter a g gs Ha Hg Hd).
      rewrite Hperm.
      rewrite (list_filter_iff _ (fun x => eqv x.1 a'.1 = true)).
      - by rewrite (first_group_filter a' g' gs' Ha' Hg' Hd').
      - intros x. rewrite (equivalent_sym lt2 x.1 a.1), (equivalent_sym lt2 x.1 a'.1).
        by rewrite (equivalent_congr lt2 Hswo a'.1 a.1 x.1 Haa). }
    constructor; [done |].
    apply IH; try done.
    simpl in Hperm. rewrite Hgg in Hperm.
    by apply Permutation_app_inv_l in Hperm.
Qed.

Context {K3 V3 : Type}.
Variable client_reduce : list (K2 * V2) -> list (K3 * V3).

Lemma reduce_groups_Permutation (gs gs' : list Vec) :
  order_insensitive client_reduce lt2 ->
  Forall (one_class lt2) gs ->
  Forall2 (≡ₚ) gs gs' ->
  concat (client_reduce <$> gs) ≡ₚ concat (client_reduce <$> gs').
Proof.
  intros Hins Hcl Hall. induction Hall as [| g g' gs gs' Hg _ IH]; csimpl; [done |].
  apply Forall_cons in Hcl as [Hc Hcl].
  by rewrite (Hins g g' Hc Hg), IH.
Qed.

End GroupingUnique.

Section InsertionSort.

Context {V : Type}.

Lemma insert_pair_Permutation (kv : Z * V) (vec : list (Z * V)) :
  insert_pair kv vec ≡ₚ kv :: vec.
Proof.
  induction vec as [| kv' vec IH]; simpl; [done |].
  destruct (kv.1 <? kv'.1); [done |].
  rewrite IH. apply perm_swap.
Qed.

Lemma insert_pair_sorted (kv : Z * V) (vec : list (Z * V)) :
  is_sorted Z.ltb vec = true -> is_sorted Z.ltb (insert_pair kv vec) = true.
Proof.
  induction vec as [| a vec IH]; intros Hs; [done |].
  cbn [insert_pair]. destruct (Z.ltb_spec kv.1 a.1) as [Hlt | Hge].
  - cbn [is_sorted] in *. rewrite Hs, andb_true_r.
    apply negb_true_iff, Z.ltb_ge. lia.
  - destruct vec as [| b vec].
    + cbn [insert_pair is_sorted]. rewrite andb_true_r.
      apply negb_true_iff, Z.ltb_ge. lia.
    + cbn [is_sorted] in Hs. apply andb_true_iff in Hs as [Hab Hrest].
      specialize (IH Hrest). cbn [insert_pair] in *.
      destruct (Z.ltb_spec kv.1 b.1) as [Hlt' | Hge'].
      * cbn [is_sorted] in *. rewrite IH, andb_true_r.
        apply negb_true_iff, Z.ltb_ge. lia.
      * cbn [is_sorted] in *. by rewrite Hab, IH.
Qed.

Lemma insertion_sort_sorts : sorts Z.ltb (@insertion_sort V).
Proof.
  intros vec. induction vec as [| kv vec [IHp IHs]]; [done |]. simpl. split.
  - by rewrite insert_pair_Permutation, IHp.
  - by apply insert_pair_sorted.
Qed.

End InsertionSort.
Section WholeJob.

Context {K1 V1 K2 V2 K3 V3 : Type}.
Variable lt2 : K2 -> K2 -> bool.
Hypothesis Hswo : StrictWeakOrder lt2.
Variable client_map : K1 * V1 -> list (K2 * V2).
Variable client_reduce : list (K2 * V2) -> list (K3 * V3).
Variable std_sort : list (K2 * V2) -> list (K2 * V2).
Hypothesis Hsort : sorts lt2 std_sort.

Local Abbreviation Ctx := (@JobContext K1 V1 K2 V2 K3 V3).
Local Abbreviation run := (run_threads lt2 client_map client_reduce std_sort).

Variable input : list (K1 * V1).
Variable output : list (K3 * V3).
Variable nThreads : nat.
Hypothesis Hpos : (1 <= nThreads)%nat.
Hypothesis Hinput : Z.of_nat (length input) + Z.of_nat nThreads <= 2 ^ 32.
Hypothesis Hclasses :
  Z.of_nat (num_classes lt2 (concat (client_map <$> input)).*1) + Z.of_nat nThreads
  <= 2 ^ 32.

Local Abbreviation c0 := (newJobContext input output nThreads : Ctx).

(** Thread 0 between the barriers, on the vectors left by the map phase. *)
Lemma coordinator_spec (c1 : Ctx) :
  concat (intermediateVecs c1) ≡ₚ concat (client_map <$> input) ->
  Forall (fun vec => is_sorted lt2 vec = true) (intermediateVecs c1) ->
  shuffledData c1 = [] ->
  shuffleCounter c1 = 0 ->
  exists c2,
    coordinator lt2 (shuffle_fuel c1) c1 = Some c2
    /\ Forall (one_class lt2) (shuffledData c2)
    /\ descending_groups lt2 (shuffledData c2)
    /\ concat (shuffledData c2) ≡ₚ concat (client_map <$> input)
    /\ shuffleCounter c2 = Z.of_nat (length (shuffledData c2))
    /\ Z.of_nat (length (shuffledData c2)) + Z.of_nat nThreads <= 2 ^ 32
    /\ outputVec c2 = outputVec c1
    /\ nextReduceIndex c2 = nextReduceIndex c1.
Proof.
  intros Hperm Hsorted Hdata0 Hcount0.
  destruct (shufflePhase_shuffled lt2 Hswo (shuffle_fuel c1) (enterShuffle c1))
    as (c' & gs & Hrun & Hsh).
  { unfold shuffle_fuel. simpl. lia. }
  pose proof (shuffled_count_classes lt2 Hswo (enterShuffle c1) c' gs Hsorted Hsh)
    as Hlen.
  destruct Hsh as (Hdata & _ & Hperm' & Hcl & Hcount & _ & Hout & _ & _ & Hnext & Hdesc).
  simpl in Hdata, Hperm', Hcount, Hout, Hnext, Hlen.
  rewrite Hdata0 in Hdata. simpl in Hdata.
  assert (Hnum : length gs = num_classes lt2 (concat (client_map <$> input)).*1).
  { rewrite Hlen. apply (num_classes_Permutation lt2 Hswo). by rewrite Hperm. }
  rewrite Hcount0, shuffleCounter_iter in Hcount by lia.
  exists (enterReduce c'). unfold coordinator. rewrite Hrun.
  split; [done |]. simpl. rewrite Hdata.
  split; [done |].
  split; [apply Hdesc; by apply Forall_is_sorted_StronglySorted |].
  split; [by rewrite Hperm' |].
  split; [lia |]. split; [lia |]. done.
Qed.

(** A whole job: the workers can be scheduled so that every [threadFunc]
    returns, and whenever they all have returned the output vector holds
    what it held before together with what [client.reduce] emits on the
    groups of one cut of the mapped pairs into descending classes. *)
Lemma run_threads_spec :
  (exists sched c', run sched c0 = Some c')
  /\ forall sched c',
       run sched c0 = Some c' ->
       exists gs,
         Forall (one_class lt2) gs
         /\ descending_groups lt2 gs
         /\ concat gs ≡ₚ concat (client_map <$> input)
         /\ outputVec c' ≡ₚ output ++ concat (client_reduce <$> gs).
Proof.
  assert (Hfits0 : Z.of_nat (length (inputVec c0)) + Z.of_nat nThreads <= 2 ^ 32)
    by done.
  destruct (mapPhase_run_spec lt2 client_map std_sort Hsort c0 nThreads Hfits0 Hpos
              eq_refl eq_refl) as [[sm Hsm] Hmap].
  assert (Hstage : forall sm c1 pcs,
             mapPhase_run client_map std_sort sm c0 nThreads = (c1, pcs) ->
             map_finished pcs = true ->
             exists c2,
               coordinator lt2 (shuffle_fuel c1) c1 = Some c2
               /\ Forall (one_class lt2) (shuffledData c2)
               /\ descending_groups lt2 (shuffledData c2)
               /\ concat (shuffledData c2) ≡ₚ concat (client_map <$> input)
               /\ shuffleCounter c2 = Z.of_nat (length (shuffledData c2))
               /\ Z.of_nat (length (shuffledData c2)) + Z.of_nat nThreads <= 2 ^ 32
               /\ outputVec c2 = output
               /\ nextReduceIndex c2 = 0).
  { intros sm' c1 pcs Hrun Hfin.
    specialize (Hmap sm'). rewrite Hrun in Hmap.
    destruct (Hmap Hfin) as (Hperm & Hsorted & _ & Hout & Hsd & Hsc & Hnr).
    simpl in Hperm, Hsorted, Hout, Hsd, Hsc, Hnr.
    destruct (coordinator_spec c1 Hperm Hsorted Hsd Hsc)
      as (c2 & Hco & H1 & H2 & H3 & H4 & H5 & H6 & H7).
    exists c2. repeat split; try done; congruence. }
  assert (Hn : length (joined c0) = nThreads) by apply length_replicate.
  split.
  - destruct (mapPhase_run client_map std_sort sm c0 nThreads) as [c1 pcs] eqn:Hrun.
    destruct (Hstage sm c1 pcs Hrun Hsm) as (c2 & Hco & _ & _ & _ & Hcnt & Hfit & _ & Hnr).
    destruct (reducePhase_run_spec client_reduce c2 nThreads Hfit Hpos Hnr Hcnt)
      as [[sr Hsr] _].
    exists (mkSchedule sm sr). unfold run_threads. rewrite Hn. simpl.
    rewrite Hrun. simpl in Hsm. rewrite Hsm, Hco, Hsr. by eexists.
  - intros sched c' Hrun. unfold run_threads in Hrun. rewrite Hn in Hrun.
    destruct (mapPhase_run client_map std_sort (map_schedule sched) c0 nThreads)
      as [c1 pcs] eqn:Hrun1.
    destruct (map_finished pcs) eqn:Hfin; [| done].
    destruct (Hstage _ c1 pcs Hrun1 Hfin)
      as (c2 & Hco & Hcl & Hdesc & Hperm & Hcnt & Hfit & Hout & Hnr).
    rewrite Hco in Hrun.
    destruct (reduce_finished (rs_pcs (reducePhase_run client_reduce
                (reduce_schedule sched) c2 nThreads))) eqn:Hfin2; [| done].
    injection Hrun as <-.
    destruct (reducePhase_run_spec client_reduce c2 nThreads Hfit Hpos Hnr Hcnt)
      as [_ Hred].
    destruct (Hred (reduce_schedule sched) Hfin2) as [_ Hres].
    exists (shuffledData c2). rewrite Hout in Hres. done.
Qed.

End WholeJob.

Section IndependenceClaim.

Context {K1 V1 K2 V2 K3 V3 : Type}.
Variable lt2 : K2 -> K2 -> bool.
Variable client_map : K1 * V1 -> list (K2 * V2).
Variable client_reduce : list (K2 * V2) -> list (K3 * V3).
Variable std_sort : list (K2 * V2) -> list (K2 * V2).

Local Abbreviation run := (run_threads lt2 client_map client_reduce std_sort).

(** C5, for a reduce function that does not depend on the order of the
    pairs inside a group and a job within the range of the 32-bit dispatch
    counters.  With [nThreads >= 1] workers every [threadFunc] can be
    scheduled to return, and however the input indices and the groups were
    distributed among the workers, the output vector holds the same
    multiset of pairs as after a run with a single worker. *)
Theorem output_independent_of_thread_count
    (input : list (K1 * V1)) (output : list (K3 * V3)) (nThreads : nat) :
  StrictWeakOrder lt2 ->
  sorts lt2 std_sort ->
  order_insensitive client_reduce lt2 ->
  (1 <= nThreads)%nat ->
  Z.of_nat (length input) + Z.of_nat nThreads <= 2 ^ 32 ->
  Z.of_nat (num_classes lt2 (concat (client_map <$> input)).*1) + Z.of_nat nThreads
    <= 2 ^ 32 ->
  (exists sched c', run sched (newJobContext input output nThreads) = Some c')
  /\ (exists sched c1, run sched (newJobContext input output 1) = Some c1)
  /\ forall sched c' sched1 c1,
       run sched (newJobContext input output nThreads) = Some c' ->
       run sched1 (newJobContext input output 1) = Some c1 ->
       outputVec c' ≡ₚ outputVec c1.
Proof.
  intros Hswo Hsort Hins Hpos Hinput Hclasses.
  destruct (run_threads_spec lt2 Hswo client_map client_reduce std_sort Hsort
              input output nThreads Hpos Hinput Hclasses) as [Hex Hall].
  destruct (run_threads_spec lt2 Hswo client_map client_reduce std_sort Hsort
              input output 1 (le_n _) ltac:(lia) ltac:(lia)) as [Hex1 Hall1].
  split; [exact Hex |]. split; [exact Hex1 |].
  intros sched c' sched1 c1 Hrun Hrun1.
  destruct (Hall _ _ Hrun) as (gs & Hcl & Hdesc & Hperm & Hout).
  destruct (Hall1 _ _ Hrun1) as (gs1 & Hcl1 & Hdesc1 & Hperm1 & Hout1).
  rewrite Hout, Hout1. apply Permutation_app_head.
  apply (reduce_groups_Permutation lt2 client_reduce gs gs1 Hins Hcl).
  apply (grouping_unique lt2 Hswo gs gs1 Hcl Hcl1 Hdesc Hdesc1).
  by rewrite Hperm, Hperm1.
Qed.

End IndependenceClaim.

Lemma foldr_add_Permutation (l l' : list Z) :
  l ≡ₚ l' -> foldr Z.add 0 l = foldr Z.add 0 l'.
Proof.
  induction 1 as [| x l l' _ IH | x y l | l l' l'' _ IH1 _ IH2]; simpl; lia.
Qed.

Lemma sum_reduce_order_insensitive : order_insensitive sum_reduce Z.ltb.
Proof.
  intros g g' Hclass Hperm. unfold sum_reduce.
  destruct g as [| a g0] eqn:Eg.
  { apply Permutation_nil_l in Hperm. by subst g'. }
  destruct g' as [| a' g0'] eqn:Eg'.
  { by apply Permutation_nil_r in Hperm. }
  assert (Ha' : a' ∈ a :: g0) by (rewrite Hperm; apply list_elem_of_here).
  destruct (one_class_indistinguishable Z.ltb Z_ltb_swo _ Hclass a a'
              ltac:(apply list_elem_of_here) Ha') as [H1 H2].
  apply Z.ltb_ge in H1, H2.
  replace a'.1 with a.1 by lia.
  by rewrite (foldr_add_Permutation _ _ (fmap_Permutation snd _ _ Hperm)).
Qed.

Lemma output_independent_of_thread_count_witness :
  let run := run_threads Z.ltb digits_map sum_reduce insertion_sort in
  let input := [(12, tt); (21, tt); (11, tt)] in
  (exists sched c', run sched (newJobContext input [] 2) = Some c')
  /\ (exists sched c1, run sched (newJobContext input [] 1) = Some c1)
  /\ forall sched c' sched1 c1,
       run sched (newJobContext input [] 2) = Some c' ->
       run sched1 (newJobContext input [] 1) = Some c1 ->
       outputVec c' ≡ₚ outputVec c1.
Proof.
  apply (output_independent_of_thread_count Z.ltb digits_map sum_reduce
           insertion_sort [(12, tt); (21, tt); (11, tt)] [] 2
           Z_ltb_swo insertion_sort_sorts sum_reduce_order_insensitive).
  - lia.
  - simpl. lia.
  - vm_compute. discriminate.
Defined.

(** Two runs of the digit-counting job of the witness, evaluated. *)
Example example_job_two_workers :
  outputVec <$> run_threads Z.ltb digits_map sum_reduce insertion_sort
                  (mkSchedule [0; 1; 0; 1; 0; 1]%nat [1; 0; 1; 0; 1; 0; 1; 0]%nat)
                  (newJobContext [(12, tt); (21, tt); (11, tt)] [] 2)
  = Some [(2, 2); (1, 4)].
Proof. vm_compute. reflexivity. Qed.

(** A reduce that emits the first pair of its group depends on how the
    input indices were distributed.  With two workers the output is one
    pair when worker 1 maps the first input pair and worker 0 the second,
    and another pair when the indices are fetched the other way round (the
    vectors hold one pair each, so sorting plays no part); the output of a
    single worker cannot be equal to both, and here it differs from the
    first. *)
Lemma order_sensitive_reduce_counterexample :
  let run := run_threads Z.ltb tag_map first_reduce insertion_sort in
  let input := [(1, tt); (2, tt)] in
  outputVec <$> run (mkSchedule [0; 1; 0; 0; 1]%nat [0; 0; 0; 0; 1]%nat)
                  (newJobContext input [] 2)
  = Some [(0, 2)]
  /\ outputVec <$> run (mkSchedule [0; 0; 1; 0; 1]%nat [0; 0; 0; 0; 1]%nat)
                     (newJobContext input [] 2)
     = Some [(0, 1)]
  /\ outputVec <$> run (mkSchedule [0; 0; 0; 0]%nat [0; 0; 0; 0]%nat)
                     (newJobContext input [] 1)
     = Some [(0, 1)]
  /\ ~ ([(0, 2)] ≡ₚ [(0, 1)]).
Proof.
  split; [vm_compute; reflexivity |].
  split; [vm_compute; reflexivity |].
  split; [vm_compute; reflexivity |].
  intros Hperm. apply Permutation_singleton_inj in Hperm. discriminate.
Qed.
(** * Part VIII: stage transitions and the job handle *)

Section ShuffleEntryFacts.

Context {K1 V1 K2 V2 K3 V3 : Type}.
Variable lt2 : K2 -> K2 -> bool.

Local Abbreviation Ctx := (@JobContext K1 V1 K2 V2 K3 V3).

Lemma totalPairs_fold (vecs : list (list (K2 * V2))) (acc : Z) :
  foldl (fun total vec => wrap64 (total + Z.of_nat (length vec))) (wrap64 acc) vecs
  = wrap64 (acc + Z.of_nat (length (concat vecs))).
Proof.
  revert acc. induction vecs as [| vec vecs IH]; intros acc; simpl.
  - by rewrite Z.add_0_r.
  - assert (Hidem : wrap64 (wrap64 acc + Z.of_nat (length vec))
                    = wrap64 (acc + Z.of_nat (length vec))).
    { unfold wrap64. apply Zplus_mod_idemp_l. }
    rewrite Hidem, IH, length_app, Nat2Z.inj_add. f_equal. lia.
Qed.

(** [totalPairs] is the number of pairs in all the vectors, as a [size_t]. *)
Lemma totalPairs_length (vecs : list (list (K2 * V2))) :
  totalPairs vecs = wrap64 (Z.of_nat (length (concat vecs))).
Proof. apply (totalPairs_fold vecs 0). Qed.

Lemma mod_32_31 (x : Z) : (x mod 2 ^ 64 mod 2 ^ 32) mod 2 ^ 31 = x mod 2 ^ 31.
Proof.
  rewrite (Z.mod_mod_divide (x mod 2 ^ 64) (2 ^ 32) (2 ^ 31)) by (exists 2; lia).
  apply Z.mod_mod_divide. exists (2 ^ 33). lia.
Qed.

(** C8, as the code does it.  The progress word enters the shuffle stage
    in two atomic updates, not one.  [setStage] first leaves a word that
    decodes to [(SHUFFLE_STAGE, 0, t)] where [t] is the total the word held
    before (in the map stage, the input size); [setTotal] then leaves a
    word that decodes to [(SHUFFLE_STAGE, 0, n mod 2^31)] where [n] is the
    number of pairs in all the per-worker vectors, and the shuffle loop
    starts from that word. *)
Theorem shuffle_stage_entered_in_two_updates (fuel : nat) (c : Ctx) :
  exists w1 w2,
    shuffle_entry_words c = [w1; w2]
    /\ JobStateManager.getState w1
       = (SHUFFLE_STAGE, 0, JobStateManager.decodeTotal (stateManager c))
    /\ JobStateManager.getState w2
       = (SHUFFLE_STAGE, 0, Z.of_nat (length (concat (intermediateVecs c))) mod 2 ^ 31)
    /\ shufflePhase lt2 fuel (enterShuffle c)
       = shuffle_loop lt2 fuel (with_stateManager (fun _ => w2) (enterShuffle c)).
Proof.
  eexists _, _. split; [reflexivity |].
  split; [apply getState_setStage |].
  split; [| reflexivity].
  rewrite getState_setTotal. cbn [enterShuffle with_stateManager stateManager
                                    intermediateVecs].
  pose proof (getState_setStage SHUFFLE_STAGE (stateManager c)) as Hst.
  unfold JobStateManager.getState in Hst. injection Hst as -> _ _.
  rewrite totalPairs_length. unfold wrap32, wrap64. by rewrite mod_32_31.
Qed.

End ShuffleEntryFacts.

(** After the map phase of a job with one input pair that was mapped to two
    intermediate pairs, the first word stored on the way into the shuffle
    stage already shows the stage [SHUFFLE_STAGE] but still the total [1] of
    the map stage, not the [2] pairs to shuffle. *)
Lemma shuffle_stage_with_map_total_counterexample :
  JobStateManager.getState (stateManager example_mapped_context) = (MAP_STAGE, 1, 1)
  /\ length (concat (intermediateVecs example_mapped_context)) = 2%nat
  /\ exists w1 w2,
       shuffle_entry_words example_mapped_context = [w1; w2]
       /\ JobStateManager.getState w1 = (SHUFFLE_STAGE, 0, 1)
       /\ JobStateManager.getState w2 = (SHUFFLE_STAGE, 0, 2).
Proof.
  split; [vm_compute; reflexivity |].
  split; [vm_compute; reflexivity |].
  eexists _, _. split; [reflexivity |].
  split; vm_compute; reflexivity.
Qed.

Section NullHandle.

Context {K1 V1 K2 V2 K3 V3 : Type}.
Variable lt2 : K2 -> K2 -> bool.
Variable client_map : K1 * V1 -> list (K2 * V2).
Variable client_reduce : list (K2 * V2) -> list (K3 * V3).
Variable std_sort : list (K2 * V2) -> list (K2 * V2).

Local Abbreviation Ctx := (@JobContext K1 V1 K2 V2 K3 V3).

(** On a non-empty input [startMapReduceJob] does create job state: a new
    context at an address that was not in use. *)
Lemma startMapReduceJob_nonempty (p : K1 * V1) (input : list (K1 * V1))
    (output : list (K3 * V3)) (multiThreadLevel : nat) (heap : gmap nat Ctx) :
  exists address,
    startMapReduceJob (p :: input) output multiThreadLevel heap
    = (Some address,
       <[address := newJobContext (p :: input) output multiThreadLevel]> heap)
    /\ heap !! address = None.
Proof.
  exists (fresh (dom heap)). split; [done |].
  apply not_elem_of_dom. apply is_fresh.
Qed.

(** C9.  Whatever the client, the output vector, the thread count and the
    heap of live jobs: [startMapReduceJob] on an empty input returns the
    null handle and leaves the heap as it was; [getJobState] on the null
    handle writes the stage [REDUCE_STAGE] and the percentage [100]; and
    [waitForJob] and [closeJobHandle] on the null handle return with the
    heap unchanged. *)
Theorem empty_input_and_null_handle (output : list (K3 * V3)) (multiThreadLevel : nat)
    (heap : gmap nat Ctx) (sched : Schedule) :
  startMapReduceJob [] output multiThreadLevel heap = (None, heap)
  /\ getJobState None heap = Some (mkJobState REDUCE_STAGE 100%Q)
  /\ waitForJob lt2 client_map client_reduce std_sort sched None heap = Some heap
  /\ closeJobHandle lt2 client_map client_reduce std_sort sched None heap = Some heap.
Proof. repeat split. Qed.

End NullHandle.
(** * Part IX: further properties of the progress word *)

Section ProgressWordOperations.
Import JobStateManager.

(** X1.  [updateState] keeps the low 31 bits of the counts it is given: a
    [getState] that follows it returns the stage, [processed mod 2^31] and
    [total mod 2^31], whatever the word held before.  Counts of [2^31] and
    more therefore lose their top bit. *)
Theorem updateState_keeps_31_bits (s : stage_t) (p t w : Z) :
  getState (updateState s p t w) = (s, p mod 2 ^ 31, t mod 2 ^ 31)
  /\ 0 <= updateState s p t w < 2 ^ 64.
Proof.
  unfold updateState. split; [apply getState_encodeState | apply encodeState_range].
Qed.

(** X2.  [setStage] stores the new stage, resets the processed count to 0
    and keeps the total of the word it replaces. *)
Theorem setStage_resets_processed (s : stage_t) (w : Z) :
  decodeStage (setStage s w) = s
  /\ decodeProcessed (setStage s w) = 0
  /\ decodeTotal (setStage s w) = decodeTotal w.
Proof.
  pose proof (getState_setStage s w) as Hget.
  unfold getState in Hget. by injection Hget.
Qed.

(** X3.  [setTotal] keeps the stage of the word it replaces, resets the
    processed count to 0 and stores the low 31 bits of the new total; a
    total below [2^31] is stored as it is. *)
Theorem setTotal_resets_processed (t w : Z) :
  decodeStage (setTotal t w) = decodeStage w
  /\ decodeProcessed (setTotal t w) = 0
  /\ decodeTotal (setTotal t w) = t mod 2 ^ 31
  /\ (0 <= t < 2 ^ 31 -> decodeTotal (setTotal t w) = t).
Proof.
  pose proof (getState_setTotal t w) as Hget.
  unfold getState in Hget. injection Hget as Hs Hp Ht.
  repeat split; try done.
  intros Hrange. rewrite Ht. by apply Z.mod_small.
Qed.

Lemma getState_incrementProcessed_iter (n : nat) (w : Z) :
  getState (Nat.iter n incrementProcessed w)
  = (decodeStage w, (decodeProcessed w + Z.of_nat n) mod 2 ^ 31, decodeTotal w).
Proof.
  induction n as [| n IH].
  - simpl. rewrite Z.add_0_r. unfold getState.
    pose proof (decodeProcessed_range w).
    rewrite (Z.mod_small (decodeProcessed w)) by lia. reflexivity.
  - rewrite Nat.iter_succ, getState_incrementProcessed.
    unfold getState in IH. injection IH as -> -> ->.
    f_equal. f_equal.
    rewrite Zplus_mod_idemp_l, Nat2Z.inj_succ. f_equal. lia.
Qed.

(** X4.  [n] calls of [incrementProcessed] add [n] to the decoded processed
    count modulo [2^31] and leave the stage and the total alone: the count
    comes back to its start after [2^31] calls. *)
Theorem incrementProcessed_n_times (n : nat) (w : Z) :
  decodeStage (Nat.iter n incrementProcessed w) = decodeStage w
  /\ decodeProcessed (Nat.iter n incrementProcessed w)
     = (decodeProcessed w + Z.of_nat n) mod 2 ^ 31
  /\ decodeTotal (Nat.iter n incrementProcessed w) = decodeTotal w.
Proof.
  pose proof (getState_incrementProcessed_iter n w) as Hget.
  unfold getState in Hget. by injection Hget.
Qed.

End ProgressWordOperations.
(** * Part X: further properties of the shuffle *)

Section ShuffleProgress.

Context {K1 V1 K2 V2 K3 V3 : Type}.
Variable lt2 : K2 -> K2 -> bool.

Local Abbreviation Vec := (list (K2 * V2)).
Local Abbreviation Ctx := (@JobContext K1 V1 K2 V2 K3 V3).
Local Abbreviation incr := JobStateManager.incrementProcessed.

(** The inner loop calls [incrementProcessed] once per pair it moves. *)
Lemma collect_loop_state (n : nat) (m : K2) (vec group : Vec) (state : Z) :
  let r := collect_loop lt2 n m vec group state in
  (length group <= length r.1.2)%nat
  /\ r.2 = Nat.iter (length r.1.2 - length group) incr state.
Proof.
  revert vec group state. induction n as [| n IH]; intros vec group state.
  - simpl. split; [done |]. by rewrite Nat.sub_diag.
  - simpl. destruct (back vec) as [kv |].
    + destruct (negb (lt2 kv.1 m) && negb (lt2 m kv.1)).
      * destruct (IH (pop_back vec) (group ++ [kv]) (incr state)) as [Hle Hst].
        rewrite length_app in Hle. simpl in Hle.
        split; [lia |]. rewrite Hst, <- Nat.iter_succ_r.
        f_equal. rewrite length_app. cbn [length]. lia.
      * simpl. split; [done |]. by rewrite Nat.sub_diag.
    + simpl. split; [done |]. by rewrite Nat.sub_diag.
Qed.

Lemma collect_all_state (m : K2) (vecs : list Vec) (group : Vec) (state : Z) :
  let r := collect_all lt2 m vecs group state in
  (length group <= length r.1.2)%nat
  /\ r.2 = Nat.iter (length r.1.2 - length group) incr state.
Proof.
  revert group state. induction vecs as [| vec vecs IH]; intros group state.
  - simpl. split; [done |]. by rewrite Nat.sub_diag.
  - simpl.
    pose proof (collect_loop_state (length vec) m vec group state) as Hloop.
    destruct (collect_loop lt2 (length vec) m vec group state) as [[vec' g1] st1].
    simpl in Hloop. destruct Hloop as [Hle1 Hst1].
    pose proof (IH g1 st1) as Hrest.
    destruct (collect_all lt2 m vecs g1 st1) as [[vecs' g2] st2].
    simpl in Hrest. destruct Hrest as [Hle2 Hst2]. simpl.
    split; [lia |]. rewrite Hst2, Hst1, <- Nat.iter_add. f_equal. lia.
Qed.

(** The loop of [shufflePhase] calls [incrementProcessed] once per pair of
    the vectors. *)
Lemma shuffle_loop_state (fuel : nat) (c c' : Ctx) :
  shuffle_loop lt2 fuel c = Some c' ->
  stateManager c'
  = Nat.iter (length (concat (intermediateVecs c))) incr (stateManager c).
Proof.
  revert c. induction fuel as [| fuel IH]; intros c Hrun; [done |].
  simpl in Hrun. destruct (find_max lt2 (intermediateVecs c)) as [m |] eqn:Hmax.
  - destruct (collect_all_drained lt2 m (intermediateVecs c) [] (stateManager c))
      as (vecs' & moveds & state' & Hc & Hdr).
    pose proof (collect_all_state m (intermediateVecs c) [] (stateManager c)) as Hst.
    rewrite Hc in Hst, Hrun. simpl in Hst, Hrun. destruct Hst as [_ Hst].
    rewrite Nat.sub_0_r in Hst.
    apply IH in Hrun. simpl in Hrun. rewrite Hrun, Hst, <- Nat.iter_add.
    f_equal. pose proof (drained_Permutation lt2 m _ _ _ Hdr) as Hperm.
    apply Permutation_length in Hperm. rewrite length_app in Hperm. lia.
  - injection Hrun as <-. apply find_max_None in Hmax.
    by rewrite (concat_all_nil _ Hmax).
Qed.

Hypothesis Hswo : StrictWeakOrder lt2.

(** X5.  Given more fuel than pairs, [shufflePhase] returns with a progress
    word in which the processed count has caught up with the total: both are
    the number of intermediate pairs modulo [2^31], and the stage is the one
    the word had on entry. *)
Theorem shufflePhase_ends_complete (fuel : nat) (c : Ctx) :
  (length (concat (intermediateVecs c)) < fuel)%nat ->
  exists c',
    shufflePhase lt2 fuel c = Some c'
    /\ JobStateManager.getState (stateManager c')
       = (JobStateManager.decodeStage (stateManager c),
          Z.of_nat (length (concat (intermediateVecs c))) mod 2 ^ 31,
          Z.of_nat (length (concat (intermediateVecs c))) mod 2 ^ 31).
Proof.
  intros Hfuel.
  destruct (shufflePhase_shuffled lt2 Hswo fuel c Hfuel) as (c' & gs & Hrun & _).
  exists c'. split; [exact Hrun |].
  unfold shufflePhase in Hrun. apply shuffle_loop_state in Hrun.
  cbn [with_stateManager stateManager intermediateVecs] in Hrun.
  rewrite Hrun, getState_incrementProcessed_iter.
  pose proof (getState_setTotal (wrap32 (totalPairs (intermediateVecs c)))
                (stateManager c)) as Hget.
  unfold JobStateManager.getState in Hget. injection Hget as -> -> ->.
  rewrite totalPairs_length. unfold wrap32, wrap64. rewrite mod_32_31.
  by rewrite Z.add_0_l.
Qed.

(** X6.  [shufflePhase] never appends an empty group. *)
Theorem shuffle_groups_nonempty (fuel : nat) (c : Ctx) :
  (length (concat (intermediateVecs c)) < fuel)%nat ->
  exists c' gs,
    shufflePhase lt2 fuel c = Some c'
    /\ shuffledData c' = shuffledData c ++ gs
    /\ Forall (fun g => g <> []) gs.
Proof.
  intros Hfuel.
  destruct (shufflePhase_shuffled lt2 Hswo fuel c Hfuel)
    as (c' & gs & Hrun & Hdata & _ & _ & Hclasses & _).
  exists c', gs. do 2 (split; [done |]).
  eapply Forall_impl; [exact Hclasses |]. by intros g [Hne _].
Qed.

(** X7.  For sorted vectors, all the pairs with a given key are in a single
    group: two pairs with equivalent keys are never put into different
    groups. *)
Theorem shuffle_gathers_equivalent_keys (fuel : nat) (c : Ctx) :
  Forall (fun vec => is_sorted lt2 vec = true) (intermediateVecs c) ->
  (length (concat (intermediateVecs c)) < fuel)%nat ->
  exists c' gs,
    shufflePhase lt2 fuel c = Some c'
    /\ shuffledData c' = shuffledData c ++ gs
    /\ forall (i j : nat) (g g' : Vec) (a b : K2 * V2),
         gs !! i = Some g -> gs !! j = Some g' -> a ∈ g -> b ∈ g' ->
         equivalent lt2 a.1 b.1 = true -> i = j.
Proof.
  intros Hsorted Hfuel.
  destruct (shufflePhase_shuffled lt2 Hswo fuel c Hfuel)
    as (c' & gs & Hrun & Hdata & _ & _ & _ & _ & _ & _ & _ & _ & _ & Hdesc).
  exists c', gs. do 2 (split; [done |]).
  specialize (Hdesc (Forall_is_sorted_StronglySorted lt2 Hswo _ Hsorted)).
  intros i j g g' a b Hi Hj Ha Hb Heq.
  destruct (lt_eq_lt_dec i j) as [[Hlt | Heqij] | Hgt]; [| done |].
  - pose proof (Hdesc i j g g' a b Hlt Hi Hj Ha Hb) as Hba.
    rewrite (lt2_not_equivalent' lt2 _ _ Hba) in Heq. done.
  - pose proof (Hdesc j i g' g b a Hgt Hj Hi Hb Ha) as Hab.
    rewrite (lt2_not_equivalent lt2 _ _ Hab) in Heq. done.
Qed.

(** X8.  [shufflePhase] drains every per-worker vector and leaves the rest
    of the job alone: on return there are as many vectors as before and each
    is empty, and the input and output vectors, the join flags and the two
    dispatch indices are as they were. *)
Theorem shufflePhase_frame (fuel : nat) (c : Ctx) :
  (length (concat (intermediateVecs c)) < fuel)%nat ->
  exists c',
    shufflePhase lt2 fuel c = Some c'
    /\ length (intermediateVecs c') = length (intermediateVecs c)
    /\ Forall (fun vec => vec = []) (intermediateVecs c')
    /\ inputVec c' = inputVec c
    /\ outputVec c' = outputVec c
    /\ joined c' = joined c
    /\ nextInputIndex c' = nextInputIndex c
    /\ nextReduceIndex c' = nextReduceIndex c.
Proof.
  intros Hfuel.
  destruct (shufflePhase_shuffled lt2 Hswo fuel c Hfuel)
    as (c' & gs & Hrun & _ & Hvecs & _ & _ & _ & Hin & Hout & Hj & Hni & Hnr & _).
  exists c'. split; [done |].
  cbn [with_stateManager intermediateVecs inputVec outputVec joined
       nextInputIndex nextReduceIndex] in *.
  rewrite Hvecs, length_replicate. split; [done |].
  split; [apply Forall_replicate; done | done].
Qed.

End ShuffleProgress.

Lemma shufflePhase_ends_complete_witness :
  exists c',
    shufflePhase Z.ltb 6 example_sorted_context = Some c'
    /\ JobStateManager.getState (stateManager c')
       = (JobStateManager.decodeStage (stateManager example_sorted_context),
          Z.of_nat (length (concat (intermediateVecs example_sorted_context)))
            mod 2 ^ 31,
          Z.of_nat (length (concat (intermediateVecs example_sorted_context)))
            mod 2 ^ 31).
Proof.
  apply (shufflePhase_ends_complete Z.ltb Z_ltb_swo 6 example_sorted_context).
  simpl. lia.
Defined.

Lemma shuffle_groups_nonempty_witness :
  exists c' gs,
    shufflePhase Z.ltb 6 example_sorted_context = Some c'
    /\ shuffledData c' = shuffledData example_sorted_context ++ gs
    /\ Forall (fun g => g <> []) gs.
Proof.
  apply (shuffle_groups_nonempty Z.ltb Z_ltb_swo 6 example_sorted_context).
  simpl. lia.
Defined.

Lemma shuffle_gathers_equivalent_keys_witness :
  exists c' gs,
    shufflePhase Z.ltb 6 example_sorted_context = Some c'
    /\ shuffledData c' = shuffledData example_sorted_context ++ gs
    /\ forall (i j : nat) (g g' : list (Z * Z)) (a b : Z * Z),
         gs !! i = Some g -> gs !! j = Some g' -> a ∈ g -> b ∈ g' ->
         equivalent Z.ltb a.1 b.1 = true -> i = j.
Proof.
  apply (shuffle_gathers_equivalent_keys Z.ltb Z_ltb_swo 6 example_sorted_context).
  - repeat constructor.
  - simpl. lia.
Defined.

Lemma shufflePhase_frame_witness :
  exists c',
    shufflePhase Z.ltb 6 example_sorted_context = Some c'
    /\ length (intermediateVecs c') = length (intermediateVecs example_sorted_context)
    /\ Forall (fun vec => vec = []) (intermediateVecs c')
    /\ inputVec c' = inputVec example_sorted_context
    /\ outputVec c' = outputVec example_sorted_context
    /\ joined c' = joined example_sorted_context
    /\ nextInputIndex c' = nextInputIndex example_sorted_context
    /\ nextReduceIndex c' = nextReduceIndex example_sorted_context.
Proof.
  apply (shufflePhase_frame Z.ltb Z_ltb_swo 6 example_sorted_context).
  simpl. lia.
Defined.
(** * Part XI: the barrier *)

Section BarrierCycle.

Import Barrier.

Variable N : nat.
Variable b : Barrier.t.
Hypothesis Hcount : count b = 0.
Hypothesis Hthreads : numThreads b = Z.of_nat N.

(** While fewer than [numThreads] callers have arrived, each of them has
    read the same generation and waits. *)
Lemma arrivals_waiting (k : nat) :
  (k < N)%nat ->
  arrivals k b
  = (mk (Z.of_nat k) (generation b) (numThreads b),
     replicate k (Some (generation b))).
Proof.
  induction k as [| k IH]; intros Hk.
  - simpl. destruct b as [c g n]. simpl in *. by subst.
  - cbn [arrivals]. rewrite IH by lia. unfold barrier. cbn [count generation numThreads].
    rewrite Hthreads. destruct (Z.ltb_spec (Z.of_nat k + 1) (Z.of_nat N)); [| lia].
    f_equal; [f_equal; lia |].
    change (replicate k (Some (generation b)) ++ [Some (generation b)])
      with (replicate k (Some (generation b)) ++ replicate 1 (Some (generation b))).
    rewrite <- replicate_add. f_equal. lia.
Qed.

(** X9.  One cycle of a barrier for [N >= 1] threads that starts with
    [count = 0]: each of the first [N - 1] callers reads the current
    generation and waits, and the predicate of its wait stays false as long
    as fewer than [N] callers have arrived; the [N]-th caller does not wait,
    it resets [count] to 0 and increments the generation, which makes the
    predicate of every waiter true.  The barrier is then ready for the next
    cycle. *)
Theorem barrier_cycle :
  (1 <= N)%nat ->
  (forall k : nat, (k < N)%nat ->
     (arrivals k b).2 = replicate k (Some (generation b))
     /\ released (arrivals k b).1 (generation b) = false)
  /\ arrivals N b
     = (mk 0 (generation b + 1) (numThreads b),
        replicate (N - 1) (Some (generation b)) ++ [None])
  /\ released (arrivals N b).1 (generation b) = true.
Proof.
  intros HN.
  assert (Hlast : arrivals N b
                  = (mk 0 (generation b + 1) (numThreads b),
                     replicate (N - 1) (Some (generation b)) ++ [None])).
  { replace (arrivals N b) with (arrivals (S (N - 1)) b) by (f_equal; lia).
    cbn [arrivals]. rewrite arrivals_waiting by lia.
    unfold barrier. cbn [count generation numThreads].
    rewrite Hthreads.
    destruct (Z.ltb_spec (Z.of_nat (N - 1) + 1) (Z.of_nat N)); [lia | done]. }
  split; [| split].
  - intros k Hk. rewrite arrivals_waiting by done. cbn [fst snd].
    split; [done |]. unfold released. cbn [generation].
    by rewrite Z.eqb_refl.
  - exact Hlast.
  - rewrite Hlast. unfold released. cbn [fst generation].
    destruct (Z.eqb_spec (generation b) (generation b + 1)); [lia | done].
Qed.

End BarrierCycle.

Lemma barrier_cycle_witness :
  (forall k : nat, (k < 3)%nat ->
     (Barrier.arrivals k (Barrier.new 3)).2
     = replicate k (Some (Barrier.generation (Barrier.new 3)))
     /\ Barrier.released (Barrier.arrivals k (Barrier.new 3)).1
          (Barrier.generation (Barrier.new 3)) = false)
  /\ Barrier.arrivals 3 (Barrier.new 3)
     = (Barrier.mk 0 (Barrier.generation (Barrier.new 3) + 1)
          (Barrier.numThreads (Barrier.new 3)),
        replicate (3 - 1) (Some (Barrier.generation (Barrier.new 3))) ++ [None])
  /\ Barrier.released (Barrier.arrivals 3 (Barrier.new 3)).1
       (Barrier.generation (Barrier.new 3)) = true.
Proof.
  apply (barrier_cycle 3 (Barrier.new 3)).
  - reflexivity.
  - reflexivity.
  - lia.
Defined.
(** * Part XII: the progress word and the frame of the reduce phase *)

Section ReduceWord.

Context {K1 V1 K2 V2 K3 V3 : Type}.
Variable client_reduce : list (K2 * V2) -> list (K3 * V3).

Local Abbreviation Ctx := (@JobContext K1 V1 K2 V2 K3 V3).
Local Abbreviation RState := (@ReduceState K1 V1 K2 V2 K3 V3).
Local Abbreviation Pc := (@ReducePc K3 V3).
Local Abbreviation step := (@reducePhase_step K1 V1 K2 V2 K3 V3 client_reduce).
Local Abbreviation incr := JobStateManager.incrementProcessed.
Local Abbreviation in_calls := (fun s : RState => sum_list (reduce_in_call <$> rs_pcs s)).

(** What a step of the reduce phase leaves alone, and what it does to the
    output vector. *)
Lemma reducePhase_step_keeps (s : RState) (tid : nat) :
  inputVec (rs_context (step s tid)) = inputVec (rs_context s)
  /\ joined (rs_context (step s tid)) = joined (rs_context s)
  /\ intermediateVecs (rs_context (step s tid)) = intermediateVecs (rs_context s)
  /\ shuffledData (rs_context (step s tid)) = shuffledData (rs_context s)
  /\ shuffleCounter (rs_context (step s tid)) = shuffleCounter (rs_context s)
  /\ nextInputIndex (rs_context (step s tid)) = nextInputIndex (rs_context s)
  /\ exists emitted, outputVec (rs_context (step s tid))
                     = outputVec (rs_context s) ++ emitted.
Proof.
  unfold reducePhase_step.
  destruct (rs_pcs s !! tid) as [[| [| kv pending] |] |].
  - destruct (shuffleCounter (rs_context s) <=? nextReduceIndex (rs_context s));
      ctx_simpl; repeat split; exists []; by rewrite app_nil_r.
  - ctx_simpl. repeat split. exists []. by rewrite app_nil_r.
  - ctx_simpl. repeat split. by exists [kv].
  - repeat split. exists []. by rewrite app_nil_r.
  - repeat split. exists []. by rewrite app_nil_r.
Qed.

Lemma reduce_in_call_le (pc : Pc) : (reduce_in_call pc <= 1)%nat.
Proof. destruct pc; simpl; lia. Qed.

Lemma reduce_finished_in_call (pcs : list Pc) :
  reduce_finished pcs = true -> sum_list (reduce_in_call <$> pcs) = O.
Proof.
  induction pcs as [| pc pcs IH]; csimpl; [done |].
  destruct pc; done.
Qed.

(** The progress word counts the calls of [client.reduce] that have
    returned: [w0] is the word at the second barrier. *)
Lemma reducePhase_step_word (w0 : Z) (s : RState) (tid : nat) :
  (in_calls s <= length (rs_calls s))%nat ->
  stateManager (rs_context s) = Nat.iter (reduce_returned s) incr w0 ->
  (in_calls (step s tid) <= length (rs_calls (step s tid)))%nat
  /\ stateManager (rs_context (step s tid))
     = Nat.iter (reduce_returned (step s tid)) incr w0.
Proof.
  intros Hle Hword. unfold reduce_returned in *. unfold reducePhase_step.
  destruct (rs_pcs s !! tid) as [pc |] eqn:Hpc; [| done].
  pose proof (fun pc' => sum_list_fmap_insert reduce_in_call (rs_pcs s) tid pc pc' Hpc)
    as Hins.
  destruct pc as [| [| kv pending] |].
  - destruct (shuffleCounter (rs_context s) <=? nextReduceIndex (rs_context s)).
    + specialize (Hins ReduceExit). ctx_simpl. cbn [reduce_in_call] in Hins.
      replace (sum_list (reduce_in_call <$> <[tid:=ReduceExit]> (rs_pcs s)))
        with (sum_list (reduce_in_call <$> rs_pcs s)) by lia.
      done.
    + specialize (Hins (ReduceEmit (client_reduce
                   (default [] (shuffledData (rs_context s)
                                  !! Z.to_nat (nextReduceIndex (rs_context s))))))).
      ctx_simpl. cbn [reduce_in_call] in Hins. rewrite length_app. cbn [length].
      split; [lia |]. rewrite Hword. f_equal. lia.
  - specialize (Hins ReduceFetch). ctx_simpl. cbn [reduce_in_call] in Hins.
    split; [lia |]. rewrite Hword, <- Nat.iter_succ. f_equal. lia.
  - specialize (Hins (ReduceEmit pending)). ctx_simpl. cbn [reduce_in_call] in Hins.
    split; [lia |]. rewrite Hword. f_equal. lia.
  - done.
Qed.

Lemma reducePhase_steps_word (w0 : Z) (sched : list nat) (s : RState) :
  (in_calls s <= length (rs_calls s))%nat ->
  stateManager (rs_context s) = Nat.iter (reduce_returned s) incr w0 ->
  stateManager (rs_context (foldl step s sched))
  = Nat.iter (reduce_returned (foldl step s sched)) incr w0.
Proof.
  revert s. induction sched as [| tid sched IH]; intros s Hle Hword; [done |].
  simpl. destruct (reducePhase_step_word w0 s tid Hle Hword) as [Hle' Hword'].
  by apply IH.
Qed.

Lemma reducePhase_steps_keeps (sched : list nat) (s : RState) :
  inputVec (rs_context (foldl step s sched)) = inputVec (rs_context s)
  /\ joined (rs_context (foldl step s sched)) = joined (rs_context s)
  /\ intermediateVecs (rs_context (foldl step s sched)) = intermediateVecs (rs_context s)
  /\ shuffledData (rs_context (foldl step s sched)) = shuffledData (rs_context s)
  /\ shuffleCounter (rs_context (foldl step s sched)) = shuffleCounter (rs_context s)
  /\ nextInputIndex (rs_context (foldl step s sched)) = nextInputIndex (rs_context s)
  /\ exists emitted, outputVec (rs_context (foldl step s sched))
                     = outputVec (rs_context s) ++ emitted.
Proof.
  revert s. induction sched as [| tid sched IH]; intros s.
  - simpl. repeat split. exists []. by rewrite app_nil_r.
  - simpl. destruct (IH (step s tid)) as (H1 & H2 & H3 & H4 & H5 & H6 & e2 & H7).
    destruct (reducePhase_step_keeps s tid) as (G1 & G2 & G3 & G4 & G5 & G6 & e1 & G7).
    rewrite H1, H2, H3, H4, H5, H6, H7, G7. repeat split; try done.
    exists (e1 ++ e2). by rewrite app_assoc.
Qed.

Lemma reducePhase_run_word (sched : list nat) (c0 : Ctx) (nThreads : nat) :
  let s := reducePhase_run client_reduce sched c0 nThreads in
  stateManager (rs_context s) = Nat.iter (reduce_returned s) incr (stateManager c0).
Proof.
  unfold reducePhase_run. apply reducePhase_steps_word.
  - ctx_simpl. rewrite sum_list_fmap_replicate. simpl. lia.
  - unfold reduce_returned. ctx_simpl. rewrite sum_list_fmap_replicate. done.
Qed.

(** The word when every worker has left its reduce loop. *)
Lemma reducePhase_run_word_finished (sched : list nat) (c0 : Ctx) (nThreads : nat) :
  Z.of_nat (length (shuffledData c0)) + Z.of_nat nThreads <= 2 ^ 32 ->
  (1 <= nThreads)%nat ->
  nextReduceIndex c0 = 0 ->
  shuffleCounter c0 = Z.of_nat (length (shuffledData c0)) ->
  let s := reducePhase_run client_reduce sched c0 nThreads in
  reduce_finished (rs_pcs s) = true ->
  stateManager (rs_context s)
  = Nat.iter (length (shuffledData c0)) incr (stateManager c0).
Proof.
  intros Hfits Hpos Hnext Hcnt s Hfin.
  destruct (reducePhase_run_spec client_reduce c0 nThreads Hfits Hpos Hnext Hcnt)
    as [_ Hspec].
  destruct (Hspec sched Hfin) as [Hcalls _].
  subst s. rewrite reducePhase_run_word. unfold reduce_returned.
  rewrite (reduce_finished_in_call _ Hfin), Hcalls, length_fmap, length_seq.
  by rewrite Nat.sub_0_r.
Qed.

(** X10.  Whatever the schedule, the reduce phase changes the output vector
    by appending to it only, and leaves the input vector, the join flags,
    the per-worker vectors, the shuffled groups, the shuffle counter and the
    map index as they were at the second barrier. *)
Theorem reducePhase_appends_output_only (sched : list nat) (c0 : Ctx) (nThreads : nat) :
  let c := rs_context (reducePhase_run client_reduce sched c0 nThreads) in
  inputVec c = inputVec c0
  /\ joined c = joined c0
  /\ intermediateVecs c = intermediateVecs c0
  /\ shuffledData c = shuffledData c0
  /\ shuffleCounter c = shuffleCounter c0
  /\ nextInputIndex c = nextInputIndex c0
  /\ exists emitted, outputVec c = outputVec c0 ++ emitted.
Proof.
  unfold reducePhase_run.
  apply (reducePhase_steps_keeps sched
           (mkReduceState c0 (replicate nThreads ReduceFetch) [])).
Qed.

(** X11.  At every point of the reduce phase the progress word is the word
    of the second barrier after one [incrementProcessed] per call of
    [client.reduce] that has returned: no update is lost and none is made
    twice.  When every worker has left its loop the processed count has
    grown by the number of groups (modulo [2^31]), and stage and total are
    unchanged. *)
Theorem reducePhase_counts_returned_calls (c0 : Ctx) (nThreads : nat) :
  Z.of_nat (length (shuffledData c0)) + Z.of_nat nThreads <= 2 ^ 32 ->
  (1 <= nThreads)%nat ->
  nextReduceIndex c0 = 0 ->
  shuffleCounter c0 = Z.of_nat (length (shuffledData c0)) ->
  forall sched,
    let s := reducePhase_run client_reduce sched c0 nThreads in
    stateManager (rs_context s) = Nat.iter (reduce_returned s) incr (stateManager c0)
    /\ (reduce_finished (rs_pcs s) = true ->
        JobStateManager.getState (stateManager (rs_context s))
        = (JobStateManager.decodeStage (stateManager c0),
           (JobStateManager.decodeProcessed (stateManager c0)
            + Z.of_nat (length (shuffledData c0))) mod 2 ^ 31,
           JobStateManager.decodeTotal (stateManager c0))).
Proof.
  intros Hfits Hpos Hnext Hcnt sched s. split.
  - apply reducePhase_run_word.
  - intros Hfin. subst s.
    rewrite (reducePhase_run_word_finished sched c0 nThreads Hfits Hpos Hnext Hcnt Hfin).
    apply getState_incrementProcessed_iter.
Qed.

End ReduceWord.

Lemma reducePhase_counts_returned_calls_witness :
  let s := reducePhase_run sum_reduce [0; 1; 0; 1; 0; 1; 0; 1; 0; 0; 0]%nat
             example_shuffled_context 2 in
  stateManager (rs_context s)
  = Nat.iter (reduce_returned s) JobStateManager.incrementProcessed
      (stateManager example_shuffled_context)
  /\ (reduce_finished (rs_pcs s) = true ->
      JobStateManager.getState (stateManager (rs_context s))
      = (JobStateManager.decodeStage (stateManager example_shuffled_context),
         (JobStateManager.decodeProcessed (stateManager example_shuffled_context)
          + Z.of_nat (length (shuffledData example_shuffled_context))) mod 2 ^ 31,
         JobStateManager.decodeTotal (stateManager example_shuffled_context))).
Proof.
  apply (reducePhase_counts_returned_calls sum_reduce example_shuffled_context 2).
  - simpl. lia.
  - lia.
  - reflexivity.
  - reflexivity.
Defined.

(** The schedule of the instance above takes both workers out of their
    loops, after three calls of [reduce]. *)
Example example_reduce_schedule :
  let s := reducePhase_run sum_reduce [0; 1; 0; 1; 0; 1; 0; 1; 0; 0; 0]%nat
             example_shuffled_context 2 in
  reduce_finished (rs_pcs s) = true
  /\ reduce_returned s = 3%nat
  /\ JobStateManager.getState (stateManager (rs_context s)) = (REDUCE_STAGE, 3, 3).
Proof. vm_compute. done. Qed.
(** * Part XIII: the progress word and the frame of the map phase *)

Section MapWord.

Context {K1 V1 K2 V2 K3 V3 : Type}.
Variable lt2 : K2 -> K2 -> bool.
Variable client_map : K1 * V1 -> list (K2 * V2).
Variable std_sort : list (K2 * V2) -> list (K2 * V2).
Hypothesis Hsort : sorts lt2 std_sort.

Local Abbreviation Ctx := (@JobContext K1 V1 K2 V2 K3 V3).
Local Abbreviation step := (@mapPhase_step K1 V1 K2 V2 K3 V3 client_map std_sort).
Local Abbreviation incr := JobStateManager.incrementProcessed.

(** X12.  A step of worker [tid] in the map phase is local to that worker:
    the program counter and the intermediate vector of every other worker
    are untouched, and so are the input vector, the output vector, the join
    flags, the shuffled data, the shuffle counter and the reduce index. *)
Theorem mapPhase_step_local (s : Ctx * list MapPc) (tid : nat) :
  (forall tid', tid' <> tid ->
     (step s tid).2 !! tid' = s.2 !! tid'
     /\ intermediateVecs (step s tid).1 !! tid' = intermediateVecs s.1 !! tid')
  /\ length (intermediateVecs (step s tid).1) = length (intermediateVecs s.1)
  /\ inputVec (step s tid).1 = inputVec s.1
  /\ outputVec (step s tid).1 = outputVec s.1
  /\ joined (step s tid).1 = joined s.1
  /\ shuffledData (step s tid).1 = shuffledData s.1
  /\ shuffleCounter (step s tid).1 = shuffleCounter s.1
  /\ nextReduceIndex (step s tid).1 = nextReduceIndex s.1.
Proof.
  destruct s as [c pcs]. unfold mapPhase_step.
  destruct (pcs !! tid) as [[| |] |].
  - destruct (decide (tid = THREAD_ZERO)); ctx_simpl.
    all: split; [| done].
    all: intros tid' Hne; by rewrite list_lookup_insert_ne.
  - cbv zeta.
    destruct (Z.of_nat (length (inputVec c)) <=? nextInputIndex c).
    + unfold sortPhase. ctx_simpl. rewrite length_alter. split; [| done].
      intros tid' Hne.
      by rewrite list_lookup_insert_ne, list_lookup_alter_ne.
    + destruct (inputVec c !! Z.to_nat (nextInputIndex c)) as [kv |].
      * rewrite emit2_foldl. ctx_simpl. rewrite length_alter. split; [| done].
        intros tid' Hne. by rewrite list_lookup_alter_ne.
      * ctx_simpl. done.
  - done.
  - done.
Qed.

Variable c0 : Ctx.
Variable nThreads : nat.
Hypothesis Hfits : Z.of_nat (length (inputVec c0)) + Z.of_nat nThreads < 2 ^ 32.

Local Abbreviation inv := (map_inv lt2 client_map c0 nThreads).
Local Abbreviation size := (length (inputVec c0)).

Lemma map_fits_le : Z.of_nat (length (inputVec c0)) + Z.of_nat nThreads <= 2 ^ 32.
Proof. lia. Qed.

(** Within the range of the index, the number of fetches can be read off
    [nextInputIndex]. *)
Lemma map_inv_index (k : nat) (s : Ctx * list MapPc) :
  inv k s -> nextInputIndex s.1 = Z.of_nat k /\ (k <= size + nThreads)%nat.
Proof.
  intros (Hnext & Hk & _ & _ & _ & Hlp & _).
  pose proof (sum_list_fmap_le map_exited s.2 (map_exited_le c0 nThreads)) as Hle.
  assert (Hb : (k <= size + nThreads)%nat).
  { destruct (decide (sum_list (map_exited <$> s.2) = O)); lia. }
  split; [| done]. rewrite Hnext. apply Z.mod_small. lia.
Qed.

(** Once worker 0 has entered [mapPhase], the progress word counts the
    calls of [client.map]: [w0] is the word that [setStage(MAP_STAGE)]
    stored. *)
Lemma mapPhase_step_word (w0 : Z) (k : nat) (s : Ctx * list MapPc) (tid : nat) :
  inv k s ->
  Forall (fun pc => pc <> MapEntry) s.2 ->
  stateManager s.1 = Nat.iter (k `min` size) incr w0 ->
  exists k',
    inv k' (step s tid)
    /\ Forall (fun pc => pc <> MapEntry) (step s tid).2
    /\ stateManager (step s tid).1 = Nat.iter (k' `min` size) incr w0.
Proof.
  intros Hinv Hne Hword.
  destruct (mapPhase_step_inv lt2 client_map std_sort Hsort c0 nThreads map_fits_le
              k s tid Hinv) as (k' & Hinv' & _).
  exists k'. split; [done |].
  destruct (map_inv_index k s Hinv) as [Hn Hb].
  destruct (map_inv_index k' _ Hinv') as [Hn' Hb'].
  destruct Hinv as (_ & Hk & _ & _ & _ & Hlp & Hin & _).
  clear Hinv'.
  pose proof (sum_list_fmap_le map_exited s.2 (map_exited_le c0 nThreads)) as Hle.
  destruct s as [c pcs]. cbn [fst snd] in *.
  remember (step (c, pcs) tid) as s' eqn:Hs'.
  destruct s' as [c' pcs']. cbn [fst snd] in *.
  unfold mapPhase_step in Hs'.
  destruct (pcs !! tid) as [pc |] eqn:Hpc.
  2: { injection Hs' as -> ->. split; [done |]. rewrite Hword. f_equal. lia. }
  destruct pc.
  - rewrite Forall_lookup in Hne. by destruct (Hne tid MapEntry Hpc).
  - pose proof (sum_list_fmap_lt map_exited pcs tid MapLoop
                  (map_exited_le c0 nThreads) Hpc eq_refl) as Hlt.
    cbv zeta in Hs'. rewrite Hn, Hin in Hs'.
    assert (Hwrap : wrap32 (Z.of_nat k + 1) = Z.of_nat k + 1).
    { apply Z.mod_small.
      destruct (decide (sum_list (map_exited <$> pcs) = O)); lia. }
    rewrite !Hwrap in Hs'.
    destruct (Z.leb_spec (Z.of_nat size) (Z.of_nat k)) as [Hge | Hlow].
    + injection Hs' as -> ->. unfold sortPhase in *. ctx_simpl.
      cbn [nextInputIndex with_intermediateVecs with_nextInputIndex] in Hn'.
      split; [by apply Forall_insert |].
      rewrite Hword. f_equal. lia.
    + rewrite Nat2Z.id in Hs'.
      destruct (lookup_lt_is_Some_2 (inputVec c0) k ltac:(lia)) as [p Hp].
      rewrite Hp, emit2_foldl in Hs'. injection Hs' as -> ->.
      cbn [nextInputIndex with_intermediateVecs with_nextInputIndex
           with_stateManager] in Hn'.
      ctx_simpl. split; [done |].
      rewrite Hword, <- Nat.iter_succ. f_equal. lia.
  - injection Hs' as -> ->. split; [done |]. rewrite Hword. f_equal. lia.
Qed.

Lemma mapPhase_steps_word (w0 : Z) (sched : list nat) (k : nat) (s : Ctx * list MapPc) :
  inv k s ->
  Forall (fun pc => pc <> MapEntry) s.2 ->
  stateManager s.1 = Nat.iter (k `min` size) incr w0 ->
  exists k',
    inv k' (foldl step s sched)
    /\ stateManager (foldl step s sched).1 = Nat.iter (k' `min` size) incr w0.
Proof.
  revert k s. induction sched as [| tid sched IH]; intros k s Hinv Hne Hword.
  - by exists k.
  - simpl. destruct (mapPhase_step_word w0 k s tid Hinv Hne Hword)
      as (k' & Hinv' & Hne' & Hword').
    by apply (IH k').
Qed.

(** The word at the first barrier when worker 0 was the first to take a
    step. *)
Lemma mapPhase_run_word (sched : list nat) :
  (1 <= nThreads)%nat ->
  nextInputIndex c0 = 0 ->
  intermediateVecs c0 = replicate nThreads [] ->
  let s := mapPhase_run client_map std_sort (THREAD_ZERO :: sched) c0 nThreads in
  map_finished s.2 = true ->
  stateManager s.1
  = Nat.iter size incr (JobStateManager.setStage MAP_STAGE (stateManager c0)).
Proof.
  intros Hpos Hnext Hvecs s Hfin. subst s. unfold mapPhase_run in *.
  cbn [foldl] in *.
  pose proof (map_inv_init lt2 client_map c0 nThreads Hpos Hnext Hvecs) as Hinit.
  destruct (mapPhase_step_inv lt2 client_map std_sort Hsort c0 nThreads map_fits_le
              O _ THREAD_ZERO Hinit) as (k1 & Hinv1 & _).
  destruct (map_inv_index k1 _ Hinv1) as [Hn1 _].
  set (s1 := step (c0, MapEntry :: replicate (nThreads - 1) MapLoop) THREAD_ZERO) in *.
  assert (Hs1 : s1 = (with_stateManager (JobStateManager.setStage MAP_STAGE) c0,
                      MapLoop :: replicate (nThreads - 1) MapLoop)) by done.
  rewrite Hs1 in Hn1. cbn [fst nextInputIndex with_stateManager] in Hn1.
  assert (Hk1 : k1 = O) by lia. subst k1.
  destruct (mapPhase_steps_word (JobStateManager.setStage MAP_STAGE (stateManager c0))
              sched O s1 Hinv1) as (k & Hinv & Hword).
  { rewrite Hs1. cbn [snd]. constructor; [done |].
    apply Forall_replicate. done. }
  { rewrite Hs1. done. }
  rewrite Hword. f_equal.
  destruct Hinv as (_ & Hk & _ & _ & _ & Hlp & _).
  destruct (map_finished_exited c0 nThreads _ Hfin) as (Hex & _).
  rewrite Hex, Hlp in Hk.
  destruct (decide (nThreads = O)); lia.
Qed.

(** X13.  When worker 0 is the first worker to take a step, no update of the
    map stage is lost: at the first barrier the progress word shows the map
    stage, a processed count equal to the number of input pairs (modulo
    [2^31]) and the total it had at thread creation. *)
Theorem map_stage_counts_every_pair (sched : list nat) :
  (1 <= nThreads)%nat ->
  nextInputIndex c0 = 0 ->
  intermediateVecs c0 = replicate nThreads [] ->
  let s := mapPhase_run client_map std_sort (THREAD_ZERO :: sched) c0 nThreads in
  map_finished s.2 = true ->
  JobStateManager.getState (stateManager s.1)
  = (MAP_STAGE, Z.of_nat (length (inputVec c0)) mod 2 ^ 31,
     JobStateManager.decodeTotal (stateManager c0)).
Proof.
  intros Hpos Hnext Hvecs s Hfin. subst s.
  rewrite (mapPhase_run_word sched Hpos Hnext Hvecs Hfin).
  rewrite getState_incrementProcessed_iter.
  pose proof (getState_setStage MAP_STAGE (stateManager c0)) as Hget.
  unfold JobStateManager.getState in Hget. injection Hget as -> -> ->.
  by rewrite Z.add_0_l.
Qed.

End MapWord.

Lemma map_stage_counts_every_pair_witness :
  let s := mapPhase_run digits_map insertion_sort (THREAD_ZERO :: [1; 0; 1; 0; 1]%nat)
             (newJobContext [(12, tt); (21, tt); (11, tt)] ([] : list (Z * Z)) 2) 2 in
  JobStateManager.getState (stateManager s.1)
  = (MAP_STAGE,
     Z.of_nat (length (inputVec (newJobContext [(12, tt); (21, tt); (11, tt)]
                                   ([] : list (Z * Z)) 2 : @JobContext Z unit Z Z Z Z)))
       mod 2 ^ 31,
     JobStateManager.decodeTotal
       (stateManager (newJobContext [(12, tt); (21, tt); (11, tt)]
                        ([] : list (Z * Z)) 2 : @JobContext Z unit Z Z Z Z))).
Proof.
  apply (map_stage_counts_every_pair Z.ltb digits_map insertion_sort
           insertion_sort_sorts
           (newJobContext [(12, tt); (21, tt); (11, tt)] ([] : list (Z * Z)) 2) 2).
  - simpl. lia.
  - lia.
  - reflexivity.
  - reflexivity.
  - vm_compute. reflexivity.
Defined.

Section MapWordLoss.

Context {K1 V1 K2 V2 K3 V3 : Type}.
Variable client_map : K1 * V1 -> list (K2 * V2).
Variable std_sort : list (K2 * V2) -> list (K2 * V2).

Local Abbreviation Ctx := (@JobContext K1 V1 K2 V2 K3 V3).
Local Abbreviation step := (@mapPhase_step K1 V1 K2 V2 K3 V3 client_map std_sort).
Local Abbreviation incr := JobStateManager.incrementProcessed.

Variable input : list (K1 * V1).
Variable output : list (K3 * V3).
Hypothesis Hinput : Z.of_nat (length input) + 2 <= 2 ^ 32.

Local Abbreviation c0 := (newJobContext input output 2 : Ctx).

(** Worker 1 maps the first [j] input pairs while worker 0 has not yet
    entered [mapPhase]. *)
Lemma second_worker_maps (j : nat) :
  (j <= length input)%nat ->
  let s := foldl step (c0, [MapEntry; MapLoop]) (replicate j 1%nat) in
  s.2 = [MapEntry; MapLoop]
  /\ nextInputIndex s.1 = Z.of_nat j
  /\ inputVec s.1 = input
  /\ stateManager s.1 = Nat.iter j incr (stateManager c0).
Proof.
  induction j as [| j IH]; intros Hj; [done |].
  rewrite replicate_S_end, foldl_snoc.
  destruct (IH ltac:(lia)) as (Hpcs & Hnext & Hin & Hword).
  destruct (foldl step (c0, [MapEntry; MapLoop]) (replicate j 1%nat)) as [c pcs].
  cbn [fst snd] in *. subst pcs.
  unfold mapPhase_step. cbn [lookup list_lookup]. cbv zeta.
  rewrite Hnext, Hin, Nat2Z.id.
  destruct (Z.leb_spec (Z.of_nat (length input)) (Z.of_nat j)); [lia |].
  destruct (lookup_lt_is_Some_2 input j ltac:(lia)) as [p Hp].
  rewrite Hp, emit2_foldl. ctx_simpl.
  split; [done |]. split; [unfold wrap32; rewrite Z.mod_small; lia |].
  split; [done |]. by rewrite Hword.
Qed.

(** X14.  The map stage can lose all its progress updates.  With two
    workers, let worker 1 map every input pair before worker 0 enters
    [mapPhase]: the [setStage(MAP_STAGE)] of worker 0 then resets the
    processed count, both workers find the input exhausted and reach the
    barrier, and the progress word still shows zero processed pairs. *)
Theorem map_stage_updates_lost :
  let sched := replicate (length input) 1%nat ++ [0; 0; 1]%nat in
  let s := mapPhase_run client_map std_sort sched c0 2 in
  map_finished s.2 = true
  /\ JobStateManager.getState (stateManager s.1)
     = (MAP_STAGE, 0, Z.of_nat (length input) mod 2 ^ 31).
Proof.
  cbv zeta. unfold mapPhase_run. cbn [replicate Nat.sub]. rewrite foldl_app.
  destruct (second_worker_maps (length input) (le_n _)) as (Hpcs & Hnext & Hin & Hword).
  destruct (foldl step (c0, [MapEntry; MapLoop]) (replicate (length input) 1%nat))
    as [c pcs].
  cbn [fst snd] in *. subst pcs.
  assert (Hexit : forall (c' : Ctx) (tid : nat) (pcs : list MapPc),
             pcs !! tid = Some MapLoop ->
             inputVec c' = input ->
             Z.of_nat (length input) <= nextInputIndex c' ->
             step (c', pcs) tid
             = (sortPhase std_sort tid
                  (with_nextInputIndex (fun _ => wrap32 (nextInputIndex c' + 1)) c'),
                <[tid := MapExit]> pcs)).
  { intros c' tid pcs Hpc Hin' Hge. unfold mapPhase_step. rewrite Hpc. cbv zeta.
    rewrite Hin'.
    by destruct (Z.leb_spec (Z.of_nat (length input)) (nextInputIndex c')); [| lia]. }
  cbn [foldl].
  assert (Henter : step (c, [MapEntry; MapLoop]) 0%nat
                   = (with_stateManager (JobStateManager.setStage MAP_STAGE) c,
                      [MapLoop; MapLoop])) by done.
  rewrite Henter.
  rewrite (Hexit _ 0%nat [MapLoop; MapLoop] eq_refl) by (ctx_simpl; (done || lia)).
  cbn [insert list_insert].
  rewrite (Hexit _ 1%nat [MapExit; MapLoop] eq_refl).
  2: { unfold sortPhase. ctx_simpl. done. }
  2: { unfold sortPhase. ctx_simpl. rewrite Hnext. unfold wrap32.
       rewrite Z.mod_small; lia. }
  unfold sortPhase. ctx_simpl. split; [done |].
  rewrite Hword.
  pose proof (getState_setStage MAP_STAGE
                (Nat.iter (length input) incr (stateManager c0))) as Hget.
  rewrite Hget. f_equal.
  pose proof (getState_incrementProcessed_iter (length input) (stateManager c0)) as Hit.
  apply (f_equal snd) in Hit. cbn [snd JobStateManager.getState] in Hit.
  rewrite Hit. cbn [newJobContext stateManager]. unfold JobStateManager.init.
  rewrite decodeTotal_encodeState. unfold wrap32.
  rewrite (Z.mod_small (Z.of_nat (length input)) (2 ^ 32)) by lia. done.
Qed.

End MapWordLoss.

Lemma map_stage_updates_lost_witness :
  let sched := replicate (length [(12, tt); (21, tt); (11, tt)]) 1%nat ++ [0; 0; 1]%nat in
  let s := mapPhase_run digits_map insertion_sort sched
             (newJobContext [(12, tt); (21, tt); (11, tt)] ([] : list (Z * Z)) 2) 2 in
  map_finished s.2 = true
  /\ JobStateManager.getState (stateManager s.1)
     = (MAP_STAGE, 0, Z.of_nat (length [(12, tt); (21, tt); (11, tt)]) mod 2 ^ 31).
Proof.
  apply (map_stage_updates_lost digits_map insertion_sort
           [(12, tt); (21, tt); (11, tt)] ([] : list (Z * Z))).
  simpl. lia.
Defined.
(** * Part XIV: the job context when every worker has returned *)

Section JobEnd.

Context {K1 V1 K2 V2 K3 V3 : Type}.
Variable lt2 : K2 -> K2 -> bool.
Hypothesis Hswo : StrictWeakOrder lt2.
Variable client_map : K1 * V1 -> list (K2 * V2).
Variable client_reduce : list (K2 * V2) -> list (K3 * V3).
Variable std_sort : list (K2 * V2) -> list (K2 * V2).
Hypothesis Hsort : sorts lt2 std_sort.

Local Abbreviation Ctx := (@JobContext K1 V1 K2 V2 K3 V3).
Local Abbreviation run := (run_threads lt2 client_map client_reduce std_sort).
Local Abbreviation incr := JobStateManager.incrementProcessed.

Variable input : list (K1 * V1).
Variable output : list (K3 * V3).
Variable nThreads : nat.
Hypothesis Hpos : (1 <= nThreads)%nat.
Hypothesis Hinput : Z.of_nat (length input) + Z.of_nat nThreads <= 2 ^ 32.
Hypothesis Hclasses :
  Z.of_nat (num_classes lt2 (concat (client_map <$> input)).*1) + Z.of_nat nThreads
  <= 2 ^ 32.

Local Abbreviation c0 := (newJobContext input output nThreads : Ctx).
Local Abbreviation classes := (num_classes lt2 (concat (client_map <$> input)).*1).

(** The context that the last worker leaves behind. *)
Lemma run_threads_final (sched : Schedule) (c' : Ctx) :
  run sched c0 = Some c' ->
  stateManager c'
  = Nat.iter classes incr
      (JobStateManager.encodeState REDUCE_STAGE 0 (wrap32 (Z.of_nat classes)))
  /\ length (shuffledData c') = classes
  /\ joined c' = replicate nThreads false
  /\ inputVec c' = input.
Proof.
  intros Hrun. unfold run_threads in Hrun.
  assert (Hn : length (joined c0) = nThreads) by apply length_replicate.
  rewrite Hn in Hrun.
  assert (Hfits0 : Z.of_nat (length (inputVec c0)) + Z.of_nat nThreads <= 2 ^ 32)
    by done.
  destruct (mapPhase_run_spec lt2 client_map std_sort Hsort c0 nThreads Hfits0 Hpos
              eq_refl eq_refl) as [_ Hmap].
  specialize (Hmap (map_schedule sched)).
  pose proof (map_inv_init lt2 client_map c0 nThreads Hpos eq_refl eq_refl) as Hinit.
  destruct (mapPhase_steps_inv lt2 client_map std_sort Hsort c0 nThreads Hfits0
              (map_schedule sched) O _ Hinit) as (k & Hinv).
  fold (mapPhase_run client_map std_sort (map_schedule sched) c0 nThreads) in Hinv.
  destruct (mapPhase_run client_map std_sort (map_schedule sched) c0 nThreads)
    as [c1 pcs] eqn:Hrun1.
  destruct (map_finished pcs) eqn:Hfin; [| done].
  destruct (Hmap Hfin) as (Hperm & Hsorted & _ & _ & Hsd & Hsc & Hnr).
  destruct Hinv as (_ & _ & _ & _ & _ & _ & Hin1 & _ & Hj1 & _).
  cbn [fst snd] in *.
  unfold coordinator in Hrun.
  destruct (shufflePhase_shuffled lt2 Hswo (shuffle_fuel c1) (enterShuffle c1))
    as (cs & gs & Hsh & Hshuffled).
  { unfold shuffle_fuel. simpl. lia. }
  rewrite Hsh in Hrun.
  pose proof (shuffled_count_classes lt2 Hswo (enterShuffle c1) cs gs Hsorted Hshuffled)
    as Hlen.
  destruct Hshuffled as (Hdata & _ & _ & _ & Hcount & Hins & _ & Hjs & _ & Hnrs & _).
  cbn [enterShuffle with_stateManager shuffledData shuffleCounter inputVec joined
       nextReduceIndex intermediateVecs] in Hdata, Hcount, Hins, Hjs, Hnrs, Hlen.
  assert (Hnum : length gs = classes).
  { rewrite Hlen. apply (num_classes_Permutation lt2 Hswo). by rewrite Hperm. }
  cbn [newJobContext shuffleCounter shuffledData nextReduceIndex] in Hsc, Hsd, Hnr.
  rewrite Hsd in Hdata. cbn [app] in Hdata.
  rewrite Hsc, shuffleCounter_iter in Hcount by lia.
  rewrite Z.add_0_l in Hcount.
  set (c2 := enterReduce cs) in *.
  destruct (reduce_finished (rs_pcs (reducePhase_run client_reduce
              (reduce_schedule sched) c2 nThreads))) eqn:Hfin2; [| done].
  injection Hrun as <-.
  assert (Hfit2 : Z.of_nat (length (shuffledData c2)) + Z.of_nat nThreads <= 2 ^ 32).
  { subst c2. cbn [enterReduce with_stateManager shuffledData]. rewrite Hdata. lia. }
  assert (Hcnt2 : shuffleCounter c2 = Z.of_nat (length (shuffledData c2))).
  { subst c2. cbn [enterReduce with_stateManager shuffledData shuffleCounter].
    by rewrite Hcount, Hdata. }
  assert (Hnr2 : nextReduceIndex c2 = 0).
  { subst c2. cbn [enterReduce with_stateManager nextReduceIndex]. congruence. }
  rewrite (reducePhase_run_word_finished client_reduce (reduce_schedule sched) c2
             nThreads Hfit2 Hpos Hnr2 Hcnt2 Hfin2).
  destruct (reducePhase_steps_keeps client_reduce (reduce_schedule sched)
              (mkReduceState c2 (replicate nThreads ReduceFetch) []))
    as (Hin3 & Hj3 & _ & Hsd3 & _).
  fold (reducePhase_run client_reduce (reduce_schedule sched) c2 nThreads)
    in Hin3, Hj3, Hsd3.
  cbn [rs_context] in Hin3, Hj3, Hsd3.
  rewrite Hin3, Hj3, Hsd3. subst c2.
  cbn [enterReduce with_stateManager shuffledData stateManager joined inputVec].
  rewrite Hdata, Hcount, Hnum, Hjs, Hins, Hj1, Hin1.
  by unfold JobStateManager.updateState.
Qed.

(** X15.  A job always can run to its end, and when every [threadFunc] has
    returned the progress word shows the reduce stage with a processed count
    equal to the total: both are the number of distinct intermediate keys
    (modulo [2^31]).  The input vector is as the client passed it. *)
Theorem job_ends_with_complete_reduce_stage :
  (exists sched c', run sched c0 = Some c')
  /\ forall sched c',
       run sched c0 = Some c' ->
       JobStateManager.getState (stateManager c')
       = (REDUCE_STAGE, Z.of_nat classes mod 2 ^ 31, Z.of_nat classes mod 2 ^ 31)
       /\ inputVec c' = input.
Proof.
  split.
  - apply (run_threads_spec lt2 Hswo client_map client_reduce std_sort Hsort
             input output nThreads Hpos Hinput Hclasses).
  - intros sched c' Hrun.
    destruct (run_threads_final sched c' Hrun) as (Hword & _ & _ & Hin).
    split; [| done].
    rewrite Hword, getState_incrementProcessed_iter.
    pose proof (getState_encodeState REDUCE_STAGE 0 (wrap32 (Z.of_nat classes))) as Hget.
    unfold JobStateManager.getState in Hget. injection Hget as -> -> ->.
    unfold wrap32. rewrite (Z.mod_small (Z.of_nat classes) (2 ^ 32)) by lia.
    by rewrite Zmod_0_l, Z.add_0_l.
Qed.

End JobEnd.

Lemma job_ends_with_complete_reduce_stage_witness :
  let run := run_threads Z.ltb digits_map sum_reduce insertion_sort in
  let input := [(12, tt); (21, tt); (11, tt)] in
  (exists sched c', run sched (newJobContext input [] 2) = Some c')
  /\ forall sched c',
       run sched (newJobContext input [] 2) = Some c' ->
       JobStateManager.getState (stateManager c')
       = (REDUCE_STAGE,
          Z.of_nat (num_classes Z.ltb (concat (digits_map <$> input)).*1) mod 2 ^ 31,
          Z.of_nat (num_classes Z.ltb (concat (digits_map <$> input)).*1) mod 2 ^ 31)
       /\ inputVec c' = input.
Proof.
  apply (job_ends_with_complete_reduce_stage Z.ltb Z_ltb_swo digits_map sum_reduce
           insertion_sort insertion_sort_sorts [(12, tt); (21, tt); (11, tt)] [] 2).
  - lia.
  - simpl. lia.
  - vm_compute. discriminate.
Defined.
(** * Part XV: the job-handle API on a running and on a finished job *)

Section PercentageFacts.

Context {K1 V1 K2 V2 K3 V3 : Type}.

Local Abbreviation Ctx := (@JobContext K1 V1 K2 V2 K3 V3).

(** X16.  Whatever the handle and the progress word, the percentage that
    [getJobState] reports lies between 0 and [MAX_PERCENTAGE]. *)
Theorem getJobState_percentage_bounds (job : JobHandle) (heap : gmap nat Ctx)
    (st : JobState) :
  getJobState job heap = Some st ->
  (0 <= percentage st)%Q /\ (percentage st <= MAX_PERCENTAGE)%Q.
Proof.
  unfold getJobState. destruct job as [address |].
  2: { intros [= <-]. simpl. split; by vm_compute. }
  destruct (heap !! address) as [context |]; [| done].
  unfold JobStateManager.getState.
  pose proof ((decodeProcessed_range (stateManager context))) as Hp.
  pose proof ((decodeTotal_range (stateManager context))) as Ht.
  destruct (Z.eqb_spec (JobStateManager.decodeTotal (stateManager context)) 0)
    as [Hz | Hnz].
  - intros [= <-]. simpl. split; by vm_compute.
  - intros [= <-]. cbn [percentage]. split.
    + apply Q.min_glb; [| by vm_compute].
      apply Qmult_le_0_compat; [| by vm_compute].
      apply Qle_shift_div_l.
      * unfold Qlt. simpl. lia.
      * unfold Qle. simpl. lia.
    + apply Q.le_min_r.
Qed.

End PercentageFacts.

Lemma getJobState_percentage_bounds_witness :
  let st := mkJobState REDUCE_STAGE
              (Qmin (inject_Z 0 / inject_Z 3 * MAX_PERCENTAGE) MAX_PERCENTAGE) in
  (0 <= percentage st)%Q /\ (percentage st <= MAX_PERCENTAGE)%Q.
Proof.
  apply (getJobState_percentage_bounds (Some 0%nat)
           {[0%nat := example_shuffled_context]}).
  vm_compute. reflexivity.
Defined.

Section JoinFacts.

Context {K1 V1 K2 V2 K3 V3 : Type}.

Local Abbreviation Ctx := (@JobContext K1 V1 K2 V2 K3 V3).

(** The loop of [waitForJob] after [n] iterations: the first [n] flags are
    set, the others and the rest of the context are as before. *)
Lemma join_threads_spec (c : Ctx) (n : nat) :
  (n <= length (joined c))%nat ->
  joined (foldl join_thread c (seq 0 n)) = replicate n true ++ drop n (joined c)
  /\ stateManager (foldl join_thread c (seq 0 n)) = stateManager c
  /\ inputVec (foldl join_thread c (seq 0 n)) = inputVec c
  /\ outputVec (foldl join_thread c (seq 0 n)) = outputVec c
  /\ shuffledData (foldl join_thread c (seq 0 n)) = shuffledData c.
Proof.
  induction n as [| n IH]; intros Hn.
  - simpl. by rewrite drop_0.
  - rewrite seq_S, foldl_snoc. cbn [Nat.add].
    destruct (IH ltac:(lia)) as (Hj & Hs & Hi & Ho & Hd).
    destruct (lookup_lt_is_Some_2 (joined c) n ltac:(lia)) as [flag Hflag].
    assert (Hlook : joined (foldl join_thread c (seq 0 n)) !! n = Some flag).
    { rewrite Hj, lookup_app_r by (rewrite length_replicate; lia).
      rewrite length_replicate, Nat.sub_diag, lookup_drop, Nat.add_0_r. done. }
    assert (Hres : replicate (S n) true ++ drop (S n) (joined c)
                   = replicate n true ++ true :: drop (S n) (joined c)).
    { by rewrite replicate_S_end, <- app_assoc. }
    unfold join_thread at 1 3 5 7 9. rewrite Hlook.
    destruct flag.
    + rewrite Hj, Hres, (drop_S _ _ _ Hflag). done.
    + ctx_simpl. rewrite Hj, Hres, (drop_S _ _ _ Hflag).
      rewrite insert_app_r_alt by (rewrite length_replicate; lia).
      rewrite length_replicate, Nat.sub_diag. done.
Qed.

Lemma join_all_threads (c : Ctx) :
  joined (foldl join_thread c (seq 0 (length (joined c))))
  = replicate (length (joined c)) true
  /\ stateManager (foldl join_thread c (seq 0 (length (joined c)))) = stateManager c
  /\ outputVec (foldl join_thread c (seq 0 (length (joined c)))) = outputVec c.
Proof.
  destruct (join_threads_spec c (length (joined c)) (le_n _)) as (Hj & Hs & _ & Ho & _).
  rewrite Hj, drop_all, app_nil_r. done.
Qed.

End JoinFacts.

Section JobHandleFacts.

Context {K1 V1 K2 V2 K3 V3 : Type}.
Variable lt2 : K2 -> K2 -> bool.
Hypothesis Hswo : StrictWeakOrder lt2.
Variable client_map : K1 * V1 -> list (K2 * V2).
Variable client_reduce : list (K2 * V2) -> list (K3 * V3).
Variable std_sort : list (K2 * V2) -> list (K2 * V2).
Hypothesis Hsort : sorts lt2 std_sort.

Local Abbreviation Ctx := (@JobContext K1 V1 K2 V2 K3 V3).
Local Abbreviation run := (run_threads lt2 client_map client_reduce std_sort).
Local Abbreviation wait := (waitForJob lt2 client_map client_reduce std_sort).
Local Abbreviation close := (closeJobHandle lt2 client_map client_reduce std_sort).

Variable input : list (K1 * V1).
Variable output : list (K3 * V3).
Variable nThreads : nat.
Hypothesis Hpos : (1 <= nThreads)%nat.
Hypothesis Hinput : Z.of_nat (length input) + Z.of_nat nThreads <= 2 ^ 32.
Hypothesis Hclasses :
  Z.of_nat (num_classes lt2 (concat (client_map <$> input)).*1) + Z.of_nat nThreads
  <= 2 ^ 32.

Local Abbreviation c0 := (newJobContext input output nThreads : Ctx).
Local Abbreviation classes := (num_classes lt2 (concat (client_map <$> input)).*1).

(** [waitForJob] on the handle of a job whose workers have just been
    created. *)
Lemma waitForJob_fresh (sched : Schedule) (address : nat) (heap heap' : gmap nat Ctx) :
  heap !! address = Some c0 ->
  wait sched (Some address) heap = Some heap' ->
  exists c' cj,
    run sched c0 = Some c'
    /\ heap' = <[address := cj]> heap
    /\ joined cj = replicate nThreads true
    /\ stateManager cj = stateManager c'
    /\ outputVec cj = outputVec c'.
Proof.
  intros Hlook Hwait. unfold waitForJob in Hwait. rewrite Hlook in Hwait.
  assert (Hflags : forallb (fun flag : bool => flag) (joined c0) = false).
  { cbn [newJobContext joined]. destruct nThreads; [lia | done]. }
  rewrite Hflags in Hwait.
  destruct (run sched c0) as [c' |] eqn:Hrun; [| done].
  injection Hwait as <-.
  destruct (run_threads_final lt2 Hswo client_map client_reduce std_sort Hsort
              input output nThreads Hpos Hinput Hclasses sched c' Hrun)
    as (_ & _ & Hj & _).
  destruct (join_all_threads c') as (Hjoin & Hs & Ho).
  exists c', (foldl join_thread c' (seq 0 (length (joined c')))).
  split; [done |]. split; [done |].
  rewrite Hs, Ho, Hjoin, Hj, length_replicate. done.
Qed.

(** X17.  On the handle of a job that has just been started, [waitForJob]
    can return, and whenever it has returned [getJobState] reports the
    reduce stage at [MAX_PERCENTAGE] (as a rational number: the rounding of
    the [float] division is not modelled). *)
Theorem waitForJob_then_job_is_done (address : nat) (heap : gmap nat Ctx) :
  heap !! address = Some c0 ->
  (exists sched heap', wait sched (Some address) heap = Some heap')
  /\ forall sched heap',
       wait sched (Some address) heap = Some heap' ->
       exists st,
         getJobState (Some address) heap' = Some st
         /\ stage st = REDUCE_STAGE
         /\ (percentage st == MAX_PERCENTAGE)%Q.
Proof.
  intros Hlook. split.
  - destruct (run_threads_spec lt2 Hswo client_map client_reduce std_sort Hsort
                input output nThreads Hpos Hinput Hclasses) as [(sched & c' & Hrun) _].
    exists sched. unfold waitForJob. rewrite Hlook.
    assert (Hflags : forallb (fun flag : bool => flag) (joined c0) = false).
    { cbn [newJobContext joined]. destruct nThreads; [lia | done]. }
    rewrite Hflags, Hrun. by eexists.
  - intros sched heap' Hwait.
    destruct (waitForJob_fresh sched address heap heap' Hlook Hwait)
      as (c' & cj & Hrun & -> & _ & Hs & _).
    destruct (run_threads_final lt2 Hswo client_map client_reduce std_sort Hsort
                input output nThreads Hpos Hinput Hclasses sched c' Hrun)
      as (Hword & _).
    unfold getJobState. rewrite lookup_insert_eq, Hs, Hword.
    rewrite getState_incrementProcessed_iter.
    pose proof (getState_encodeState REDUCE_STAGE 0 (wrap32 (Z.of_nat classes))) as Hget.
    unfold JobStateManager.getState in Hget. injection Hget as -> -> ->.
    rewrite Zmod_0_l, Z.add_0_l. unfold wrap32.
    rewrite (Z.mod_small (Z.of_nat classes) (2 ^ 32)) by lia.
    pose proof (Z.mod_pos_bound (Z.of_nat classes) (2 ^ 31) ltac:(lia)) as Hrange.
    destruct (Z.eqb_spec (Z.of_nat classes mod 2 ^ 31) 0) as [Hz | Hnz].
    + eexists. split; [done |]. split; [done |]. reflexivity.
    + eexists. split; [done |]. split; [done |]. cbn [percentage].
      assert (Hfull : (inject_Z (Z.of_nat classes mod 2 ^ 31)
                       / inject_Z (Z.of_nat classes mod 2 ^ 31) * MAX_PERCENTAGE
                       == MAX_PERCENTAGE)%Q).
      { unfold Qdiv. rewrite Qmult_inv_r.
        - apply Qmult_1_l.
        - unfold Qeq. simpl. lia. }
      rewrite Q.min_l; [done |]. rewrite Hfull. apply Qle_refl.
Qed.

(** X18.  After [waitForJob] has returned on the handle of a started job,
    every join flag of the job is set, the contexts of all other jobs are
    untouched, and a second [waitForJob] on the handle joins nothing: it
    returns the heap as it is, whatever the schedule. *)
Theorem waitForJob_twice (address : nat) (heap : gmap nat Ctx)
    (sched : Schedule) (heap' : gmap nat Ctx) :
  heap !! address = Some c0 ->
  wait sched (Some address) heap = Some heap' ->
  (exists c', heap' !! address = Some c' /\ joined c' = replicate nThreads true)
  /\ (forall other, other <> address -> heap' !! other = heap !! other)
  /\ forall sched', wait sched' (Some address) heap' = Some heap'.
Proof.
  intros Hlook Hwait.
  destruct (waitForJob_fresh sched address heap heap' Hlook Hwait)
    as (c' & cj & Hrun & -> & Hj & _).
  split; [| split].
  - exists cj. by rewrite lookup_insert_eq.
  - intros other Hne. by rewrite lookup_insert_ne.
  - intros sched'. unfold waitForJob. rewrite lookup_insert_eq, Hj.
    assert (Hall : forallb (fun flag : bool => flag) (replicate nThreads true) = true).
    { clear. induction nThreads as [| n IH]; [done | exact IH]. }
    by rewrite Hall.
Qed.

(** X19.  [closeJobHandle] on the handle returned by [startMapReduceJob]
    can return, and when it does the heap is exactly the heap from before
    the job was started: the context of the job is gone and no other context
    has changed.  For an empty input no context was created and none is
    deleted. *)
Theorem start_then_close_restores_heap (heap : gmap nat Ctx) :
  let '(job, heap1) := startMapReduceJob input output nThreads heap in
  (exists sched, close sched job heap1 = Some heap)
  /\ forall sched heap', close sched job heap1 = Some heap' -> heap' = heap.
Proof.
  assert (Hcase : input = [] \/ exists p rest, input = p :: rest).
  { clear. destruct input as [| p rest]; [by left | right; by exists p, rest]. }
  destruct Hcase as [Hin | (p & rest & Hin)].
  - rewrite Hin. simpl. split; [by exists (mkSchedule [] []) |]. by intros _ heap' [= <-].
  - destruct (startMapReduceJob_nonempty p rest output nThreads heap)
      as (address & Hstart & Hfresh).
    rewrite <- Hin in Hstart. rewrite Hstart. clear Hstart.
    assert (Hlook : (<[address := c0]> heap) !! address = Some c0)
      by apply lookup_insert_eq.
    split.
    + destruct (run_threads_spec lt2 Hswo client_map client_reduce std_sort Hsort
                  input output nThreads Hpos Hinput Hclasses)
        as [(sched & c' & Hrun) _].
      exists sched. unfold closeJobHandle, waitForJob. rewrite Hlook.
      assert (Hflags : forallb (fun flag : bool => flag) (joined c0) = false).
      { cbn [newJobContext joined]. destruct nThreads; [lia | done]. }
      rewrite Hflags, Hrun. f_equal.
      by rewrite delete_insert_eq, delete_insert_id.
    + intros sched heap' Hclose. unfold closeJobHandle in Hclose.
      destruct (wait sched (Some address) (<[address := c0]> heap))
        as [heap2 |] eqn:Hwait; [| done].
      injection Hclose as <-.
      destruct (waitForJob_fresh sched address _ heap2 Hlook Hwait)
        as (c' & cj & _ & -> & _).
      by rewrite delete_insert_eq, delete_insert_id.
Qed.

End JobHandleFacts.

Lemma waitForJob_then_job_is_done_witness :
  let wait := waitForJob Z.ltb digits_map sum_reduce insertion_sort in
  let heap : gmap nat (@JobContext Z unit Z Z Z Z) :=
    <[7%nat := newJobContext [(12, tt); (21, tt); (11, tt)] [] 2]> ∅ in
  (exists sched heap', wait sched (Some 7%nat) heap = Some heap')
  /\ forall sched heap',
       wait sched (Some 7%nat) heap = Some heap' ->
       exists st,
         getJobState (Some 7%nat) heap' = Some st
         /\ stage st = REDUCE_STAGE
         /\ (percentage st == MAX_PERCENTAGE)%Q.
Proof.
  apply (waitForJob_then_job_is_done Z.ltb Z_ltb_swo digits_map sum_reduce
           insertion_sort insertion_sort_sorts [(12, tt); (21, tt); (11, tt)] [] 2).
  - lia.
  - simpl. lia.
  - vm_compute. discriminate.
  - apply lookup_insert_eq.
Defined.

Lemma waitForJob_twice_witness :
  let wait := waitForJob Z.ltb digits_map sum_reduce insertion_sort in
  let heap : gmap nat (@JobContext Z unit Z Z Z Z) :=
    <[7%nat := newJobContext [(12, tt); (21, tt); (11, tt)] [] 2]> ∅ in
  let sched := mkSchedule [0; 1; 0; 1; 0; 1]%nat [1; 0; 1; 0; 1; 0; 1; 0]%nat in
  let heap' := default ∅ (wait sched (Some 7%nat) heap) in
  (exists c', heap' !! 7%nat = Some c' /\ joined c' = replicate 2 true)
  /\ (forall other, other <> 7%nat -> heap' !! other = heap !! other)
  /\ forall sched', wait sched' (Some 7%nat) heap' = Some heap'.
Proof.
  intros wait heap sched heap'.
  apply (waitForJob_twice Z.ltb Z_ltb_swo digits_map sum_reduce
           insertion_sort insertion_sort_sorts [(12, tt); (21, tt); (11, tt)] [] 2
           ltac:(lia) ltac:(simpl; lia) ltac:(vm_compute; discriminate)
           7%nat heap sched heap').
  - apply lookup_insert_eq.
  - vm_compute. reflexivity.
Defined.

Lemma start_then_close_restores_heap_witness :
  let close := closeJobHandle Z.ltb digits_map sum_reduce insertion_sort in
  let '(job, heap1) :=
    startMapReduceJob [(12, tt); (21, tt); (11, tt)] ([] : list (Z * Z)) 2
      (∅ : gmap nat (@JobContext Z unit Z Z Z Z)) in
  (exists sched, close sched job heap1 = Some ∅)
  /\ forall sched heap', close sched job heap1 = Some heap' -> heap' = ∅.
Proof.
  apply (start_then_close_restores_heap Z.ltb Z_ltb_swo digits_map sum_reduce
           insertion_sort insertion_sort_sorts [(12, tt); (21, tt); (11, tt)] [] 2).
  - lia.
  - simpl. lia.
  - vm_compute. discriminate.
Defined.
(** * Part XVI: the three loops of a job, each on its own *)

Section LoopResults.

Context {K1 V1 K2 V2 K3 V3 : Type}.
Variable lt2 : K2 -> K2 -> bool.
Variable client_map : K1 * V1 -> list (K2 * V2).
Variable client_reduce : list (K2 * V2) -> list (K3 * V3).
Variable std_sort : list (K2 * V2) -> list (K2 * V2).

Local Abbreviation Ctx := (@JobContext K1 V1 K2 V2 K3 V3).

(** X20.  The first loop of an iteration of [shufflePhase], on sorted
    vectors: it finds no key exactly when every vector is empty; otherwise
    the key it finds is the key of the last pair of some vector, and no key
    of any vector is greater. *)
Theorem find_max_is_greatest_key (vecs : list (list (K2 * V2))) :
  StrictWeakOrder lt2 ->
  Forall (fun vec => is_sorted lt2 vec = true) vecs ->
  (find_max lt2 vecs = None <-> Forall (fun vec => vec = []) vecs)
  /\ forall m,
       find_max lt2 vecs = Some m ->
       (exists vec kv, vec ∈ vecs /\ back vec = Some kv /\ kv.1 = m)
       /\ forall kv, kv ∈ concat vecs -> lt2 m kv.1 = false.
Proof.
  intros Hswo Hsorted. split; [apply find_max_None |].
  intros m Hmax. split.
  - by apply (find_max_is_back lt2 Hswo).
  - apply (find_max_greatest lt2 Hswo vecs m); [| done].
    by apply Forall_is_sorted_StronglySorted.
Qed.

(** X21.  The map phase of [nThreads >= 1] workers on an input within the
    range of the 32-bit index.  The workers can be scheduled so that all of
    them reach the barrier; and whenever they all have, however the indices
    were distributed, the per-worker vectors together hold exactly the pairs
    that [client.map] emits on the input pairs, each input pair having been
    mapped once, and every vector is sorted. *)
Theorem mapPhase_maps_every_pair_once (c0 : Ctx) (nThreads : nat) :
  sorts lt2 std_sort ->
  Z.of_nat (length (inputVec c0)) + Z.of_nat nThreads <= 2 ^ 32 ->
  (1 <= nThreads)%nat ->
  nextInputIndex c0 = 0 ->
  intermediateVecs c0 = replicate nThreads [] ->
  (exists sched,
     map_finished (mapPhase_run client_map std_sort sched c0 nThreads).2 = true)
  /\ forall sched,
       let s := mapPhase_run client_map std_sort sched c0 nThreads in
       map_finished s.2 = true ->
       concat (intermediateVecs s.1) ≡ₚ concat (client_map <$> inputVec c0)
       /\ Forall (fun vec => is_sorted lt2 vec = true) (intermediateVecs s.1).
Proof.
  intros Hsort Hfits Hpos Hnext Hvecs.
  destruct (mapPhase_run_spec lt2 client_map std_sort Hsort c0 nThreads Hfits Hpos
              Hnext Hvecs) as [Hex Hall].
  split; [exact Hex |].
  intros sched s Hfin. destruct (Hall sched Hfin) as (Hperm & Hsorted & _).
  by split.
Qed.

(** X22.  The reduce phase of [nThreads >= 1] workers on a number of groups
    within the range of the 32-bit index.  The workers can be scheduled so
    that all of them leave the loop; and whenever they all have, the output
    vector holds what it held at the second barrier together with exactly
    the pairs that [client.reduce] emits on the groups, each group having
    been reduced once. *)
Theorem reducePhase_reduces_every_group_once (c0 : Ctx) (nThreads : nat) :
  Z.of_nat (length (shuffledData c0)) + Z.of_nat nThreads <= 2 ^ 32 ->
  (1 <= nThreads)%nat ->
  nextReduceIndex c0 = 0 ->
  shuffleCounter c0 = Z.of_nat (length (shuffledData c0)) ->
  (exists sched,
     reduce_finished (rs_pcs (reducePhase_run client_reduce sched c0 nThreads)) = true)
  /\ forall sched,
       let s := reducePhase_run client_reduce sched c0 nThreads in
       reduce_finished (rs_pcs s) = true ->
       outputVec (rs_context s)
       ≡ₚ outputVec c0 ++ concat (client_reduce <$> shuffledData c0).
Proof.
  intros Hfits Hpos Hnext Hcnt.
  destruct (reducePhase_run_spec client_reduce c0 nThreads Hfits Hpos Hnext Hcnt)
    as [Hex Hall].
  split; [exact Hex |].
  intros sched s Hfin. by destruct (Hall sched Hfin) as (_ & Hperm).
Qed.

End LoopResults.

Lemma find_max_is_greatest_key_witness :
  let vecs := intermediateVecs example_sorted_context in
  (find_max Z.ltb vecs = None <-> Forall (fun vec => vec = []) vecs)
  /\ forall m,
       find_max Z.ltb vecs = Some m ->
       (exists vec kv, vec ∈ vecs /\ back vec = Some kv /\ kv.1 = m)
       /\ forall kv, kv ∈ concat vecs -> Z.ltb m kv.1 = false.
Proof.
  apply (find_max_is_greatest_key Z.ltb (intermediateVecs example_sorted_context)).
  - exact Z_ltb_swo.
  - repeat constructor.
Defined.

Lemma mapPhase_maps_every_pair_once_witness :
  let c0 : @JobContext Z unit Z Z Z Z :=
    newJobContext [(12, tt); (21, tt); (11, tt)] [] 2 in
  (exists sched,
     map_finished (mapPhase_run digits_map insertion_sort sched c0 2).2 = true)
  /\ forall sched,
       let s := mapPhase_run digits_map insertion_sort sched c0 2 in
       map_finished s.2 = true ->
       concat (intermediateVecs s.1) ≡ₚ concat (digits_map <$> inputVec c0)
       /\ Forall (fun vec => is_sorted Z.ltb vec = true) (intermediateVecs s.1).
Proof.
  apply (mapPhase_maps_every_pair_once Z.ltb digits_map insertion_sort
           (newJobContext [(12, tt); (21, tt); (11, tt)] [] 2) 2).
  - exact insertion_sort_sorts.
  - simpl. lia.
  - lia.
  - reflexivity.
  - reflexivity.
Defined.

Lemma reducePhase_reduces_every_group_once_witness :
  (exists sched,
     reduce_finished
       (rs_pcs (reducePhase_run sum_reduce sched example_shuffled_context 2)) = true)
  /\ forall sched,
       let s := reducePhase_run sum_reduce sched example_shuffled_context 2 in
       reduce_finished (rs_pcs s) = true ->
       outputVec (rs_context s)
       ≡ₚ outputVec example_shuffled_context
          ++ concat (sum_reduce <$> shuffledData example_shuffled_context).
Proof.
  apply (reducePhase_reduces_every_group_once sum_reduce example_shuffled_context 2).
  - simpl. lia.
  - lia.
  - reflexivity.
  - reflexivity.
Defined.
(** * Part XVII: the sample client counts characters *)

Section GroupsByKey.

Local Abbreviation key_is c := (fun kv : Z * Z => kv.1 = c).

Lemma sum_app (a b : list Z) :
  foldr Z.add 0 (a ++ b) = foldr Z.add 0 a + foldr Z.add 0 b.
Proof. induction a as [| x a IH]; simpl; lia. Qed.

Lemma concat_fmap_Permutation {A B : Type} (f : A -> list B) (l l' : list A) :
  l ≡ₚ l' -> concat (f <$> l) ≡ₚ concat (f <$> l').
Proof.
  induction 1 as [| x l l' _ IH | x y l | l l' l'' _ IH1 _ IH2]; csimpl.
  - done.
  - by rewrite IH.
  - rewrite !app_assoc. by rewrite (Permutation_app_comm (f y) (f x)).
  - by rewrite IH1.
Qed.

Lemma groups_by_key_cons (c : Z) (keys : list Z) (l : list (Z * Z)) :
  concat (groups_by_key (c :: keys) l)
  = filter (key_is c) l ++ concat (groups_by_key keys l).
Proof.
  unfold groups_by_key. csimpl.
  destruct (filter (key_is c) l) as [| kv g]; [done |].
  simpl. done.
Qed.

Lemma groups_by_key_elem (keys : list Z) (l : list (Z * Z)) (kv : Z * Z) :
  kv ∈ concat (groups_by_key keys l) -> kv.1 ∈ keys /\ kv ∈ l.
Proof.
  induction keys as [| c keys IH]; [by intros ?%elem_of_nil |].
  rewrite groups_by_key_cons, elem_of_app, list_elem_of_filter.
  intros [[<- Hin] | Hrest].
  - split; [apply list_elem_of_here | done].
  - destruct (IH Hrest) as [Hk Hin]. split; [by apply list_elem_of_further | done].
Qed.

Lemma groups_by_key_length (keys : list Z) (l : list (Z * Z)) :
  (length (groups_by_key keys l) <= length keys)%nat.
Proof.
  unfold groups_by_key. induction keys as [| c keys IH]; csimpl; [done |].
  destruct (filter (key_is c) l); simpl; lia.
Qed.

Lemma groups_by_key_one_class (keys : list Z) (l : list (Z * Z)) :
  Forall (one_class Z.ltb) (groups_by_key keys l).
Proof.
  unfold groups_by_key. induction keys as [| c keys IH]; csimpl; [constructor |].
  destruct (filter (key_is c) l) as [| kv g] eqn:Hg; [done |].
  simpl. constructor; [| done]. split; [done |].
  exists c. rewrite <- Hg. apply Forall_forall. intros x Hx.
  apply list_elem_of_filter in Hx as [-> _].
  unfold equivalent. by rewrite Z.ltb_irrefl.
Qed.

Lemma groups_by_key_descending (keys : list Z) (l : list (Z * Z)) :
  StronglySorted (fun a b => b < a) keys ->
  descending_groups Z.ltb (groups_by_key keys l).
Proof.
  induction 1 as [| c keys Hsorted IH Hall]; [apply descending_groups_nil |].
  assert (Hrest : forall a b, a ∈ filter (key_is c) l ->
                              b ∈ concat (groups_by_key keys l) ->
                              (b.1 <? a.1) = true).
  { intros a b Ha Hb. apply list_elem_of_filter in Ha as [-> _].
    apply groups_by_key_elem in Hb as [Hb _].
    rewrite Forall_forall in Hall. apply Z.ltb_lt. by apply Hall. }
  unfold groups_by_key in *. csimpl.
  destruct (filter (key_is c) l) as [| kv g]; [done |].
  simpl. by apply descending_groups_cons.
Qed.

Lemma filter_key_split (c : Z) (keys : list Z) (l : list (Z * Z)) :
  c ∉ keys ->
  filter (fun kv : Z * Z => kv.1 ∈ c :: keys) l
  ≡ₚ filter (key_is c) l ++ filter (fun kv : Z * Z => kv.1 ∈ keys) l.
Proof.
  intros Hc. induction l as [| kv l IH]; [done |].
  destruct (decide (kv.1 = c)) as [Heq | Hne].
  - rewrite (filter_cons_True (fun kv : Z * Z => kv.1 ∈ c :: keys))
      by (rewrite Heq; apply list_elem_of_here).
    rewrite (filter_cons_True (key_is c)) by done.
    rewrite (filter_cons_False (fun kv : Z * Z => kv.1 ∈ keys)) by (by rewrite Heq).
    simpl. by rewrite IH.
  - rewrite (filter_cons_False (key_is c)) by done.
    destruct (decide (kv.1 ∈ keys)) as [Hin | Hnin].
    + rewrite (filter_cons_True (fun kv : Z * Z => kv.1 ∈ c :: keys))
        by (by apply list_elem_of_further).
      rewrite (filter_cons_True (fun kv : Z * Z => kv.1 ∈ keys)) by done.
      rewrite IH. apply Permutation_middle.
    + rewrite (filter_cons_False (fun kv : Z * Z => kv.1 ∈ c :: keys)).
      2: { intros [? | ?]%elem_of_cons; done. }
      by rewrite (filter_cons_False (fun kv : Z * Z => kv.1 ∈ keys)) by done.
Qed.

Lemma groups_by_key_Permutation (keys : list Z) (l : list (Z * Z)) :
  NoDup keys ->
  Forall (fun kv => kv.1 ∈ keys) l ->
  concat (groups_by_key keys l) ≡ₚ l.
Proof.
  intros Hnd Hall.
  rewrite <- (filter_all (fun kv : Z * Z => kv.1 ∈ keys) l Hall) at 2.
  clear Hall. induction Hnd as [| c keys Hc Hnd IH].
  - unfold groups_by_key. simpl. symmetry. apply Permutation_nil_r.
    apply filter_none. apply Forall_forall. by intros kv _ ?%elem_of_nil.
  - by rewrite groups_by_key_cons, filter_key_split, IH.
Qed.

Lemma descending_keys_sorted (m : Z) (n : nat) :
  StronglySorted (fun a b => b < a) (reverse (seqZ m (Z.of_nat n))).
Proof.
  induction n as [| n IH]; [constructor |].
  rewrite seqZ_S, reverse_snoc. constructor; [done |].
  apply Forall_forall. intros b Hb.
  apply elem_of_reverse, elem_of_seqZ in Hb. lia.
Qed.

End GroupsByKey.

Section CounterClientFacts.

Local Abbreviation key_is c := (fun kv : Z * Z => kv.1 = c).

Lemma foldl_count (pairs : list (Z * Z)) (acc : Z) :
  foldl (fun count kv => count + kv.2) acc pairs = acc + foldr Z.add 0 pairs.*2.
Proof.
  revert acc. induction pairs as [| kv pairs IH]; intros acc; csimpl; [lia |].
  rewrite IH. lia.
Qed.

(** [CounterClient::reduce] is the reduce function [sum_reduce]. *)
Lemma reduce_sum_reduce (g : list (Z * Z)) : CounterClient.reduce g = sum_reduce g.
Proof.
  destruct g as [| kv g]; [done |].
  unfold CounterClient.reduce, sum_reduce. by rewrite foldl_count, Z.add_0_l.
Qed.

Lemma reduce_order_insensitive : order_insensitive CounterClient.reduce Z.ltb.
Proof.
  intros g g' Hclass Hperm. rewrite !reduce_sum_reduce.
  by apply sum_reduce_order_insensitive.
Qed.

Lemma to_char_byte (i c : Z) :
  0 <= i < 256 -> -128 <= c <= 127 ->
  CounterClient.to_char i = c <-> i = c mod 256.
Proof.
  intros Hi Hc. unfold CounterClient.to_char.
  pose proof (Z.div_mod c 256 ltac:(lia)) as Hdiv.
  pose proof (Z.mod_pos_bound c 256 ltac:(lia)) as Hmod.
  destruct (Z.ltb_spec i 128); lia.
Qed.

Lemma to_char_range (i : Z) :
  0 <= i < 256 -> -128 <= CounterClient.to_char i <= 127.
Proof. intros Hi. unfold CounterClient.to_char. destruct (Z.ltb_spec i 128); lia. Qed.

Lemma counts_nonneg (content : String.string) (i : Z) :
  0 <= CounterClient.counts content i.
Proof. unfold CounterClient.counts. lia. Qed.

(** The pairs that one call of [map] emits. *)
Lemma map_pairs (p : unit * String.string) (kv : Z * Z) :
  kv ∈ CounterClient.map p -> -128 <= kv.1 <= 127 /\ 0 < kv.2.
Proof.
  unfold CounterClient.map. rewrite elem_of_concat.
  intros (l & Hkv & Hl). apply list_elem_of_fmap in Hl as (i & -> & Hi).
  apply elem_of_seqZ in Hi.
  pose proof (counts_nonneg p.2 i) as Hnn.
  destruct (Z.eqb_spec (CounterClient.counts p.2 i) 0) as [Hz | Hnz].
  - by apply elem_of_nil in Hkv.
  - apply list_elem_of_singleton in Hkv as ->. simpl.
    split; [apply to_char_range; lia | lia].
Qed.

(** The counts that a list of emitted pairs holds for the character [c]. *)
Lemma sum_filter_emitted (v : Z -> Z) (bytes : list Z) (c : Z) :
  NoDup bytes ->
  Forall (fun i => 0 <= i < 256) bytes ->
  -128 <= c <= 127 ->
  foldr Z.add 0
    (filter (key_is c)
       (concat ((fun i : Z => if v i =? 0 then []
                              else [(CounterClient.to_char i, v i)]) <$> bytes))).*2
  = if decide (c mod 256 ∈ bytes) then v (c mod 256) else 0.
Proof.
  intros Hnd Hall Hc. induction Hnd as [| i bytes Hi Hnd IH].
  - destruct (decide (c mod 256 ∈ [])) as [Hin | _]; [| done].
    by apply elem_of_nil in Hin.
  - apply Forall_cons in Hall as [Hrange Hall]. specialize (IH Hall).
    rewrite fmap_cons. cbn [concat].
    rewrite filter_app, fmap_app, sum_app, IH. clear IH.
    pose proof (to_char_byte i c Hrange Hc) as Hbyte.
    assert (Hhead : foldr Z.add 0
                      (filter (key_is c)
                         (if v i =? 0 then []
                          else [(CounterClient.to_char i, v i)])).*2
                    = if decide (i = c mod 256) then v i else 0).
    { destruct (Z.eqb_spec (v i) 0) as [Hz | Hnz].
      - destruct (decide (i = c mod 256)); [by rewrite Hz | done].
      - destruct (decide (i = c mod 256)) as [Heq | Hne].
        + rewrite filter_cons_True by (by apply Hbyte). simpl. lia.
        + rewrite filter_cons_False; [done |]. simpl. intros Hk. by apply Hne, Hbyte. }
    rewrite Hhead. clear Hhead.
    destruct (decide (i = c mod 256)) as [Heq | Hne].
    + destruct (decide (c mod 256 ∈ bytes)) as [Hin | _];
        [by rewrite <- Heq in Hin |].
      destruct (decide (c mod 256 ∈ i :: bytes)) as [_ | Hnin].
      * rewrite Heq. lia.
      * destruct Hnin. rewrite <- Heq. apply list_elem_of_here.
    + destruct (decide (c mod 256 ∈ bytes)) as [Hin | Hnin];
        destruct (decide (c mod 256 ∈ i :: bytes)) as [Hin' | Hnin'].
      * lia.
      * destruct Hnin'. by apply list_elem_of_further.
      * apply elem_of_cons in Hin' as [? | ?]; [by destruct Hne | done].
      * done.
Qed.

Lemma map_sum (p : unit * String.string) (c : Z) :
  -128 <= c <= 127 ->
  foldr Z.add 0 (filter (key_is c) (CounterClient.map p)).*2
  = CounterClient.counts p.2 (c mod 256).
Proof.
  intros Hc. unfold CounterClient.map.
  rewrite (sum_filter_emitted (CounterClient.counts p.2) (seqZ 0 256) c).
  - rewrite decide_True; [done |].
    apply elem_of_seqZ. pose proof (Z.mod_pos_bound c 256 ltac:(lia)). lia.
  - apply NoDup_seqZ.
  - apply Forall_forall. intros i Hi. apply elem_of_seqZ in Hi. lia.
  - done.
Qed.

Lemma mapped_sum (input : list (unit * String.string)) (c : Z) :
  -128 <= c <= 127 ->
  foldr Z.add 0 (filter (key_is c) (concat (CounterClient.map <$> input))).*2
  = occurrences input c.
Proof.
  intros Hc. unfold occurrences. induction input as [| p input IH]; csimpl; [done |].
  by rewrite filter_app, fmap_app, sum_app, IH, map_sum.
Qed.

Lemma mapped_pairs (input : list (unit * String.string)) (kv : Z * Z) :
  kv ∈ concat (CounterClient.map <$> input) -> -128 <= kv.1 <= 127 /\ 0 < kv.2.
Proof.
  rewrite elem_of_concat. intros (l & Hkv & Hl).
  apply list_elem_of_fmap in Hl as (p & -> & _). by apply (map_pairs p).
Qed.

Lemma positive_sum (l : list (Z * Z)) :
  Forall (fun kv => 0 < kv.2) l -> l <> [] -> 0 < foldr Z.add 0 l.*2.
Proof.
  induction 1 as [| kv l Hkv Hall IH]; intros Hne; [done |].
  csimpl. destruct l as [| kv' l]; [csimpl; lia |].
  specialize (IH ltac:(done)). lia.
Qed.

(** What [reduce] emits on the groups of the mapped pairs, key by key. *)
Lemma reduce_groups_by_key (input : list (unit * String.string)) (keys : list Z) :
  Forall (fun c => -128 <= c <= 127) keys ->
  concat (CounterClient.reduce
            <$> groups_by_key keys (concat (CounterClient.map <$> input)))
  = concat ((fun c => if occurrences input c =? 0 then []
                      else [(c, occurrences input c)]) <$> keys).
Proof.
  induction 1 as [| c keys Hc Hall IH]; [done |].
  unfold groups_by_key in *. rewrite !fmap_cons. cbn [concat].
  rewrite fmap_app, concat_app, IH. f_equal. clear IH.
  pose proof (mapped_sum input c Hc) as Hsum.
  destruct (filter (key_is c) (concat (CounterClient.map <$> input)))
    as [| kv g] eqn:Hg.
  - simpl in Hsum. by rewrite <- Hsum.
  - assert (Hkey : kv.1 = c).
    { assert (Hin : kv ∈ filter (key_is c) (concat (CounterClient.map <$> input)))
        by (rewrite Hg; apply list_elem_of_here).
      by apply list_elem_of_filter in Hin as [? _]. }
    assert (Hpos : 0 < foldr Z.add 0 (kv :: g).*2).
    { apply positive_sum; [| done]. rewrite <- Hg.
      apply Forall_forall. intros x Hx. apply list_elem_of_filter in Hx as [_ Hx].
      by apply mapped_pairs in Hx as [_ ?]. }
    rewrite fmap_cons, fmap_nil. cbn [concat]. rewrite app_nil_r.
    rewrite reduce_sum_reduce. unfold sum_reduce.
    rewrite Hsum in *. rewrite Hkey.
    destruct (Z.eqb_spec (occurrences input c) 0); [lia | done].
Qed.

End CounterClientFacts.

Section SampleJob.

Variable std_sort : list (Z * Z) -> list (Z * Z).
Hypothesis Hsort : sorts CounterClient.KChar_lt std_sort.

Variable input : list (unit * String.string).
Variable output : list (Z * Z).
Variable nThreads : nat.
Hypothesis Hpos : (1 <= nThreads)%nat.
Hypothesis Hinput : Z.of_nat (length input) + Z.of_nat nThreads <= 2 ^ 32.
Hypothesis Hthreads : Z.of_nat nThreads + 256 <= 2 ^ 32.

Local Abbreviation run :=
  (run_threads CounterClient.KChar_lt CounterClient.map CounterClient.reduce std_sort).
Local Abbreviation mapped := (concat (CounterClient.map <$> input)).
Local Abbreviation keys := (reverse (seqZ (-128) 256)).

(** The mapped pairs, cut into one group per character, greatest character
    first. *)
Lemma mapped_groups :
  Forall (one_class Z.ltb) (groups_by_key keys mapped)
  /\ descending_groups Z.ltb (groups_by_key keys mapped)
  /\ concat (groups_by_key keys mapped) ≡ₚ mapped
  /\ (length (groups_by_key keys mapped) <= 256)%nat.
Proof.
  split; [apply groups_by_key_one_class |].
  split; [apply groups_by_key_descending, (descending_keys_sorted (-128) 256) |].
  split.
  - apply groups_by_key_Permutation.
    + rewrite reverse_Permutation. apply NoDup_seqZ.
    + apply Forall_forall. intros kv Hkv. apply mapped_pairs in Hkv as [Hrange _].
      apply elem_of_reverse, elem_of_seqZ. lia.
  - etransitivity; [apply groups_by_key_length |].
    by rewrite length_reverse, length_seqZ.
Qed.

(** X23.  The job of the sample client, for any input strings with fewer
    than [2^31] characters in all and any number [nThreads >= 1] of workers
    within the range of the 32-bit indices.  The job can run to its end, and
    whenever it has, the output vector holds what it held before together
    with exactly one pair for every character that occurs in the strings,
    carrying the number of its occurrences. *)
Theorem sample_client_counts_characters :
  Z.of_nat (length (concat (CounterClient.bytes <$> input.*2))) < 2 ^ 31 ->
  (exists sched c', run sched (newJobContext input output nThreads) = Some c')
  /\ forall sched c',
       run sched (newJobContext input output nThreads) = Some c' ->
       outputVec c' ≡ₚ output ++ character_counts input.
Proof.
  intros _.
  change CounterClient.KChar_lt with Z.ltb in *.
  destruct mapped_groups as (Hclass & Hdesc & Hperm & Hlen).
  assert (Hclasses : Z.of_nat (num_classes Z.ltb mapped.*1) + Z.of_nat nThreads
                     <= 2 ^ 32).
  { rewrite <- (num_classes_Permutation Z.ltb Z_ltb_swo
                  (concat (groups_by_key keys mapped)).*1 mapped.*1)
      by (by rewrite Hperm).
    rewrite <- (groups_count_classes Z.ltb Z_ltb_swo _ Hclass Hdesc). lia. }
  destruct (run_threads_spec Z.ltb Z_ltb_swo CounterClient.map CounterClient.reduce
              std_sort Hsort input output nThreads Hpos Hinput Hclasses)
    as [Hex Hall].
  split; [exact Hex |].
  intros sched c' Hrun.
  destruct (Hall sched c' Hrun) as (gs & Hcl & Hd & Hp & Hout).
  assert (Hsame : Forall2 Permutation gs (groups_by_key keys mapped)).
  { apply (grouping_unique Z.ltb Z_ltb_swo); try done. by rewrite Hp, Hperm. }
  rewrite Hout. apply Permutation_app_head.
  rewrite (reduce_groups_Permutation Z.ltb CounterClient.reduce gs _
             reduce_order_insensitive Hcl Hsame).
  rewrite reduce_groups_by_key.
  - unfold character_counts. apply concat_fmap_Permutation, reverse_Permutation.
  - apply Forall_forall. intros c Hc. apply elem_of_reverse, elem_of_seqZ in Hc. lia.
Qed.

End SampleJob.

(** The job of [main]: three strings and four workers. *)
Lemma sample_client_counts_characters_witness :
  let run := run_threads CounterClient.KChar_lt CounterClient.map CounterClient.reduce
               insertion_sort in
  (exists sched c', run sched (newJobContext CounterClient.inputVec [] 4) = Some c')
  /\ forall sched c',
       run sched (newJobContext CounterClient.inputVec [] 4) = Some c' ->
       outputVec c' ≡ₚ [] ++ character_counts CounterClient.inputVec.
Proof.
  apply (sample_client_counts_characters insertion_sort insertion_sort_sorts
           CounterClient.inputVec [] 4).
  - lia.
  - simpl. lia.
  - lia.
  - vm_compute. reflexivity.
Defined.

(** The characters of the three strings of [main] and their counts. *)
Example main_character_counts :
  character_counts CounterClient.inputVec
  = [(32, 10); (77, 1); (84, 1); (97, 7); (98, 1); (99, 4); (100, 3); (101, 6);
     (102, 2); (103, 2); (104, 3); (105, 8); (108, 3); (109, 1); (110, 4);
     (111, 4); (114, 6); (115, 7); (116, 5); (117, 2); (119, 1)].
Proof. vm_compute. reflexivity. Qed.
